(** * proglog: the segment triad (store, index, segment) of the commit log

    A shallow embedding of [internal/log]: the append-only store file, the
    fixed-width memory-mapped index and the segment that composes them.

    - Go's [uint64], [uint32] and [int64] are [Z] with the wrap-around of
      every operation written out.
    - A file and the mapped region are [list byte]; the store's pending
      [bufio.Writer] bytes are kept apart from the bytes that reached the
      file, as in the source.
    - Every operation returns its new state next to a [result]: a value, a
      returned [error], or a run-time panic (a slice expression out of
      range), which no [err != nil] test catches. *)

From Stdlib Require Import ZArith List Lia Bool.
From Stdlib.Strings Require Import Byte.
Import ListNotations.
Local Open Scope Z_scope.

(** ** Machine integers *)

Definition uint64 (z : Z) : Z := z mod 2 ^ 64.
Definition uint32 (z : Z) : Z := z mod 2 ^ 32.
Definition int64 (z : Z) : Z := (z + 2 ^ 63) mod 2 ^ 64 - 2 ^ 63.
Definition maxInt : Z := 2 ^ 63 - 1.

Definition is_uint64 (z : Z) : Prop := 0 <= z < 2 ^ 64.
Definition is_uint32 (z : Z) : Prop := 0 <= z < 2 ^ 32.

(** ** Bytes and byte slices *)

Definition byte_of_Z (z : Z) : byte :=
  match Byte.of_N (Z.to_N (z mod 256)) with
  | Some b => b
  | None => x00
  end.

Definition Z_of_byte (b : byte) : Z := Z.of_N (Byte.to_N b).

Definition len {A : Type} (l : list A) : Z := Z.of_nat (length l).

Definition take {A : Type} (n : Z) (l : list A) : list A := firstn (Z.to_nat n) l.
Definition drop {A : Type} (n : Z) (l : list A) : list A := skipn (Z.to_nat n) l.
Definition zeros (n : Z) : list byte := repeat x00 (Z.to_nat n).

(** [m[lo:hi]] of a slice whose capacity is its length: [None] is the
    run-time panic "slice bounds out of range". *)
Definition slice (m : list byte) (lo hi : Z) : option (list byte) :=
  if (0 <=? lo) && (lo <=? hi) && (hi <=? len m)
  then Some (take (hi - lo) (drop lo m))
  else None.

(** Writing [bs] through the alias [m[lo:hi]] (with [len bs = hi - lo]). *)
Definition slice_put (m : list byte) (lo hi : Z) (bs : list byte) : option (list byte) :=
  if (0 <=? lo) && (lo <=? hi) && (hi <=? len m)
  then Some (take lo m ++ bs ++ drop hi m)
  else None.

(** ** [encoding/binary]'s [BigEndian] *)

(** [PutUint32] and [PutUint64]: the byte [v >> (8*k)] for [k] from [n-1] down to 0. *)
Fixpoint be_bytes (n : nat) (v : Z) : list byte :=
  match n with
  | O => []
  | S m => byte_of_Z (Z.shiftr v (8 * Z.of_nat m)) :: be_bytes m v
  end.

(** [Uint32] and [Uint64]: the bytes or-ed together, first byte highest. *)
Definition be_value (bs : list byte) : Z :=
  fold_left (fun acc b => Z.lor (Z.shiftl acc 8) (Z_of_byte b)) bs 0.

Definition PutUint32 (v : Z) : list byte := be_bytes 4 v.
Definition PutUint64 (v : Z) : list byte := be_bytes 8 v.
Definition Uint32 (b : list byte) : Z := be_value (take 4 b).
Definition Uint64 (b : list byte) : Z := be_value (take 8 b).

(** ** Errors and results *)

Inductive error : Set :=
| io_EOF              (* io.EOF *)
| ErrInvalid          (* EINVAL from truncate or mmap *)
| ErrNegativeOffset   (* os.File.ReadAt with a negative offset *)
| ErrWrite            (* the operating system refused part of a write *)
| ErrMarshal          (* proto.Marshal failed *)
| ErrUnmarshal.       (* proto.Unmarshal failed *)

Inductive result (A : Type) : Type :=
| Ok (a : A)
| Err (e : error)
| Panic.

Arguments Ok {A} a.
Arguments Err {A} e.
Arguments Panic {A}.

Definition is_none {A : Type} (o : option A) : bool :=
  match o with
  | None => true
  | Some _ => false
  end.

(** ** Records and configuration *)

(** Modelled from the spec: the generated [api.Record] message is not part of
    the sources at hand; the spec gives it the fields [Value] (bytes) and
    [Offset] (uint64), as [server.Record] has them. *)
Record api_Record : Set := mkRecord { Value : list byte; Offset : Z }.

Definition set_Offset (r : api_Record) (off : Z) : api_Record :=
  {| Value := Value r; Offset := off |}.

(** Modelled from the spec: [Config] is declared outside the sources at hand;
    the two options the segment reads are [Segment.MaxStoreBytes] and
    [Segment.MaxIndexBytes], both compared with [uint64] sizes. *)
Record SegmentConfig : Set := { MaxStoreBytes : Z; MaxIndexBytes : Z }.
Record Config : Set := { Segment : SegmentConfig }.

(** ** The environment of the package

    [proto.Marshal] and [proto.Unmarshal] belong to the protobuf library and
    the write system call to the operating system: the embedding takes them
    as given.  [os_accept f p] is the number of bytes of [p] the system
    accepts when [p] is appended to a file that holds [f]; the write fails
    when it is less than [length p]. *)
Class Env : Type := {
  proto_Marshal : api_Record -> result (list byte);
  proto_Unmarshal : list byte -> result api_Record;
  os_accept : list byte -> list byte -> nat
}.

(** The codec decodes what it encoded. *)
Definition codec_sound (E : Env) : Prop :=
  forall r p, is_uint64 (Offset r) -> proto_Marshal r = Ok p -> proto_Unmarshal p = Ok r.

(** Nothing fails: every record marshals and the system takes every write. *)
Definition reliable (E : Env) : Prop :=
  (forall r, exists p, proto_Marshal r = Ok p)
  /\ (forall f p, (length p <= os_accept f p)%nat).

(** ** [os.File] *)

Module os.
Section WithEnv.
Context {E : Env}.

(** [f.Write(p)] on a file opened with [O_APPEND]: the new contents, the
    number of bytes written and the error. *)
Definition Write (f p : list byte) : list byte * nat * option error :=
  let n := Nat.min (os_accept f p) (length p) in
  (f ++ firstn n p, n, if (n <? length p)%nat then Some ErrWrite else None).
End WithEnv.

(** [f.ReadAt(b, off)] with [len(b) = n]: all [n] bytes or an error. *)
Definition ReadAt (f : list byte) (n off : Z) : result (list byte) :=
  if off <? 0 then Err ErrNegativeOffset
  else if n =? 0 then Ok []
  else if len f <? off + n then Err io_EOF
  else Ok (take n (drop off f)).

(** [f.Truncate(n)]: cut, or extended with zero bytes. *)
Definition Truncate (f : list byte) (n : Z) : result (list byte) :=
  if n <? 0 then Err ErrInvalid
  else Ok (take n f ++ zeros (n - len f)).
End os.

(** ** [bufio.Writer] over the store's file *)

Module bufio.
Definition defaultBufSize : Z := 4096.

(** [wbuf] is [b.buf[0:b.n]], [werr] the sticky [b.err]. *)
Record Writer : Set := { wbuf : list byte; werr : option error }.

Definition NewWriter : Writer := {| wbuf := []; werr := None |}.
Definition Available (b : Writer) : Z := defaultBufSize - len (wbuf b).

Section WithEnv.
Context {E : Env}.

Definition Flush (f : list byte) (b : Writer) : list byte * Writer * option error :=
  match werr b with
  | Some e => (f, b, Some e)
  | None =>
    match wbuf b with
    | [] => (f, b, None)
    | _ :: _ =>
      let '(f', n, err) := os.Write f (wbuf b) in
      match err with
      | Some e => (f', {| wbuf := skipn n (wbuf b); werr := Some e |}, Some e)
      | None => (f', {| wbuf := []; werr := None |}, None)
      end
    end
  end.

(** The loop of [Write]: while [p] does not fit and no error is pending,
    either hand [p] to the file (empty buffer) or fill the buffer and
    flush it.  The loop runs at most twice ([Write_loop_settles]). *)
Fixpoint Write_loop (fuel : nat) (f : list byte) (b : Writer) (p : list byte) (nn : Z)
  : list byte * Writer * list byte * Z :=
  if (Available b <? len p) && is_none (werr b) then
    match fuel with
    | O => (f, b, p, nn)
    | S fuel' =>
      match wbuf b with
      | [] =>
        let '(f', n, err) := os.Write f p in
        Write_loop fuel' f' {| wbuf := []; werr := err |} (skipn n p) (nn + Z.of_nat n)
      | _ :: _ =>
        let n := Nat.min (Z.to_nat (Available b)) (length p) in
        let '(f', b', _) := Flush f {| wbuf := wbuf b ++ firstn n p; werr := werr b |} in
        Write_loop fuel' f' b' (skipn n p) (nn + Z.of_nat n)
      end
    end
  else (f, b, p, nn).

Definition Write (f : list byte) (b : Writer) (p : list byte)
  : list byte * Writer * Z * option error :=
  let '(f', b', p', nn) := Write_loop 2 f b p 0 in
  match werr b' with
  | Some e => (f', b', nn, Some e)
  | None =>
    let n := Nat.min (Z.to_nat (Available b')) (length p') in
    (f', {| wbuf := wbuf b' ++ firstn n p'; werr := None |}, nn + Z.of_nat n, None)
  end.
End WithEnv.
End bufio.

(** ** store.go *)

Module store.
Definition lenWidth : Z := 8.

(** [File] holds the bytes that reached the file, [buf] the buffered writer
    in front of it, [size] the running total. *)
Record t : Set := { File : list byte; buf : bufio.Writer; size : Z }.

(** [os.Stat] gives the length of the file. *)
Definition newStore (f : list byte) : t :=
  {| File := f; buf := bufio.NewWriter; size := uint64 (len f) |}.

(** The bytes of the store as a reader will see them after the flush. *)
Definition contents (s : t) : list byte := File s ++ bufio.wbuf (buf s).

Section WithEnv.
Context {E : Env}.

(** [Append] returns [(n, pos)]. *)
Definition Append (s : t) (p : list byte) : t * result (Z * Z) :=
  let pos := size s in
  let '(f1, b1, _, err) := bufio.Write (File s) (buf s) (PutUint64 (uint64 (len p))) in
  match err with
  | Some e => ({| File := f1; buf := b1; size := size s |}, Err e)
  | None =>
    let '(f2, b2, w, err) := bufio.Write f1 b1 p in
    match err with
    | Some e => ({| File := f2; buf := b2; size := size s |}, Err e)
    | None =>
      let w := int64 (w + lenWidth) in
      ({| File := f2; buf := b2; size := uint64 (size s + uint64 w) |},
       Ok (uint64 w, pos))
    end
  end.

Definition Read (s : t) (pos : Z) : t * result (list byte) :=
  let '(f1, b1, err) := bufio.Flush (File s) (buf s) in
  let s1 := {| File := f1; buf := b1; size := size s |} in
  match err with
  | Some e => (s1, Err e)
  | None =>
    match os.ReadAt f1 lenWidth (int64 pos) with
    | Ok sz =>
      let n := Uint64 sz in
      if maxInt <? n then (s1, Panic)   (* make([]byte, n): len out of range *)
      else (s1, os.ReadAt f1 n (int64 (uint64 (pos + lenWidth))))
    | Err e => (s1, Err e)
    | Panic => (s1, Panic)
    end
  end.

Definition ReadAt (s : t) (n off : Z) : t * result (list byte) :=
  let '(f1, b1, err) := bufio.Flush (File s) (buf s) in
  let s1 := {| File := f1; buf := b1; size := size s |} in
  match err with
  | Some e => (s1, Err e)
  | None => (s1, os.ReadAt f1 n off)
  end.

(** [Close] flushes; the file that stays behind and the error. *)
Definition Close (s : t) : list byte * option error :=
  let '(f1, _, err) := bufio.Flush (File s) (buf s) in (f1, err).
End WithEnv.
End store.

(** ** index.go *)

Module index.
Definition offWidth : Z := 4.
Definition posWidth : Z := 8.
Definition entWidth : Z := offWidth + posWidth.

Record t : Set := { mmap : list byte; size : Z }.

(** [newIndex]: the size of the file as found, then the file truncated (or
    extended with zeros) to [MaxIndexBytes] and mapped whole.  [Truncate]
    refuses a negative length and [mmap] an empty file. *)
Definition newIndex (f : list byte) (c : Config) : result t :=
  let sz := uint64 (len f) in
  match os.Truncate f (int64 (MaxIndexBytes (Segment c))) with
  | Ok f' =>
    if len f' =? 0 then Err ErrInvalid
    else Ok {| mmap := f'; size := sz |}
  | Err e => Err e
  | Panic => Panic
  end.

(** [Close]: the mapped bytes synced to the file, the file truncated back to
    the logical size. *)
Definition Close (i : t) : result (list byte) :=
  os.Truncate (mmap i) (int64 (size i)).

Definition isMaxed (i : t) : bool :=
  uint64 (len (mmap i)) <? uint64 (size i + entWidth).

(** [Read] returns [(out, pos)]. *)
Definition Read (i : t) (in_ : Z) : result (Z * Z) :=
  if size i =? 0 then Err io_EOF
  else
    let out := if in_ =? -1 then uint32 (uint64 (size i / entWidth - 1))
               else uint32 in_ in
    let pos := uint64 (out * entWidth) in
    if size i <? uint64 (pos + entWidth) then Err io_EOF
    else
      match slice (mmap i) pos (uint64 (pos + offWidth)),
            slice (mmap i) (uint64 (pos + offWidth)) (uint64 (pos + entWidth)) with
      | Some o, Some p => Ok (Uint32 o, Uint64 p)
      | _, _ => Panic
      end.

Definition Write (i : t) (off pos : Z) : t * result unit :=
  if isMaxed i then (i, Err io_EOF)
  else
    match slice_put (mmap i) (size i) (uint64 (size i + offWidth)) (PutUint32 off) with
    | None => (i, Panic)
    | Some m1 =>
      match slice_put m1 (uint64 (size i + offWidth)) (uint64 (size i + entWidth))
                      (PutUint64 pos) with
      | None => ({| mmap := m1; size := size i |}, Panic)
      | Some m2 => ({| mmap := m2; size := uint64 (size i + entWidth) |}, Ok tt)
      end
    end.
End index.

(** ** segment.go *)

Module segment.
Record t : Set := {
  store_ : store.t;
  index_ : index.t;
  baseOffset : Z;
  nextOffset : Z;
  config : Config
}.

(** The two files of a segment as they lie in its directory. *)
Record files : Set := { storeFile : list byte; indexFile : list byte }.

Definition with_store (s : t) (st : store.t) : t :=
  {| store_ := st; index_ := index_ s; baseOffset := baseOffset s;
     nextOffset := nextOffset s; config := config s |}.

Definition with_index (s : t) (ix : index.t) : t :=
  {| store_ := store_ s; index_ := ix; baseOffset := baseOffset s;
     nextOffset := nextOffset s; config := config s |}.

(** [newSegment] over the two files found (empty when just created). *)
Definition newSegment (d : files) (baseOffset : Z) (c : Config) : result t :=
  let st := store.newStore (storeFile d) in
  match index.newIndex (indexFile d) c with
  | Ok ix =>
    match index.Read ix (-1) with
    | Ok (off, _) =>
      Ok {| store_ := st; index_ := ix; baseOffset := baseOffset;
            nextOffset := uint64 (baseOffset + off + 1); config := c |}
    | Err _ =>
      Ok {| store_ := st; index_ := ix; baseOffset := baseOffset;
            nextOffset := baseOffset; config := c |}
    | Panic => Panic
    end
  | Err e => Err e
  | Panic => Panic
  end.

Definition IsMaxed (s : t) : bool :=
  (MaxStoreBytes (Segment (config s)) <=? store.size (store_ s))
  || (MaxIndexBytes (Segment (config s)) <=? index.size (index_ s))
  || index.isMaxed (index_ s).

(** The two names of a segment in its directory: [None] for a name that is
    not there. *)
Record dir : Set := { storeEntry : option (list byte); indexEntry : option (list byte) }.

Definition present (d : files) : dir :=
  {| storeEntry := Some (storeFile d); indexEntry := Some (indexFile d) |}.

(** What the two [os.OpenFile] calls of [newSegment] find: [O_CREATE] makes
    an empty file of a name that is not there. *)
Definition found (d : dir) : files :=
  {| storeFile := match storeEntry d with Some f => f | None => [] end;
     indexFile := match indexEntry d with Some f => f | None => [] end |}.

Section WithEnv.
Context {E : Env}.

(** [Append] stamps the record with [nextOffset] (the caller's record keeps
    the stamp whatever the outcome), marshals it, appends the bytes to the
    store and the pair (relative offset, position) to the index. *)
Definition Append (s : t) (record : api_Record) : t * result Z :=
  let cur := nextOffset s in
  let record := set_Offset record cur in
  match proto_Marshal record with
  | Ok p =>
    let '(st, r) := store.Append (store_ s) p in
    let s1 := with_store s st in
    match r with
    | Ok (_, pos) =>
      let '(ix, w) :=
        index.Write (index_ s) (uint32 (uint64 (nextOffset s - baseOffset s))) pos in
      let s2 := with_index s1 ix in
      match w with
      | Ok _ =>
        ({| store_ := store_ s2; index_ := index_ s2; baseOffset := baseOffset s2;
            nextOffset := uint64 (nextOffset s2 + 1); config := config s2 |},
         Ok cur)
      | Err e => (s2, Err e)
      | Panic => (s2, Panic)
      end
    | Err e => (s1, Err e)
    | Panic => (s1, Panic)
    end
  | Err e => (s, Err e)
  | Panic => (s, Panic)
  end.

(** [Append] as a caller reaches it: the record comes by pointer, and the
    assignment of the offset goes through the pointer before anything
    else is done, so a nil record is a run-time panic. *)
Definition Append_ptr (s : t) (record : option api_Record) : t * result Z :=
  match record with
  | Some r => Append s r
  | None => (s, Panic)
  end.

Definition Read (s : t) (off : Z) : t * result api_Record :=
  match index.Read (index_ s) (int64 (uint64 (off - baseOffset s))) with
  | Ok (_, pos) =>
    let '(st, r) := store.Read (store_ s) pos in
    let s1 := with_store s st in
    match r with
    | Ok p => (s1, proto_Unmarshal p)
    | Err e => (s1, Err e)
    | Panic => (s1, Panic)
    end
  | Err e => (s, Err e)
  | Panic => (s, Panic)
  end.

(** [Close]: the index first, then the store; the files left behind. *)
Definition Close (s : t) : files * result unit :=
  match index.Close (index_ s) with
  | Ok fi =>
    let '(fs, err) := store.Close (store_ s) in
    ({| storeFile := fs; indexFile := fi |},
     match err with
     | Some e => Err e
     | None => Ok tt
     end)
  | Err e =>
    ({| storeFile := store.File (store_ s); indexFile := index.mmap (index_ s) |}, Err e)
  | Panic =>
    ({| storeFile := store.File (store_ s); indexFile := index.mmap (index_ s) |}, Panic)
  end.

(** [Remove]: [Close], then the index file unlinked, then the store file.
    [rmIndex] and [rmStore] are what the two [os.Remove] calls return; the
    second call is only made when the first returned [nil]. *)
Definition Remove (s : t) (rmIndex rmStore : option error) : dir * result unit :=
  let '(d, r) := Close s in
  match r with
  | Ok _ =>
    match rmIndex with
    | Some e => (present d, Err e)
    | None =>
      match rmStore with
      | Some e => ({| storeEntry := Some (storeFile d); indexEntry := None |}, Err e)
      | None => ({| storeEntry := None; indexEntry := None |}, Ok tt)
      end
    end
  | Err e => (present d, Err e)
  | Panic => (present d, Panic)
  end.

(** A caller's loop: the records appended one after the other, every
    outcome kept. *)
Fixpoint AppendAll (s : t) (rs : list api_Record) : t * list (result Z) :=
  match rs with
  | [] => (s, [])
  | r :: rs' =>
    let '(s1, o) := Append s r in
    let '(s2, os) := AppendAll s1 rs' in
    (s2, o :: os)
  end.
End WithEnv.
End segment.

(** ** The layout of the two files *)

(** One index entry: the relative offset on 4 bytes, the position on 8. *)
Definition entry (w : Z * Z) : list byte := PutUint32 (fst w) ++ PutUint64 (snd w).

Definition entries (ws : list (Z * Z)) : list byte := flat_map entry ws.

(** The pair held by the [n]-th 12-byte slot of [m]. *)
Definition entry_at (m : list byte) (n : Z) : Z * Z :=
  (Uint32 (take 4 (drop (12 * n) m)), Uint64 (take 8 (drop (12 * n + 4) m))).

(** One store entry: the length on 8 bytes, then the payload. *)
Definition frame (p : list byte) : list byte := PutUint64 (uint64 (len p)) ++ p.

Definition frames (ps : list (list byte)) : list byte := flat_map frame ps.

(** The slot [index.Read] looks at: the last one for [-1], else the entry
    number cut to 32 bits. *)
Definition slot_of (i : index.t) (in_ : Z) : Z :=
  if in_ =? -1 then uint32 (uint64 (index.size i / index.entWidth - 1))
  else uint32 in_.

(** The logical prefix lies inside the mapped region, whose length is a
    slice length. *)
Definition index_wf (i : index.t) : Prop :=
  0 <= index.size i <= len (index.mmap i) /\ len (index.mmap i) <= maxInt.

(** The writes of a caller's loop on an index, every outcome kept. *)
Fixpoint WriteAll (i : index.t) (ws : list (Z * Z)) : index.t * list (result unit) :=
  match ws with
  | [] => (i, [])
  | (o, p) :: ws' =>
    let '(i1, r) := index.Write i o p in
    let '(i2, rs) := WriteAll i1 ws' in
    (i2, r :: rs)
  end.

Definition all_ok {A : Type} (rs : list (result A)) : Prop :=
  Forall (fun r => exists a, r = Ok a) rs.

(** The loop of [bufio.Writer.Write] has nothing left to do. *)
Definition settled (b : bufio.Writer) (p : list byte) : Prop :=
  (bufio.Available b <? len p) && is_none (bufio.werr b) = false.

(** The buffered bytes fit the buffer. *)
Definition store_wf (s : store.t) : Prop :=
  len (bufio.wbuf (store.buf s)) <= bufio.defaultBufSize.

(** The payload [p] lies framed at position [q] of the bytes [c]. *)
Definition frame_at (c : list byte) (q : Z) (p : list byte) : Prop :=
  0 <= q /\ q + 8 + len p <= len c /\ take (8 + len p) (drop q c) = frame p.

(** ** What a segment holds

    The predicates below describe a segment by the records appended to it:
    they are the invariants the properties are proved with. *)

Definition empty_Record : api_Record := {| Value := []; Offset := 0 |}.

(** The [k]-th record of [rs] as [Append] marshals it: stamped with its
    offset. *)
Definition stamped (s : segment.t) (rs : list api_Record) (k : Z) : api_Record :=
  set_Offset (nth (Z.to_nat k) rs empty_Record) (uint64 (segment.baseOffset s + k)).

(** Slot [k] of the index holds the relative offset [k] (on 32 bits) and the
    position of the frame of [r] in the store. *)
Definition entry_ok {E : Env} (s : segment.t) (k : Z) (r : api_Record) : Prop :=
  exists p q,
    proto_Marshal r = Ok p
    /\ entry_at (index.mmap (segment.index_ s)) k = (uint32 k, uint64 q)
    /\ frame_at (store.contents (segment.store_ s)) q p.

(** The two files of [s] hold the records [rs], in order. *)
Definition seg_data {E : Env} (s : segment.t) (rs : list api_Record) : Prop :=
  index_wf (segment.index_ s)
  /\ index.size (segment.index_ s) = 12 * len rs
  /\ (0 < int64 (MaxIndexBytes (Segment (segment.config s)))
      /\ len (index.mmap (segment.index_ s))
         = int64 (MaxIndexBytes (Segment (segment.config s))))
  /\ store_wf (segment.store_ s)
  /\ bufio.werr (store.buf (segment.store_ s)) = None
  /\ store.size (segment.store_ s) = uint64 (len (store.contents (segment.store_ s)))
  /\ forall k, 0 <= k < len rs -> entry_ok s k (stamped s rs k).

(** [s] holds [rs] and will give the next record the offset after them. *)
Definition seg_rep {E : Env} (s : segment.t) (rs : list api_Record) : Prop :=
  segment.nextOffset s = uint64 (segment.baseOffset s + len rs) /\ seg_data s rs.

(** The record count of the spec: [nextOffset - baseOffset] against the
    slots of the logical size. *)
Definition count_inv (s : segment.t) : Prop :=
  index_wf (segment.index_ s)
  /\ uint64 (segment.nextOffset s - segment.baseOffset s)
     = index.size (segment.index_ s) / 12.

(** An index file as a segment leaves it: empty, or [N] entries of 12 bytes
    the last of which stores the relative offset [N - 1]. *)
Definition dense_index_file (f : list byte) : Prop :=
  f = [] \/ exists N, 1 <= N /\ len f = 12 * N /\ fst (entry_at f (N - 1)) = N - 1.

(** A run of [Append] calls from one state to another, failed calls
    included; the list holds the records of the calls that returned an
    offset, in order. *)
Inductive run {E : Env} : segment.t -> list api_Record -> segment.t -> Prop :=
| run_done s : run s [] s
| run_Ok s r s1 off rs s2 :
    segment.Append s r = (s1, Ok off) ->
    run s1 rs s2 ->
    run s (r :: rs) s2
| run_failed s r s1 res rs s2 :
    segment.Append s r = (s1, res) ->
    (forall off, res <> Ok off) ->
    run s1 rs s2 ->
    run s rs s2.




(** The two lengths of an index are lengths of files. *)
Definition index_sane (i : index.t) : Prop :=
  0 <= index.size i <= maxInt /\ len (index.mmap i) <= maxInt.

(** ** A test double for the environment

    A fixed-layout codec (the offset on 8 bytes, then the value) and a
    system that accepts every write; [full_disk] refuses every write. *)

Definition fixed_Marshal (r : api_Record) : result (list byte) :=
  Ok (PutUint64 (Offset r) ++ Value r).

Definition fixed_Unmarshal (p : list byte) : result api_Record :=
  if len p <? 8 then Err ErrUnmarshal
  else Ok {| Value := drop 8 p; Offset := Uint64 p |}.

Definition test_env : Env :=
  {| proto_Marshal := fixed_Marshal;
     proto_Unmarshal := fixed_Unmarshal;
     os_accept := fun _ p => length p |}.

Definition full_disk : Env :=
  {| proto_Marshal := fixed_Marshal;
     proto_Unmarshal := fixed_Unmarshal;
     os_accept := fun _ _ => O |}.

Definition bytes_of (l : list Z) : list byte := map byte_of_Z l.

Definition hello : list byte := bytes_of [104; 101; 108; 108; 111].
Definition world : list byte := bytes_of [119; 111; 114; 108; 100].
Definition foo : list byte := bytes_of [102; 111; 111].

Definition no_files : segment.files :=
  {| segment.storeFile := []; segment.indexFile := [] |}.

Definition mkConfig (maxStore maxIndex : Z) : Config :=
  {| Segment := {| MaxStoreBytes := maxStore; MaxIndexBytes := maxIndex |} |}.

(** A small history in the test double, computed once: a segment created
    at base offset 5 with room for three entries, two records appended,
    the segment closed. *)

Definition empty_segment : segment.t :=
  {| segment.store_ := store.newStore [];
     segment.index_ := {| index.mmap := []; index.size := 0 |};
     segment.baseOffset := 0; segment.nextOffset := 0;
     segment.config := mkConfig 0 0 |}.

Definition demo_config : Config := mkConfig 1024 36.

Definition demo_records : list api_Record := [mkRecord hello 0; mkRecord world 0].

Definition demo_s0 : segment.t :=
  Eval vm_compute in
    match segment.newSegment no_files 5 demo_config with
    | Ok s => s
    | _ => empty_segment
    end.

Definition demo_s1 : segment.t :=
  Eval vm_compute in fst (segment.AppendAll (E := test_env) demo_s0 demo_records).

Definition demo_files : segment.files :=
  Eval vm_compute in fst (segment.Close (E := test_env) demo_s1).

(** A second session over [demo_files]: one more record is appended, a
    further [Append] fails at the full index, the segment is closed. *)


Definition demo_s2 : segment.t :=
  Eval vm_compute in
    match segment.newSegment demo_files 5 demo_config with
    | Ok s => s
    | _ => empty_segment
    end.

Definition demo_s3 : segment.t :=
  Eval vm_compute in fst (segment.Append (E := test_env) demo_s2 (mkRecord foo 0)).

Definition demo_s4 : segment.t :=
  Eval vm_compute in fst (segment.Append (E := test_env) demo_s3 (mkRecord hello 0)).


(** The scenario of the spec in the test double: 1024 and 36 bytes, base
    offset 0, three appends. *)

Definition scenario_s0 : segment.t :=
  Eval vm_compute in
    match segment.newSegment no_files 0 (mkConfig 1024 36) with
    | Ok s => s
    | _ => empty_segment
    end.

Definition scenario_s1 : segment.t :=
  Eval vm_compute in fst (segment.Append (E := test_env) scenario_s0 (mkRecord hello 0)).

Definition scenario_s2 : segment.t :=
  Eval vm_compute in fst (segment.Append (E := test_env) scenario_s1 (mkRecord world 0)).

Definition scenario_s3 : segment.t :=
  Eval vm_compute in fst (segment.Append (E := test_env) scenario_s2 (mkRecord foo 0)).

(** What a stop without [Close] leaves of [scenario_s1]: the index file at
    its mapped length, zeros after the one entry, and the store file
    without the bytes still in the buffer. *)
Definition unclean_files : segment.files :=
  Eval vm_compute in
    {| segment.storeFile := store.File (segment.store_ scenario_s1);
       segment.indexFile := index.mmap (segment.index_ scenario_s1) |}.

(** The segment built over these files, and the state after one more
    [Append]. *)
Definition unclean_s0 : segment.t :=
  Eval vm_compute in
    match segment.newSegment unclean_files 0 (mkConfig 1024 36) with
    | Ok s => s
    | _ => empty_segment
    end.

Definition unclean_s1 : segment.t :=
  Eval vm_compute in fst (segment.Append (E := test_env) unclean_s0 (mkRecord world 0)).

(** A segment created at base offset 1 that holds one record. *)

Definition based_s0 : segment.t :=
  Eval vm_compute in
    match segment.newSegment no_files 1 demo_config with
    | Ok s => s
    | _ => empty_segment
    end.

Definition based_s1 : segment.t :=
  Eval vm_compute in fst (segment.Append (E := test_env) based_s0 (mkRecord hello 0)).

(** ** A run of appends on a store *)

(** A caller's loop on a store: the payloads appended one after the other,
    every outcome kept. *)
Fixpoint store_AppendAll {E : Env} (s : store.t) (ps : list (list byte))
  : store.t * list (result (Z * Z)) :=
  match ps with
  | [] => (s, [])
  | p :: ps' =>
    let '(s1, o) := store.Append s p in
    let '(s2, os) := store_AppendAll s1 ps' in
    (s2, o :: os)
  end.

(** The size of a store counts its bytes, buffered ones included, and its
    writer has met no error. *)
Definition store_ok (s : store.t) : Prop :=
  store_wf s
  /\ bufio.werr (store.buf s) = None
  /\ store.size s = len (store.contents s).

(** ** internal/server/log.go: the log kept in memory *)

Module server.
(** [Record] of the package: [Value] and [Offset]. *)
Record Record_ : Set := mkRecord_ { Value : list byte; Offset : Z }.

Inductive error : Set :=
| ErrOffsetNotFound.

(** [Log]: the slice of records.  Every method holds the mutex from its
    first statement to its return, so calls run one at a time. *)
Record Log : Set := { records : list Record_ }.

Definition NewLog : Log := {| records := [] |}.

(** [Append] returns the log, the offset and the error (always [nil]). *)
Definition Append (c : Log) (record : Record_) : Log * Z * option error :=
  let record := {| Value := Value record; Offset := uint64 (len (records c)) |} in
  ({| records := records c ++ [record] |}, Offset record, None).

(** [Read]: [Record{}] and [ErrOffsetNotFound] past the end, else
    [c.records[offset]]. *)
Definition Read (c : Log) (offset : Z) : Record_ * option error :=
  if uint64 (len (records c)) <=? offset
  then ({| Value := []; Offset := 0 |}, Some ErrOffsetNotFound)
  else (nth (Z.to_nat offset) (records c) {| Value := []; Offset := 0 |}, None).

(** A caller's loop: the records appended one after the other, the
    offsets kept. *)
Fixpoint AppendAll (c : Log) (rs : list Record_) : Log * list Z :=
  match rs with
  | [] => (c, [])
  | r :: rs' =>
    let '(c1, off, _) := Append c r in
    let '(c2, offs) := AppendAll c1 rs' in
    (c2, off :: offs)
  end.
End server.

(** * Properties *)

(** ** Integers, bytes, lists *)

Lemma uint64_range z : 0 <= uint64 z < 2 ^ 64.
Proof. unfold uint64. apply Z.mod_pos_bound. lia. Qed.

Lemma uint32_range z : 0 <= uint32 z < 2 ^ 32.
Proof. unfold uint32. apply Z.mod_pos_bound. lia. Qed.

Lemma uint64_id z : 0 <= z < 2 ^ 64 -> uint64 z = z.
Proof. intros. unfold uint64. apply Z.mod_small. lia. Qed.

Lemma uint32_id z : 0 <= z < 2 ^ 32 -> uint32 z = z.
Proof. intros. unfold uint32. apply Z.mod_small. lia. Qed.

Lemma int64_id z : - 2 ^ 63 <= z < 2 ^ 63 -> int64 z = z.
Proof. intros. unfold int64. rewrite Z.mod_small; lia. Qed.

Lemma uint64_uint32 z : uint64 (uint32 z) = uint32 z.
Proof. apply uint64_id. pose proof (uint32_range z). lia. Qed.

Lemma Z_of_byte_range b : 0 <= Z_of_byte b < 256.
Proof.
  unfold Z_of_byte. pose proof (Byte.to_N_bounded b). lia.
Qed.

Lemma Z_of_byte_of_Z z : Z_of_byte (byte_of_Z z) = z mod 256.
Proof.
  unfold Z_of_byte, byte_of_Z.
  assert (Hr : 0 <= z mod 256 < 256) by (apply Z.mod_pos_bound; lia).
  destruct (Byte.of_N (Z.to_N (z mod 256))) as [b|] eqn:Hb.
  - apply Byte.to_of_N in Hb. rewrite Hb. lia.
  - apply Byte.of_N_None_iff in Hb. lia.
Qed.

Lemma byte_of_Z_of_byte b : byte_of_Z (Z_of_byte b) = b.
Proof.
  unfold byte_of_Z. pose proof (Z_of_byte_range b) as Hr.
  rewrite Z.mod_small by lia. unfold Z_of_byte.
  rewrite N2Z.id, Byte.of_to_N. reflexivity.
Qed.

Lemma len_nonneg {A} (l : list A) : 0 <= len l.
Proof. unfold len. lia. Qed.

Lemma len_nil {A} : len (@nil A) = 0.
Proof. reflexivity. Qed.

Lemma len_app {A} (l1 l2 : list A) : len (l1 ++ l2) = len l1 + len l2.
Proof. unfold len. rewrite length_app. lia. Qed.

Lemma len_cons {A} (x : A) l : len (x :: l) = 1 + len l.
Proof. unfold len. simpl length. lia. Qed.

Lemma len_take {A} n (l : list A) : 0 <= n <= len l -> len (take n l) = n.
Proof. unfold len, take. intros. rewrite length_firstn. lia. Qed.

Lemma len_drop {A} n (l : list A) : 0 <= n <= len l -> len (drop n l) = len l - n.
Proof. unfold len, drop. intros. rewrite length_skipn. lia. Qed.

Lemma len_zeros n : 0 <= n -> len (zeros n) = n.
Proof. unfold len, zeros. intros. rewrite repeat_length. lia. Qed.

Lemma len_be_bytes n v : len (be_bytes n v) = Z.of_nat n.
Proof.
  unfold len. f_equal. induction n; simpl; congruence.
Qed.

Lemma take_all {A} n (l : list A) : len l <= n -> take n l = l.
Proof. unfold len, take. intros. apply firstn_all2. lia. Qed.

Lemma take_app_exact {A} (l1 l2 : list A) : take (len l1) (l1 ++ l2) = l1.
Proof.
  unfold take, len. rewrite Nat2Z.id.
  rewrite firstn_app, Nat.sub_diag, firstn_all. simpl. apply app_nil_r.
Qed.

Lemma drop_app_exact {A} (l1 l2 : list A) : drop (len l1) (l1 ++ l2) = l2.
Proof.
  unfold drop, len. rewrite Nat2Z.id.
  rewrite skipn_app, Nat.sub_diag, skipn_all. reflexivity.
Qed.

Lemma take_app_le {A} n (l1 l2 : list A) : n <= len l1 -> take n (l1 ++ l2) = take n l1.
Proof.
  unfold take, len. intros. rewrite firstn_app.
  replace (Z.to_nat n - length l1)%nat with O by lia. simpl. apply app_nil_r.
Qed.

Lemma drop_app_ge {A} n (l1 l2 : list A) :
  len l1 <= n -> drop n (l1 ++ l2) = drop (n - len l1) l2.
Proof.
  unfold drop, len. intros. rewrite skipn_app.
  rewrite skipn_all2 by lia. simpl. f_equal. lia.
Qed.

Lemma drop_app_le {A} n (l1 l2 : list A) :
  0 <= n <= len l1 -> drop n (l1 ++ l2) = drop n l1 ++ l2.
Proof.
  unfold drop, len. intros. rewrite skipn_app.
  replace (Z.to_nat n - length l1)%nat with O by lia. reflexivity.
Qed.

Lemma take_drop_id {A} n (l : list A) : take n l ++ drop n l = l.
Proof. apply firstn_skipn. Qed.

(** ** Big-endian encoding *)

Lemma lor_shiftl_byte acc b :
  0 <= b < 256 -> Z.lor (Z.shiftl acc 8) b = acc * 256 + b.
Proof.
  intros Hb. rewrite Z.shiftl_mul_pow2 by lia. change (2 ^ 8) with 256.
  rewrite <- Z.lxor_lor, <- Z.add_nocarry_lxor; try reflexivity.
  - apply Z.bits_inj'. intros n Hn. rewrite Z.land_spec, Z.bits_0.
    destruct (Z.ltb_spec n 8).
    + change 256 with (2 ^ 8). rewrite Z.mul_pow2_bits_low by lia. reflexivity.
    + replace b with (b mod 2 ^ 8) by (apply Z.mod_small; simpl; lia).
      rewrite Z.mod_pow2_bits_high by lia. apply andb_false_r.
  - apply Z.bits_inj'. intros n Hn. rewrite Z.land_spec, Z.bits_0.
    destruct (Z.ltb_spec n 8).
    + change 256 with (2 ^ 8). rewrite Z.mul_pow2_bits_low by lia. reflexivity.
    + replace b with (b mod 2 ^ 8) by (apply Z.mod_small; simpl; lia).
      rewrite Z.mod_pow2_bits_high by lia. apply andb_false_r.
Qed.

Lemma be_value_snoc bs b : be_value (bs ++ [b]) = be_value bs * 256 + Z_of_byte b.
Proof.
  unfold be_value. rewrite fold_left_app. simpl.
  apply lor_shiftl_byte, Z_of_byte_range.
Qed.

Lemma be_value_fold acc bs :
  fold_left (fun a b => Z.lor (Z.shiftl a 8) (Z_of_byte b)) bs acc
  = acc * 256 ^ len bs + be_value bs.
Proof.
  revert acc. induction bs as [|b bs IH] using rev_ind; intros acc.
  - unfold be_value, len. simpl. lia.
  - rewrite fold_left_app. cbn [fold_left]. rewrite IH, be_value_snoc, len_app.
    rewrite lor_shiftl_byte by apply Z_of_byte_range.
    rewrite Z.pow_add_r by (try apply len_nonneg; unfold len; simpl; lia).
    change (len [b]) with 1. lia.
Qed.

Lemma be_value_cons b bs : be_value (b :: bs) = Z_of_byte b * 256 ^ len bs + be_value bs.
Proof.
  unfold be_value at 1. cbn [fold_left]. rewrite be_value_fold.
  rewrite Z.shiftl_0_l, Z.lor_0_l. reflexivity.
Qed.

Lemma be_value_range bs : 0 <= be_value bs < 256 ^ len bs.
Proof.
  induction bs as [|b bs IH].
  - unfold be_value, len. simpl. lia.
  - rewrite be_value_cons, len_cons.
    pose proof (Z_of_byte_range b). pose proof (len_nonneg bs).
    rewrite Z.pow_add_r by lia. nia.
Qed.

Lemma be_value_be_bytes n v : be_value (be_bytes n v) = v mod 256 ^ Z.of_nat n.
Proof.
  induction n as [|n IH].
  - simpl. unfold be_value. simpl. rewrite Z.mod_1_r. reflexivity.
  - cbn [be_bytes]. rewrite be_value_cons, IH, len_be_bytes, Z_of_byte_of_Z.
    rewrite Z.shiftr_div_pow2 by lia.
    replace (2 ^ (8 * Z.of_nat n)) with (256 ^ Z.of_nat n)
      by (rewrite Z.pow_mul_r by lia; reflexivity).
    rewrite Nat2Z.inj_succ, Z.pow_succ_r by lia.
    assert (Hp : 0 < 256 ^ Z.of_nat n) by (apply Z.pow_pos_nonneg; lia).
    rewrite (Z.mul_comm 256), Z.rem_mul_r by lia. lia.
Qed.

Lemma Uint32_PutUint32 v : Uint32 (PutUint32 v) = uint32 v.
Proof.
  unfold Uint32, PutUint32. rewrite take_all by (rewrite len_be_bytes; simpl; lia).
  rewrite be_value_be_bytes. reflexivity.
Qed.

Lemma Uint64_PutUint64 v : Uint64 (PutUint64 v) = uint64 v.
Proof.
  unfold Uint64, PutUint64. rewrite take_all by (rewrite len_be_bytes; simpl; lia).
  rewrite be_value_be_bytes. reflexivity.
Qed.

Lemma Uint64_PutUint64_app v l : Uint64 (PutUint64 v ++ l) = uint64 v.
Proof.
  unfold Uint64. change 8 with (len (PutUint64 v)) at 1.
  - rewrite take_app_exact. unfold PutUint64. rewrite be_value_be_bytes. reflexivity.
Qed.

(** ** Slices *)

Lemma slice_in_range m lo hi :
  0 <= lo -> lo <= hi -> hi <= len m -> slice m lo hi = Some (take (hi - lo) (drop lo m)).
Proof.
  intros. unfold slice.
  destruct (Z.leb_spec 0 lo), (Z.leb_spec lo hi), (Z.leb_spec hi (len m)); simpl; try lia.
  reflexivity.
Qed.

Lemma slice_put_in_range m lo hi bs :
  0 <= lo -> lo <= hi -> hi <= len m ->
  slice_put m lo hi bs = Some (take lo m ++ bs ++ drop hi m).
Proof.
  intros. unfold slice_put.
  destruct (Z.leb_spec 0 lo), (Z.leb_spec lo hi), (Z.leb_spec hi (len m)); simpl; try lia.
  reflexivity.
Qed.

Lemma slice_put_out_of_range m lo hi bs :
  len m < hi -> slice_put m lo hi bs = None.
Proof.
  intros. unfold slice_put.
  destruct (Z.leb_spec hi (len m)); try lia. rewrite andb_false_r. reflexivity.
Qed.

Lemma len_entry w : len (entry w) = 12.
Proof. unfold entry, PutUint32, PutUint64. rewrite len_app, !len_be_bytes. reflexivity. Qed.

Lemma entries_app ws1 ws2 : entries (ws1 ++ ws2) = entries ws1 ++ entries ws2.
Proof. apply flat_map_app. Qed.

Lemma len_entries ws : len (entries ws) = 12 * len ws.
Proof.
  induction ws as [|w ws IH]; [reflexivity|].
  unfold entries in *. cbn [flat_map]. rewrite len_app, IH, len_entry, len_cons. lia.
Qed.

Lemma drop_drop {A} a b (l : list A) : 0 <= a -> 0 <= b -> drop a (drop b l) = drop (b + a) l.
Proof.
  intros. unfold drop. rewrite skipn_skipn. f_equal. lia.
Qed.

Lemma take_take {A} a b (l : list A) : 0 <= a <= b -> take a (take b l) = take a l.
Proof.
  intros. unfold take. rewrite firstn_firstn. f_equal. lia.
Qed.

Lemma drop_0 {A} (l : list A) : drop 0 l = l.
Proof. reflexivity. Qed.

Lemma entry_at_entry w rest :
  entry_at (entry w ++ rest) 0 = (uint32 (fst w), uint64 (snd w)).
Proof.
  unfold entry_at, entry. change (12 * 0) with 0. rewrite drop_0.
  change (0 + 4) with (len (PutUint32 (fst w))).
  rewrite <- app_assoc, drop_app_exact.
  change 4 with (len (PutUint32 (fst w))). rewrite take_app_exact.
  change 8 with (len (PutUint64 (snd w))). rewrite take_app_exact.
  rewrite Uint32_PutUint32, Uint64_PutUint64. reflexivity.
Qed.

Lemma entry_at_shift pre m n :
  0 <= n -> len pre = 12 * n ->
  forall k, 0 <= k -> entry_at (pre ++ m) (n + k) = entry_at m k.
Proof.
  intros Hn Hpre k Hk. unfold entry_at.
  rewrite !drop_app_ge by lia.
  replace (12 * (n + k) - len pre) with (12 * k) by lia.
  replace (12 * (n + k) + 4 - len pre) with (12 * k + 4) by lia.
  reflexivity.
Qed.

Lemma entry_at_prefix m m' n :
  0 <= n -> 12 * (n + 1) <= len m -> entry_at (m ++ m') n = entry_at m n.
Proof.
  intros Hn Hm. unfold entry_at.
  rewrite !drop_app_le by lia.
  rewrite !take_app_le; try reflexivity; rewrite len_drop; lia.
Qed.

(** The [k]-th slot of a run of entries holds the [k]-th pair. *)
Lemma entry_at_entries ws rest k :
  0 <= k < len ws ->
  entry_at (entries ws ++ rest) k
  = (uint32 (fst (nth (Z.to_nat k) ws (0, 0))), uint64 (snd (nth (Z.to_nat k) ws (0, 0)))).
Proof.
  revert k. induction ws as [|w ws IH]; intros k Hk.
  - unfold len in Hk. simpl in Hk. lia.
  - rewrite len_cons in Hk. unfold entries in *. cbn [flat_map]. rewrite <- app_assoc.
    destruct (Z.eq_dec k 0) as [->|Hk0].
    + rewrite entry_at_entry. reflexivity.
    + replace k with (1 + (k - 1)) at 1 by lia.
      rewrite entry_at_shift by (rewrite ?len_entry; lia).
      rewrite IH by lia.
      replace (Z.to_nat k) with (S (Z.to_nat (k - 1))) by lia. reflexivity.
Qed.

(** ** The index *)

Ltac unfold_widths := unfold index.entWidth, index.offWidth, index.posWidth in *.

(** Splits an equation between pairs without computing in its sides. *)
Ltac split_pair H :=
  let H1 := fresh H "l" in
  let H2 := fresh H "r" in
  pose proof (f_equal fst H) as H1;
  pose proof (f_equal snd H) as H2;
  cbn [fst snd] in H1, H2; clear H.

Lemma index_Read_ok i n :
  index.size i <> 0 ->
  12 * (slot_of i n + 1) <= index.size i ->
  index.size i <= len (index.mmap i) ->
  index.Read i n = Ok (entry_at (index.mmap i) (slot_of i n)).
Proof.
  intros Hs Hslot Hm. unfold index.Read.
  destruct (Z.eqb_spec (index.size i) 0); [contradiction|].
  fold (slot_of i n). set (k := slot_of i n) in *.
  assert (Hk : 0 <= k < 2 ^ 32).
  { subst k. unfold slot_of. destruct (n =? -1); apply uint32_range. }
  unfold_widths. change (4 + 8) with 12.
  rewrite (uint64_id (k * 12)) by lia.
  rewrite (uint64_id (k * 12 + 12)), (uint64_id (k * 12 + 4)) by lia.
  destruct (Z.ltb_spec (index.size i) (k * 12 + 12)); [lia|].
  rewrite !slice_in_range by lia.
  unfold entry_at.
  replace (k * 12 + 4 - k * 12) with 4 by lia.
  replace (k * 12 + 12 - (k * 12 + 4)) with 8 by lia.
  replace (12 * k) with (k * 12) by lia.
  unfold Uint32, Uint64. rewrite !take_take by lia. reflexivity.
Qed.

Lemma index_Read_eof i n :
  index.size i = 0 \/ index.size i < 12 * (slot_of i n + 1) ->
  index.Read i n = Err io_EOF.
Proof.
  intros H. unfold index.Read.
  destruct (Z.eqb_spec (index.size i) 0); [reflexivity|].
  destruct H as [H|H]; [contradiction|].
  fold (slot_of i n). set (k := slot_of i n) in *.
  assert (Hk : 0 <= k < 2 ^ 32).
  { subst k. unfold slot_of. destruct (n =? -1); apply uint32_range. }
  unfold_widths. change (4 + 8) with 12.
  rewrite (uint64_id (k * 12)) by lia.
  rewrite (uint64_id (k * 12 + 12)) by lia.
  destruct (Z.ltb_spec (index.size i) (k * 12 + 12)); [reflexivity|lia].
Qed.

Lemma index_isMaxed_iff i :
  index_wf i -> index.isMaxed i = true <-> len (index.mmap i) < index.size i + 12.
Proof.
  intros [Hs Hm]. unfold index.isMaxed, maxInt in *. unfold_widths. change (4 + 8) with 12.
  rewrite !uint64_id by lia. apply Z.ltb_lt.
Qed.

Lemma index_Write_ok i o p :
  index_wf i -> index.size i + 12 <= len (index.mmap i) ->
  index.Write i o p
  = ({| index.mmap := take (index.size i) (index.mmap i) ++ entry (o, p)
                      ++ drop (index.size i + 12) (index.mmap i);
        index.size := index.size i + 12 |}, Ok tt).
Proof.
  intros Hwf Hfit. pose proof Hwf as [Hs Hm]. unfold maxInt in Hm.
  unfold index.Write.
  destruct (index.isMaxed i) eqn:Hmax.
  { apply index_isMaxed_iff in Hmax; [lia|assumption]. }
  unfold_widths. change (4 + 8) with 12.
  rewrite (uint64_id (index.size i + 4)), (uint64_id (index.size i + 12)) by lia.
  rewrite slice_put_in_range by lia.
  set (m1 := take (index.size i) (index.mmap i) ++ PutUint32 o ++ drop (index.size i + 4) (index.mmap i)).
  assert (Hlen1 : len m1 = len (index.mmap i)).
  { subst m1. rewrite !len_app, len_take, len_drop by lia.
    unfold PutUint32. rewrite len_be_bytes. simpl Z.of_nat. lia. }
  rewrite slice_put_in_range by lia.
  f_equal. f_equal.
  assert (Hm1 : m1 = (take (index.size i) (index.mmap i) ++ PutUint32 o)
                     ++ drop (index.size i + 4) (index.mmap i))
    by (subst m1; apply app_assoc).
  clearbody m1. subst m1. unfold entry. cbn [fst snd].
  assert (Ht : len (take (index.size i) (index.mmap i)) = index.size i)
    by (apply len_take; lia).
  assert (Hp : len (PutUint32 o) = 4) by (unfold PutUint32; apply len_be_bytes).
  rewrite take_app_le by (rewrite len_app; lia).
  rewrite (take_all (index.size i + 4)) by (rewrite len_app; lia).
  rewrite drop_app_ge by (rewrite len_app; lia).
  rewrite len_app, Ht, Hp, drop_drop by lia.
  replace (index.size i + 4 + (index.size i + 12 - (index.size i + 4)))
    with (index.size i + 12) by lia.
  rewrite <- !app_assoc. reflexivity.
Qed.

Lemma index_Write_full i o p :
  index_wf i -> len (index.mmap i) < index.size i + 12 ->
  index.Write i o p = (i, Err io_EOF).
Proof.
  intros Hwf Hfull. unfold index.Write.
  apply (index_isMaxed_iff i Hwf) in Hfull. rewrite Hfull. reflexivity.
Qed.

(** A write that returns an error returns [io.EOF] and leaves the index as
    it was. *)
Lemma index_Write_error i o p i' e :
  index.Write i o p = (i', Err e) -> i' = i /\ e = io_EOF.
Proof.
  unfold index.Write. destruct (index.isMaxed i).
  - intros H. inversion H. auto.
  - destruct (slice_put _ _ _ _); [|discriminate].
    destruct (slice_put _ _ _ _); discriminate.
Qed.

Lemma index_Write_wf i o p i' r :
  index_wf i -> index.Write i o p = (i', r) -> index_wf i'.
Proof.
  intros Hwf H. pose proof Hwf as [Hs Hm].
  destruct (Z.le_gt_cases (index.size i + 12) (len (index.mmap i))) as [Hfit|Hfull].
  - rewrite index_Write_ok in H by assumption. split_pair H. subst i'.
    unfold index_wf. cbn [index.size index.mmap].
    rewrite !len_app, len_take, len_entry, len_drop by lia. lia.
  - rewrite index_Write_full in H by (assumption || lia). split_pair H. subst i'. assumption.
Qed.

Lemma os_Truncate_ok f n :
  0 <= n -> os.Truncate f n = Ok (take n f ++ zeros (n - len f)).
Proof.
  intros. unfold os.Truncate. destruct (Z.ltb_spec n 0); [lia|reflexivity].
Qed.

Lemma len_Truncate f n : 0 <= n -> len (take n f ++ zeros (n - len f)) = n.
Proof.
  intros Hn. rewrite len_app. pose proof (len_nonneg f).
  destruct (Z.le_gt_cases n (len f)).
  - rewrite len_take by lia. unfold zeros. replace (Z.to_nat (n - len f)) with O by lia.
    simpl. unfold len. simpl. lia.
  - rewrite take_all by lia. rewrite len_zeros by lia. lia.
Qed.

Lemma int64_range z : - 2 ^ 63 <= int64 z < 2 ^ 63.
Proof.
  unfold int64. pose proof (Z.mod_pos_bound (z + 2 ^ 63) (2 ^ 64)). lia.
Qed.

(** What [newIndex] builds, when it builds an index. *)
Lemma newIndex_Ok f c i :
  index.newIndex f c = Ok i ->
  let M := int64 (MaxIndexBytes (Segment c)) in
  0 < M /\ index.mmap i = take M f ++ zeros (M - len f)
  /\ index.size i = uint64 (len f) /\ len (index.mmap i) = M.
Proof.
  intros H M. unfold index.newIndex, os.Truncate in H. fold M in H.
  destruct (Z.ltb_spec M 0); [discriminate|].
  destruct (Z.eqb_spec (len (take M f ++ zeros (M - len f))) 0) as [E|E]; [discriminate|].
  rewrite len_Truncate in E by lia.
  assert (Hi : i = {| index.mmap := take M f ++ zeros (M - len f);
                      index.size := uint64 (len f) |}) by congruence.
  subst i. cbn [index.mmap index.size]. rewrite len_Truncate by lia.
  repeat split; lia.
Qed.

Lemma newIndex_fresh c :
  0 < MaxIndexBytes (Segment c) <= maxInt ->
  index.newIndex [] c
  = Ok {| index.mmap := zeros (MaxIndexBytes (Segment c)); index.size := 0 |}.
Proof.
  intros HM. unfold maxInt in HM. unfold index.newIndex.
  rewrite int64_id by lia. rewrite os_Truncate_ok by lia.
  rewrite len_Truncate by lia.
  destruct (Z.eqb_spec (MaxIndexBytes (Segment c)) 0); [lia|].
  unfold take. rewrite firstn_nil. change (len (@nil byte)) with 0.
  rewrite Z.sub_0_r. reflexivity.
Qed.

Lemma newIndex_wf f c i :
  len f <= int64 (MaxIndexBytes (Segment c)) -> index.newIndex f c = Ok i -> index_wf i.
Proof.
  intros Hf H. apply newIndex_Ok in H. destruct H as (HM & _ & Hs & Hl).
  pose proof (int64_range (MaxIndexBytes (Segment c))). pose proof (len_nonneg f).
  unfold index_wf, maxInt. rewrite Hs, Hl, uint64_id by lia. lia.
Qed.

(** What [newIndex] builds when [MaxIndexBytes] is positive. *)
Lemma newIndex_positive f c :
  0 < int64 (MaxIndexBytes (Segment c)) ->
  index.newIndex f c
  = Ok {| index.mmap := take (int64 (MaxIndexBytes (Segment c))) f
                        ++ zeros (int64 (MaxIndexBytes (Segment c)) - len f);
          index.size := uint64 (len f) |}.
Proof.
  intros HM. unfold index.newIndex. rewrite os_Truncate_ok by lia.
  rewrite len_Truncate by lia.
  destruct (Z.eqb_spec (int64 (MaxIndexBytes (Segment c))) 0); [lia|reflexivity].
Qed.

(** The state of an index after a run of writes that all succeeded. *)
Lemma WriteAll_all_ok ws : forall i i' outs,
  index_wf i -> WriteAll i ws = (i', outs) -> all_ok outs ->
  index.mmap i' = take (index.size i) (index.mmap i) ++ entries ws
                  ++ drop (index.size i + 12 * len ws) (index.mmap i)
  /\ index.size i' = index.size i + 12 * len ws
  /\ index_wf i'.
Proof.
  induction ws as [|[o p] ws IH]; intros i i' outs Hwf H Hok.
  - cbn [WriteAll] in H. split_pair H. subst i'. change (len (@nil (Z * Z))) with 0.
    rewrite Z.mul_0_r, Z.add_0_r. cbn [entries flat_map app].
    rewrite take_drop_id. auto.
  - cbn [WriteAll] in H.
    destruct (index.Write i o p) as [i1 r] eqn:Hw.
    destruct (WriteAll i1 ws) as [i2 rs] eqn:Hws.
    split_pair H. subst i' outs. inversion Hok as [|? ? [a ->] Hok']; subst.
    pose proof Hwf as [Hs Hm].
    destruct (Z.le_gt_cases (index.size i + 12) (len (index.mmap i))) as [Hfit|Hfull];
      [|rewrite index_Write_full in Hw by (assumption || lia); discriminate].
    pose proof (index_Write_wf _ _ _ _ _ Hwf Hw) as Hwf1.
    rewrite index_Write_ok in Hw by assumption. split_pair Hw. subst i1.
    destruct (IH _ _ _ Hwf1 Hws Hok') as (Hm2 & Hs2 & Hwf2).
    cbn [index.mmap index.size] in Hm2, Hs2.
    pose proof (len_nonneg ws).
    rewrite len_cons. split; [|split; [lia|assumption]].
    rewrite Hm2.
    assert (Ht : len (take (index.size i) (index.mmap i)) = index.size i)
      by (apply len_take; lia).
    rewrite (app_assoc (take _ _) (entry _)).
    rewrite take_app_le by (rewrite len_app, len_entry; lia).
    rewrite (take_all (index.size i + 12)) by (rewrite len_app, len_entry; lia).
    rewrite drop_app_ge by (rewrite len_app, len_entry; lia).
    rewrite len_app, len_entry, Ht, drop_drop by lia.
    unfold entries. cbn [flat_map]. rewrite <- !app_assoc.
    do 3 f_equal. f_equal. lia.
Qed.

(** Writes succeed as long as the mapped region has room. *)
Lemma WriteAll_fits ws : forall i,
  index_wf i -> index.size i + 12 * len ws <= len (index.mmap i) ->
  exists i', WriteAll i ws = (i', repeat (Ok tt) (length ws)).
Proof.
  induction ws as [|[o p] ws IH]; intros i Hwf Hfit.
  - exists i. reflexivity.
  - rewrite len_cons in Hfit. pose proof (len_nonneg ws).
    cbn [WriteAll]. destruct (index.Write i o p) as [i1 r] eqn:Hw.
    pose proof (index_Write_wf _ _ _ _ _ Hwf Hw) as Hwf1.
    rewrite index_Write_ok in Hw by (assumption || lia). split_pair Hw. subst i1 r.
    destruct (IH _ Hwf1) as [i' Hi'].
    + cbn [index.mmap index.size]. pose proof Hwf as [Hs Hm].
      rewrite !len_app, len_take, len_entry, len_drop by lia. lia.
    + rewrite Hi'. exists i'. reflexivity.
Qed.

Lemma all_ok_repeat {A} (a : A) n : all_ok (repeat (Ok a) n).
Proof.
  unfold all_ok. apply Forall_forall. intros r Hr. apply repeat_spec in Hr. eauto.
Qed.

Lemma slot_entries ws rest k :
  0 <= k < len ws ->
  take 12 (drop (12 * k) (entries ws ++ rest)) = entry (nth (Z.to_nat k) ws (0, 0)).
Proof.
  revert k. induction ws as [|w ws IH]; intros k Hk.
  - unfold len in Hk. simpl in Hk. lia.
  - rewrite len_cons in Hk. unfold entries in *. cbn [flat_map]. rewrite <- app_assoc.
    destruct (Z.eq_dec k 0) as [->|Hk0].
    + change (12 * 0) with 0. rewrite drop_0.
      rewrite <- (len_entry w). apply take_app_exact.
    + rewrite drop_app_ge by (rewrite len_entry; lia).
      rewrite len_entry. replace (12 * k - 12) with (12 * (k - 1)) by lia.
      rewrite IH by lia.
      replace (Z.to_nat k) with (S (Z.to_nat (k - 1))) by lia. reflexivity.
Qed.

Lemma slot_of_entry i k : 0 <= k < 2 ^ 32 -> slot_of i k = k.
Proof.
  intros Hk. unfold slot_of. destruct (Z.eqb_spec k (-1)); [lia|]. apply uint32_id. lia.
Qed.

Lemma nth_in_range (ws : list (Z * Z)) k :
  Forall (fun w => is_uint32 (fst w) /\ is_uint64 (snd w)) ws ->
  0 <= k < len ws ->
  (uint32 (fst (nth (Z.to_nat k) ws (0, 0))), uint64 (snd (nth (Z.to_nat k) ws (0, 0))))
  = nth (Z.to_nat k) ws (0, 0).
Proof.
  intros Hall Hk. rewrite Forall_forall in Hall.
  destruct (Hall (nth (Z.to_nat k) ws (0, 0))) as [Ho Hp].
  { apply nth_In. unfold len in Hk. lia. }
  unfold is_uint32, is_uint64 in *.
  rewrite uint32_id, uint64_id by lia. destruct (nth _ ws _); reflexivity.
Qed.

(** *** C10: what was written to a fresh index is read back *)

(** C10 (as amended).  On a fresh index, after a run of [Write] calls that
    all succeeded, [Read k] returns the [k]-th pair as it was given, for
    every [0 <= k < m] below [2^32]; the pair lies verbatim in the 12 bytes
    at [12 * k]; and a [Write] that fails returns [io.EOF] and leaves the
    size and the mapped bytes as they were. *)
Theorem C10_index_round_trip :
  forall c i0 ws i outs,
    index.newIndex [] c = Ok i0 ->
    WriteAll i0 ws = (i, outs) ->
    all_ok outs ->
    Forall (fun w => is_uint32 (fst w) /\ is_uint64 (snd w)) ws ->
    (forall k, 0 <= k < len ws -> k < 2 ^ 32 ->
       index.Read i k = Ok (nth (Z.to_nat k) ws (0, 0))
       /\ slice (index.mmap i) (12 * k) (12 * k + 12)
          = Some (entry (nth (Z.to_nat k) ws (0, 0))))
    /\ (forall o p i' e, index.Write i o p = (i', Err e) -> e = io_EOF /\ i' = i).
Proof.
  intros c i0 ws i outs Hnew Hrun Hok Hrange.
  assert (Hwf0 : index_wf i0).
  { apply (newIndex_wf [] c); [|assumption].
    apply newIndex_Ok in Hnew. change (len (@nil byte)) with 0. lia. }
  assert (Hs0 : index.size i0 = 0) by (apply newIndex_Ok in Hnew; apply Hnew).
  destruct (WriteAll_all_ok ws _ _ _ Hwf0 Hrun Hok) as (Hm & Hs & Hwf).
  rewrite Hs0 in Hm, Hs. change (take 0 (index.mmap i0)) with (@nil byte) in Hm.
  cbn [app] in Hm. rewrite Z.add_0_l in Hm, Hs.
  split.
  - intros k Hk Hk32. destruct Hwf as [Hsz Hmax]. split.
    + rewrite index_Read_ok; rewrite ?slot_of_entry; try lia.
      rewrite Hm, entry_at_entries by lia. f_equal. apply nth_in_range; assumption.
    + rewrite slice_in_range by lia.
      replace (12 * k + 12 - 12 * k) with 12 by lia.
      rewrite Hm, slot_entries by lia. reflexivity.
  - intros o p i' e Hw. apply index_Write_error in Hw. tauto.
Qed.

Lemma C10_index_round_trip_witness :
  index.Read (fst (WriteAll {| index.mmap := zeros 36; index.size := 0 |}
                            [(0, 0); (1, 13); (2, 21)])) 1
  = Ok (1, 13).
Proof.
  refine (proj1 (proj1 (C10_index_round_trip (mkConfig 1024 36) _ [(0, 0); (1, 13); (2, 21)]
                          _ _ _ _ _ _) 1 _ _)).
  - reflexivity.
  - vm_compute. reflexivity.
  - repeat constructor; eexists; reflexivity.
  - unfold is_uint32, is_uint64. repeat constructor; cbn; lia.
  - vm_compute. split; [discriminate|reflexivity].
  - reflexivity.
Defined.

Lemma index_run_from_fresh c ws :
  0 < MaxIndexBytes (Segment c) <= maxInt ->
  12 * len ws <= MaxIndexBytes (Segment c) ->
  exists i,
    WriteAll {| index.mmap := zeros (MaxIndexBytes (Segment c)); index.size := 0 |} ws
    = (i, repeat (Ok tt) (length ws))
    /\ index.mmap i = entries ws ++ drop (12 * len ws) (zeros (MaxIndexBytes (Segment c)))
    /\ index.size i = 12 * len ws
    /\ index_wf i.
Proof.
  intros HM Hfit.
  set (i0 := {| index.mmap := zeros (MaxIndexBytes (Segment c)); index.size := 0 |}).
  assert (Hwf0 : index_wf i0).
  { unfold index_wf, i0. cbn [index.mmap index.size]. rewrite len_zeros by lia. lia. }
  destruct (WriteAll_fits ws i0 Hwf0) as [i Hi].
  { unfold i0. cbn [index.mmap index.size]. rewrite len_zeros by lia. lia. }
  exists i. split; [assumption|].
  destruct (WriteAll_all_ok ws _ _ _ Hwf0 Hi (all_ok_repeat tt _)) as (Hm & Hs & Hwf).
  unfold i0 in Hm, Hs. cbn [index.mmap index.size] in Hm, Hs.
  rewrite Z.add_0_l in Hm, Hs. auto.
Qed.

(** C10, as stated, fails on an index mapped over [12 * (2^32 + 1)] bytes:
    after [2^32 + 1] successful writes, the last of them [(1, 1)] and the
    others [(0, 0)], [Read (2^32)] returns entry 0, the pair [(0, 0)]. *)
Lemma C10_counterexample :
  let c := mkConfig 1024 51539607564 in
  let ws := repeat (0, 0) (Z.to_nat 4294967296) ++ [(1, 1)] in
  exists i0 i outs,
    index.newIndex [] c = Ok i0
    /\ WriteAll i0 ws = (i, outs)
    /\ all_ok outs
    /\ Forall (fun w => is_uint32 (fst w) /\ is_uint64 (snd w)) ws
    /\ 0 <= 4294967296 < len ws
    /\ nth (Z.to_nat 4294967296) ws (0, 0) = (1, 1)
    /\ index.Read i 4294967296 = Ok (0, 0).
Proof.
  intros c ws. subst ws.
  remember (Z.to_nat 4294967296) as N eqn:HN.
  assert (HN' : Z.of_nat N = 4294967296) by (subst N; apply Z2Nat.id; lia).
  clear HN.
  set (ws := repeat (0, 0) N ++ [(1, 1)]).
  assert (Hlen : len ws = 4294967297).
  { unfold ws, len. rewrite length_app, repeat_length. simpl length. lia. }
  assert (HM : MaxIndexBytes (Segment c) = 51539607564) by reflexivity.
  destruct (index_run_from_fresh c ws) as (i & Hrun & Hm & Hs & Hwf).
  { rewrite HM. unfold maxInt. lia. }
  { rewrite HM, Hlen. lia. }
  exists {| index.mmap := zeros (MaxIndexBytes (Segment c)); index.size := 0 |}, i,
         (repeat (Ok tt) (length ws)).
  split; [apply newIndex_fresh; rewrite HM; unfold maxInt; lia|].
  split; [exact Hrun|].
  split; [apply all_ok_repeat|].
  split.
  { apply Forall_app. split.
    - apply Forall_forall. intros w Hw. apply repeat_spec in Hw. subst w.
      unfold is_uint32, is_uint64. cbn [fst snd]. lia.
    - constructor; [|constructor]. unfold is_uint32, is_uint64. cbn [fst snd]. lia. }
  split; [lia|].
  split.
  { unfold ws.
    rewrite app_nth2 by (rewrite repeat_length; lia).
    rewrite repeat_length, Nat.sub_diag. reflexivity. }
  assert (Hslot : slot_of i 4294967296 = 0) by reflexivity.
  rewrite index_Read_ok; rewrite ?Hslot; try lia.
  - rewrite Hm, entry_at_entries by lia.
    change (Z.to_nat 0) with O.
    assert (Hnth : nth O ws (0, 0) = (0, 0)).
    { unfold ws. destruct N; [lia|]. reflexivity. }
    rewrite Hnth. reflexivity.
  - destruct Hwf. lia.
Qed.

(** ** The buffered writer *)

Section Writer_properties.
Context {E : Env}.

Lemma os_Write_spec f p f' n err :
  os.Write f p = (f', n, err) ->
  f' = f ++ firstn n p /\ (n <= length p)%nat
  /\ (err = None -> n = length p) /\ (n = length p -> err = None).
Proof.
  unfold os.Write. intros H.
  set (m := Nat.min (os_accept f p) (length p)) in *.
  assert (Hm : (m <= length p)%nat) by (subst m; lia).
  destruct (Nat.ltb_spec m (length p)); inversion H; subst; repeat split;
    try congruence; try lia.
Qed.

(** [Flush] moves bytes from the buffer to the file and loses none. *)
Lemma Flush_spec f b f' b' err :
  bufio.Flush f b = (f', b', err) ->
  f' ++ bufio.wbuf b' = f ++ bufio.wbuf b
  /\ bufio.werr b' = err
  /\ len (bufio.wbuf b') <= len (bufio.wbuf b)
  /\ (err = None -> bufio.wbuf b' = [] /\ bufio.werr b = None).
Proof.
  unfold bufio.Flush. destruct (bufio.werr b) as [e|] eqn:He.
  - intros H. inversion H; subst. repeat split; auto; try lia. discriminate.
  - destruct (bufio.wbuf b) as [|x l] eqn:Hb.
    + intros H. inversion H; subst. rewrite Hb. repeat split; auto; lia.
    + destruct (os.Write f (x :: l)) as [[f1 n] err1] eqn:Hw.
      apply os_Write_spec in Hw. destruct Hw as (Hf & Hn & Hnone & Hfull).
      destruct err1 as [e|]; intros H; inversion H; subst; cbn [bufio.wbuf bufio.werr].
      * repeat split; try discriminate.
        -- rewrite <- app_assoc, firstn_skipn. reflexivity.
        -- unfold len. rewrite length_skipn. lia.
      * rewrite (Hnone eq_refl), firstn_all, app_nil_r.
        repeat split; auto. unfold len. simpl. lia.
Qed.

(** The loop keeps the bytes (file, buffer, rest of [p]) and the count. *)
Lemma Write_loop_spec fuel : forall f b p nn f' b' p' nn',
  bufio.Write_loop fuel f b p nn = (f', b', p', nn') ->
  f' ++ bufio.wbuf b' ++ p' = f ++ bufio.wbuf b ++ p
  /\ nn' + len p' = nn + len p
  /\ (bufio.werr b' = None -> bufio.werr b = None)
  /\ (len (bufio.wbuf b) <= bufio.defaultBufSize ->
      len (bufio.wbuf b') <= bufio.defaultBufSize).
Proof.
  induction fuel as [|fuel IH]; intros f b p nn f' b' p' nn' H; cbn [bufio.Write_loop] in H.
  - destruct (_ && _); inversion H; subst; auto.
  - destruct ((bufio.Available b <? len p) && is_none (bufio.werr b)) eqn:Hc;
      [|inversion H; subst; auto].
    apply andb_prop in Hc. destruct Hc as [Hav Herr]. apply Z.ltb_lt in Hav.
    assert (Hnone : bufio.werr b = None) by (destruct (bufio.werr b); [discriminate|reflexivity]).
    destruct (bufio.wbuf b) as [|x l] eqn:Hb.
    + destruct (os.Write f p) as [[f1 n] err1] eqn:Hw.
      apply os_Write_spec in Hw. destruct Hw as (Hf & Hn & _).
      apply IH in H. cbn [bufio.wbuf bufio.werr] in H.
      destruct H as (Hbytes & Hcount & _ & Hcap). subst f1.
      split; [|split; [|split]].
      * rewrite Hbytes. cbn [app]. rewrite <- app_assoc, firstn_skipn. reflexivity.
      * rewrite Hcount. unfold len. rewrite length_skipn. lia.
      * auto.
      * intros _. apply Hcap. unfold len, bufio.defaultBufSize. simpl. lia.
    + set (n := Nat.min (Z.to_nat (bufio.Available b)) (length p)) in *.
      destruct (bufio.Flush f {| bufio.wbuf := (x :: l) ++ firstn n p; bufio.werr := bufio.werr b |})
        as [[f1 b1] err1] eqn:Hfl.
      apply Flush_spec in Hfl. cbn [bufio.wbuf bufio.werr] in Hfl.
      destruct Hfl as (Hbytes1 & _ & Hlen1 & _).
      apply IH in H. destruct H as (Hbytes & Hcount & _ & Hcap).
      split; [|split; [|split]].
      * rewrite Hbytes, app_assoc, Hbytes1, <- !app_assoc, firstn_skipn. reflexivity.
      * rewrite Hcount. unfold len. rewrite length_skipn. lia.
      * auto.
      * intros Hle. apply Hcap.
        assert (Hn : (n <= Z.to_nat (bufio.Available b))%nat) by (subst n; lia).
        unfold bufio.Available in Hn. rewrite Hb in Hn.
        rewrite len_app in Hlen1. unfold len in Hlen1 at 3. rewrite length_firstn in Hlen1.
        fold n in Hlen1. lia.
Qed.

Lemma Write_loop_S fuel f b p nn :
  bufio.Write_loop (S fuel) f b p nn
  = if (bufio.Available b <? len p) && is_none (bufio.werr b) then
      match bufio.wbuf b with
      | [] =>
        let '(f', n, err) := os.Write f p in
        bufio.Write_loop fuel f' {| bufio.wbuf := []; bufio.werr := err |}
                         (skipn n p) (nn + Z.of_nat n)
      | _ :: _ =>
        let n := Nat.min (Z.to_nat (bufio.Available b)) (length p) in
        let '(f', b', _) :=
          bufio.Flush f {| bufio.wbuf := bufio.wbuf b ++ firstn n p;
                           bufio.werr := bufio.werr b |} in
        bufio.Write_loop fuel f' b' (skipn n p) (nn + Z.of_nat n)
      end
    else (f, b, p, nn).
Proof. reflexivity. Qed.

Lemma Write_loop_settled fuel f b p nn :
  settled b p -> bufio.Write_loop fuel f b p nn = (f, b, p, nn).
Proof.
  unfold settled. intros H. destruct fuel; cbn [bufio.Write_loop]; rewrite H; reflexivity.
Qed.

Lemma settled_error b p e : bufio.werr b = Some e -> settled b p.
Proof. unfold settled. intros ->. apply andb_false_r. Qed.

Lemma settled_nil b : len (bufio.wbuf b) <= bufio.defaultBufSize -> settled b [].
Proof.
  unfold settled, bufio.Available. intros H. change (len (@nil byte)) with 0.
  destruct (Z.ltb_spec (bufio.defaultBufSize - len (bufio.wbuf b)) 0); [lia|reflexivity].
Qed.

(** With an empty buffer one turn of the loop is enough. *)
Lemma Write_loop_empty fuel f b p nn f' b' p' nn' :
  bufio.wbuf b = [] ->
  bufio.Write_loop (S fuel) f b p nn = (f', b', p', nn') -> settled b' p'.
Proof.
  intros Hb H. rewrite Write_loop_S in H.
  destruct ((bufio.Available b <? len p) && is_none (bufio.werr b)) eqn:Hc;
    [|inversion H; subst; exact Hc].
  rewrite Hb in H.
  destruct (os.Write f p) as [[f1 n] err1] eqn:Hw.
  apply os_Write_spec in Hw. destruct Hw as (_ & _ & Hnone & _).
  rewrite Write_loop_settled in H.
  - inversion H; subst. destruct err1 as [e|].
    + apply (settled_error _ _ e). reflexivity.
    + rewrite (Hnone eq_refl), skipn_all. apply settled_nil.
      cbn. unfold len, bufio.defaultBufSize. simpl. lia.
  - destruct err1 as [e|].
    + apply (settled_error _ _ e). reflexivity.
    + rewrite (Hnone eq_refl), skipn_all. apply settled_nil.
      cbn. unfold len, bufio.defaultBufSize. simpl. lia.
Qed.

(** Two turns are enough whatever the buffer holds: the loop of [Write]
    has run to its end. *)
Lemma Write_loop_settles fuel f b p nn f' b' p' nn' :
  bufio.Write_loop (S (S fuel)) f b p nn = (f', b', p', nn') -> settled b' p'.
Proof.
  intros H. rewrite Write_loop_S in H.
  destruct ((bufio.Available b <? len p) && is_none (bufio.werr b)) eqn:Hc;
    [|inversion H; subst; exact Hc].
  destruct (bufio.wbuf b) as [|x l] eqn:Hb.
  - destruct (os.Write f p) as [[f1 n] err1] eqn:Hw.
    apply os_Write_spec in Hw. destruct Hw as (_ & _ & Hnone & _).
    rewrite Write_loop_settled in H.
    + inversion H; subst. destruct err1 as [e|].
      * apply (settled_error _ _ e). reflexivity.
      * rewrite (Hnone eq_refl), skipn_all. apply settled_nil.
        cbn. unfold len, bufio.defaultBufSize. simpl. lia.
    + destruct err1 as [e|].
      * apply (settled_error _ _ e). reflexivity.
      * rewrite (Hnone eq_refl), skipn_all. apply settled_nil.
        cbn. unfold len, bufio.defaultBufSize. simpl. lia.
  - cbv zeta in H.
    match type of H with context [bufio.Flush ?f0 ?b0] =>
      destruct (bufio.Flush f0 b0) as [[f1 b1] err1] eqn:Hfl end.
    apply Flush_spec in Hfl. destruct Hfl as (_ & Herr & _ & Hnone).
    destruct err1 as [e|].
    + rewrite Write_loop_settled in H by (apply (settled_error _ _ e); assumption).
      inversion H; subst. apply (settled_error _ _ e). assumption.
    + destruct (Hnone eq_refl) as [Hb1 _].
      eapply Write_loop_empty; eassumption.
Qed.

(** [Write]: on success the bytes of [p] follow what the file and the buffer
    held, all of them counted; on failure the error stays in the writer. *)
Lemma Write_spec f b p f' b' n err :
  len (bufio.wbuf b) <= bufio.defaultBufSize ->
  bufio.Write f b p = (f', b', n, err) ->
  bufio.werr b' = err
  /\ (err = None ->
      f' ++ bufio.wbuf b' = f ++ bufio.wbuf b ++ p /\ n = len p
      /\ bufio.werr b = None
      /\ len (bufio.wbuf b') <= bufio.defaultBufSize).
Proof.
  intros Hcap H. unfold bufio.Write in H.
  destruct (bufio.Write_loop 2 f b p 0) as [[[f1 b1] p1] nn1] eqn:Hl.
  pose proof (Write_loop_settles _ _ _ _ _ _ _ _ _ Hl) as Hset.
  apply Write_loop_spec in Hl. destruct Hl as (Hbytes & Hcount & Hnone & Hcap1).
  specialize (Hcap1 Hcap).
  destruct (bufio.werr b1) as [e|] eqn:He1.
  - inversion H; subst. split; [assumption|discriminate].
  - unfold settled in Hset. rewrite He1 in Hset. cbn [is_none] in Hset.
    rewrite andb_true_r in Hset. apply Z.ltb_ge in Hset.
    assert (Hmin : Nat.min (Z.to_nat (bufio.Available b1)) (length p1) = length p1)
      by (unfold len in Hset; lia).
    rewrite Hmin, firstn_all in H. inversion H; subst. cbn [bufio.wbuf bufio.werr].
    split; [reflexivity|]. intros _.
    split; [rewrite app_assoc; rewrite <- app_assoc; exact Hbytes|].
    split; [unfold len in *; lia|].
    split; [auto|].
    rewrite len_app. unfold bufio.Available in Hset. lia.
Qed.

(** An error already in the writer is returned at once. *)
Lemma Write_sticky f b p e :
  bufio.werr b = Some e -> bufio.Write f b p = (f, b, 0, Some e).
Proof.
  intros He. unfold bufio.Write.
  rewrite Write_loop_settled by (apply (settled_error _ _ e); assumption).
  rewrite He. reflexivity.
Qed.
End Writer_properties.

(** ** The store *)

Lemma uint64_int64 z : uint64 (int64 z) = uint64 z.
Proof.
  unfold uint64, int64.
  rewrite <- Zminus_mod_idemp_l, Z.mod_mod by lia.
  rewrite Zminus_mod_idemp_l. f_equal. lia.
Qed.

Lemma uint64_add_r a b : uint64 (a + uint64 b) = uint64 (a + b).
Proof. unfold uint64. apply Zplus_mod_idemp_r. Qed.

Lemma uint64_add_l a b : uint64 (uint64 a + b) = uint64 (a + b).
Proof. unfold uint64. apply Zplus_mod_idemp_l. Qed.

Lemma len_PutUint64 v : len (PutUint64 v) = 8.
Proof. unfold PutUint64. apply len_be_bytes. Qed.

Lemma len_frame p : len (frame p) = 8 + len p.
Proof. unfold frame. rewrite len_app, len_PutUint64. reflexivity. Qed.

Lemma frame_at_app c c' q p : frame_at c q p -> frame_at (c ++ c') q p.
Proof.
  intros (Hq & Hfit & Hbytes). pose proof (len_nonneg p). pose proof (len_nonneg c').
  unfold frame_at. rewrite len_app. repeat split; try lia.
  rewrite drop_app_le by lia. rewrite take_app_le by (rewrite len_drop; lia). assumption.
Qed.

Lemma frame_at_end c p : frame_at (c ++ frame p) (len c) p.
Proof.
  pose proof (len_nonneg c). pose proof (len_nonneg p).
  unfold frame_at. rewrite len_app, len_frame. repeat split; try lia.
  rewrite drop_app_exact. apply take_all. rewrite len_frame. lia.
Qed.

Section Store_properties.
Context {E : Env}.

Lemma store_Append_Ok s p s' n pos :
  store_wf s ->
  store.Append s p = (s', Ok (n, pos)) ->
  store.contents s' = store.contents s ++ frame p
  /\ pos = store.size s
  /\ n = uint64 (len p + 8)
  /\ store.size s' = uint64 (store.size s + (len p + 8))
  /\ bufio.werr (store.buf s') = None
  /\ store_wf s'.
Proof.
  unfold store_wf. intros Hcap H. unfold store.Append in H.
  destruct (bufio.Write (store.File s) (store.buf s) (PutUint64 (uint64 (len p))))
    as [[[f1 b1] n1] err1] eqn:Hw1.
  apply Write_spec in Hw1; [|assumption]. destruct Hw1 as (He1 & Hok1).
  destruct err1 as [e|]; [discriminate|].
  destruct (Hok1 eq_refl) as (Hbytes1 & _ & _ & Hcap1).
  destruct (bufio.Write f1 b1 p) as [[[f2 b2] n2] err2] eqn:Hw2.
  apply Write_spec in Hw2; [|assumption]. destruct Hw2 as (He2 & Hok2).
  destruct err2 as [e|]; [discriminate|].
  destruct (Hok2 eq_refl) as (Hbytes2 & Hn2 & _ & Hcap2).
  inversion H; subst. unfold store.contents, store.lenWidth. cbn [store.File store.buf store.size].
  rewrite uint64_int64, uint64_add_r.
  repeat split; try assumption.
  rewrite Hbytes2, app_assoc, Hbytes1. unfold frame. rewrite <- !app_assoc. reflexivity.
Qed.

(** Whatever [Append] returns that is not a success, the size stays. *)
Lemma store_Append_failed s p s' r :
  store.Append s p = (s', r) ->
  (forall x, r <> Ok x) ->
  store.size s' = store.size s /\ exists e, r = Err e.
Proof.
  unfold store.Append. intros H Hr.
  destruct (bufio.Write (store.File s) (store.buf s) (PutUint64 (uint64 (len p))))
    as [[[f1 b1] n1] [e|]].
  - inversion H; subst. eauto.
  - destruct (bufio.Write f1 b1 p) as [[[f2 b2] n2] [e|]].
    + inversion H; subst. eauto.
    + inversion H; subst. exfalso. eapply Hr. reflexivity.
Qed.

(** Reading back a framed payload, once the flush has gone through. *)
Lemma store_Read_frame s q p :
  snd (bufio.Flush (store.File s) (store.buf s)) = None ->
  len (store.contents s) <= maxInt ->
  frame_at (store.contents s) q p ->
  exists s', store.Read s (uint64 q) = (s', Ok p)
             /\ store.contents s' = store.contents s
             /\ store.size s' = store.size s
             /\ bufio.wbuf (store.buf s') = [].
Proof.
  intros Hfl Hmax (Hq & Hfit & Hbytes). unfold maxInt in Hmax.
  pose proof (len_nonneg p) as Hp.
  unfold store.Read.
  destruct (bufio.Flush (store.File s) (store.buf s)) as [[f1 b1] err] eqn:Hf.
  cbn [snd] in Hfl. subst err.
  apply Flush_spec in Hf. destruct Hf as (Hc & _ & _ & Hnone).
  destruct (Hnone eq_refl) as [Hb1 _]. rewrite Hb1, app_nil_r in Hc.
  fold (store.contents s) in Hc. subst f1.
  eexists. unfold store.lenWidth.
  rewrite (uint64_id q), (int64_id q), (uint64_id (q + 8)), (int64_id (q + 8)) by lia.
  unfold os.ReadAt at 1.
  destruct (Z.ltb_spec q 0); [lia|]. cbn [Z.eqb].
  destruct (Z.ltb_spec (len (store.contents s)) (q + 8)); [lia|].
  assert (H8 : take 8 (drop q (store.contents s)) = PutUint64 (uint64 (len p))).
  { rewrite <- (take_take 8 (8 + len p)) by lia. rewrite Hbytes. unfold frame.
    rewrite <- (len_PutUint64 (uint64 (len p))) at 1. apply take_app_exact. }
  rewrite H8, Uint64_PutUint64. rewrite !(uint64_id (len p)) by lia.
  destruct (Z.ltb_spec maxInt (len p)); [unfold maxInt in *; lia|].
  assert (Hrd : os.ReadAt (store.contents s) (len p) (q + 8) = Ok p).
  { unfold os.ReadAt.
    destruct (Z.ltb_spec (q + 8) 0); [lia|].
    destruct (Z.eqb_spec (len p) 0) as [E0|E0].
    - destruct p; [reflexivity|]. rewrite len_cons in E0. pose proof (len_nonneg p). lia.
    - destruct (Z.ltb_spec (len (store.contents s)) (q + 8 + len p)); [lia|].
      f_equal.
      assert (Hd : drop (q + 8) (store.contents s) = drop 8 (drop q (store.contents s)))
        by (rewrite drop_drop by lia; reflexivity).
      assert (Hsplit : drop q (store.contents s)
                       = PutUint64 (uint64 (len p))
                         ++ p ++ drop (8 + len p) (drop q (store.contents s))).
      { rewrite app_assoc. fold (frame p). rewrite <- Hbytes. symmetry. apply take_drop_id. }
      rewrite Hd, Hsplit.
      rewrite <- (len_PutUint64 (uint64 (len p))) at 1. rewrite drop_app_exact.
      apply take_app_exact. }
  rewrite Hrd. split; [reflexivity|].
  unfold store.contents. cbn [store.File store.buf store.size].
  rewrite Hb1, app_nil_r. auto.
Qed.
End Store_properties.

(** *** C9: what a successful [store.Append] returns and leaves behind *)

(** C9.  A successful [Append p] on a store of size [Z] returns
    [(8 + len p, Z)], leaves the 8-byte big-endian length of [p] and then
    [p] after the bytes the store held, and adds exactly [8 + len p] to the
    size; the bytes written earlier stay where they were, so an entry
    framed at a position before the append is framed there after it. *)
Theorem C9_store_Append :
  forall (E : Env) (s : store.t) (p : list byte) s' n pos,
    store_wf s ->
    0 <= store.size s <= maxInt ->
    len p + 8 <= maxInt ->
    store.Append s p = (s', Ok (n, pos)) ->
    n = 8 + len p
    /\ pos = store.size s
    /\ store.contents s' = store.contents s ++ PutUint64 (len p) ++ p
    /\ store.size s' = store.size s + (8 + len p)
    /\ take (len (store.contents s)) (store.contents s') = store.contents s
    /\ (forall q x, frame_at (store.contents s) q x -> frame_at (store.contents s') q x).
Proof.
  intros E s p s' n pos Hwf Hsize Hp H. unfold maxInt in *.
  pose proof (len_nonneg p) as Hlen.
  destruct (store_Append_Ok s p s' n pos Hwf H) as (Hc & Hpos & Hn & Hs & _ & _).
  rewrite Hc. unfold frame. rewrite (uint64_id (len p)) by lia.
  split; [rewrite Hn; rewrite uint64_id; lia|].
  split; [assumption|].
  split; [reflexivity|].
  split; [rewrite Hs; rewrite uint64_id; lia|].
  split; [apply take_app_exact|].
  intros q x Hq. apply frame_at_app; assumption.
Qed.

Lemma C9_store_Append_witness :
  exists s',
    store.Append (E := test_env) (store.newStore []) hello = (s', Ok (13, 0))
    /\ store.size s' = 13.
Proof.
  eexists. split; [vm_compute; reflexivity|].
  refine (proj1 (proj2 (proj2 (proj2
    (C9_store_Append test_env (store.newStore []) hello _ 13 0 _ _ _ _))))).
  - unfold store_wf. vm_compute. discriminate.
  - vm_compute. split; discriminate.
  - vm_compute. discriminate.
  - vm_compute. reflexivity.
Defined.

(** ** [index.Read], case by case *)

Lemma slot_of_range i n : 0 <= slot_of i n < 2 ^ 32.
Proof. unfold slot_of. destruct (n =? -1); apply uint32_range. Qed.

(** Every outcome of [index.Read]: [io.EOF] when the slot lies beyond the
    logical size, the pair of the slot when it lies inside the mapped
    region, a panic when the logical size runs past the mapped region. *)
Lemma index_Read_cases i n :
  match index.Read i n with
  | Ok x =>
    index.size i <> 0 /\ 12 * (slot_of i n + 1) <= index.size i
    /\ 12 * (slot_of i n + 1) <= len (index.mmap i)
    /\ x = entry_at (index.mmap i) (slot_of i n)
  | Err e =>
    e = io_EOF /\ (index.size i = 0 \/ index.size i < 12 * (slot_of i n + 1))
  | Panic =>
    index.size i <> 0 /\ 12 * (slot_of i n + 1) <= index.size i
    /\ len (index.mmap i) < 12 * (slot_of i n + 1)
  end.
Proof.
  pose proof (slot_of_range i n) as Hk.
  destruct (Z.eq_dec (index.size i) 0) as [H0|H0].
  { rewrite index_Read_eof by auto. auto. }
  destruct (Z.lt_ge_cases (index.size i) (12 * (slot_of i n + 1))) as [Hlt|Hge].
  { rewrite index_Read_eof by auto. auto. }
  destruct (Z.le_gt_cases (12 * (slot_of i n + 1)) (len (index.mmap i))) as [Hin|Hout].
  - unfold index.Read.
    destruct (Z.eqb_spec (index.size i) 0); [contradiction|].
    fold (slot_of i n). set (k := slot_of i n) in *.
    unfold_widths. change (4 + 8) with 12.
    rewrite (uint64_id (k * 12)) by lia.
    rewrite (uint64_id (k * 12 + 12)), (uint64_id (k * 12 + 4)) by lia.
    destruct (Z.ltb_spec (index.size i) (k * 12 + 12)); [lia|].
    rewrite !slice_in_range by lia.
    split; [assumption|]. split; [assumption|]. split; [assumption|].
    unfold entry_at.
    replace (k * 12 + 4 - k * 12) with 4 by lia.
    replace (k * 12 + 12 - (k * 12 + 4)) with 8 by lia.
    replace (12 * k) with (k * 12) by lia.
    unfold Uint32, Uint64. rewrite !take_take by lia. reflexivity.
  - unfold index.Read.
    destruct (Z.eqb_spec (index.size i) 0); [contradiction|].
    fold (slot_of i n). set (k := slot_of i n) in *.
    unfold_widths. change (4 + 8) with 12.
    rewrite (uint64_id (k * 12)) by lia.
    rewrite (uint64_id (k * 12 + 12)), (uint64_id (k * 12 + 4)) by lia.
    destruct (Z.ltb_spec (index.size i) (k * 12 + 12)); [lia|].
    assert (Hs2 : slice (index.mmap i) (k * 12 + 4) (k * 12 + 12) = None).
    { unfold slice. destruct (Z.leb_spec (k * 12 + 12) (len (index.mmap i))); [lia|].
      rewrite andb_false_r. reflexivity. }
    rewrite Hs2.
    destruct (slice (index.mmap i) (k * 12) (k * 12 + 4)); (split; [assumption|split; lia]).
Qed.

(** *** C8: an entry number of 2^32 or more is read as its low 32 bits *)

(** C8 (the code at the failing input).  An index that holds one entry,
    [(7, 99)], has logical size 12, so entry number [2^32] lies beyond
    [S / 12 = 1]; [Read (2^32)] returns entry 0 all the same, where C8
    asks for the end-of-data error. *)
Theorem C8_Read_cuts_the_entry_number :
  let i := fst (index.Write {| index.mmap := zeros 36; index.size := 0 |} 7 99) in
  index.size i = 12
  /\ index.size i / 12 <= 4294967296
  /\ index.Read i 0 = Ok (7, 99)
  /\ index.Read i 4294967296 = Ok (7, 99)
  /\ index.Read i 1 = Err io_EOF.
Proof.
  cbv zeta. rewrite index_Write_ok.
  - cbn [fst index.size]. repeat split; try reflexivity. discriminate.
  - unfold index_wf. vm_compute. repeat split; discriminate.
  - vm_compute. discriminate.
Qed.

(** ** The segment *)

Lemma uint64_sub_l a b : uint64 (uint64 a - b) = uint64 (a - b).
Proof. unfold uint64. apply Zminus_mod_idemp_l. Qed.

Lemma uint64_uint64 a : uint64 (uint64 a) = uint64 a.
Proof. unfold uint64. apply Z.mod_mod. lia. Qed.

Lemma uint32_uint32 a : uint32 (uint32 a) = uint32 a.
Proof. unfold uint32. apply Z.mod_mod. lia. Qed.

Lemma entry_at_take m n k :
  0 <= k -> 12 * (k + 1) <= n -> n <= len m -> entry_at (take n m) k = entry_at m k.
Proof.
  intros Hk Hn Hm. rewrite <- (take_drop_id n m) at 2.
  symmetry. apply entry_at_prefix; [assumption|]. rewrite len_take; lia.
Qed.

(** A write at the logical size leaves the slots below it as they were. *)
Lemma entry_at_Write_other m sz w k :
  0 <= k -> 12 * (k + 1) <= sz -> sz + 12 <= len m ->
  entry_at (take sz m ++ entry w ++ drop (sz + 12) m) k = entry_at m k.
Proof.
  intros Hk Hsz Hm.
  rewrite entry_at_prefix by (rewrite ?len_take; lia).
  apply entry_at_take; lia.
Qed.

Lemma entry_at_Write_new m n w :
  0 <= n -> 12 * n + 12 <= len m ->
  entry_at (take (12 * n) m ++ entry w ++ drop (12 * n + 12) m) n
  = (uint32 (fst w), uint64 (snd w)).
Proof.
  intros Hn Hm. replace n with (n + 0) at 3 by lia.
  rewrite entry_at_shift by (rewrite ?len_take; lia).
  apply entry_at_entry.
Qed.

Section Segment_properties.
Context {E : Env}.

(** The steps of a successful [Append]. *)
Lemma segment_Append_Ok s r s' off :
  segment.Append s r = (s', Ok off) ->
  exists p st n pos ix,
    proto_Marshal (set_Offset r (segment.nextOffset s)) = Ok p
    /\ store.Append (segment.store_ s) p = (st, Ok (n, pos))
    /\ index.Write (segment.index_ s)
         (uint32 (uint64 (segment.nextOffset s - segment.baseOffset s))) pos = (ix, Ok tt)
    /\ off = segment.nextOffset s
    /\ s' = {| segment.store_ := st; segment.index_ := ix;
               segment.baseOffset := segment.baseOffset s;
               segment.nextOffset := uint64 (segment.nextOffset s + 1);
               segment.config := segment.config s |}.
Proof.
  unfold segment.Append. intros H.
  destruct (proto_Marshal (set_Offset r (segment.nextOffset s))) as [p| |] eqn:Hm;
    try discriminate.
  destruct (store.Append (segment.store_ s) p) as [st [[n pos]| |]] eqn:Hs;
    try discriminate.
  destruct (index.Write (segment.index_ s) _ pos) as [ix [[]| |]] eqn:Hw;
    try discriminate.
  inversion H; subst. exists p, st, n, pos, ix. repeat split; assumption || reflexivity.
Qed.

(** An [Append] that does not succeed leaves the offsets and the logical
    size of the index as they were. *)
Lemma segment_Append_failed s r s' res :
  segment.Append s r = (s', res) ->
  (forall off, res <> Ok off) ->
  segment.nextOffset s' = segment.nextOffset s
  /\ segment.baseOffset s' = segment.baseOffset s
  /\ segment.config s' = segment.config s
  /\ index.size (segment.index_ s') = index.size (segment.index_ s)
  /\ (index_wf (segment.index_ s) -> segment.index_ s' = segment.index_ s).
Proof.
  unfold segment.Append. intros H Hres.
  destruct (proto_Marshal (set_Offset r (segment.nextOffset s))) as [p| |];
    [|inversion H; subst; auto..].
  destruct (store.Append (segment.store_ s) p) as [st [[n pos]| |]];
    [|inversion H; subst; auto..].
  destruct (index.Write (segment.index_ s) _ pos) as [ix w] eqn:Hw.
  assert (Hix : index.size ix = index.size (segment.index_ s)
                /\ (index_wf (segment.index_ s) -> ix = segment.index_ s)).
  { destruct w as [[]|e|].
    - inversion H; subst. exfalso. eapply Hres. reflexivity.
    - apply index_Write_error in Hw. destruct Hw as [-> _]. auto.
    - split.
      + unfold index.Write in Hw. destruct (index.isMaxed _); [discriminate|].
        destruct (slice_put _ _ _ _); [|inversion Hw; reflexivity].
        destruct (slice_put _ _ _ _); [discriminate|inversion Hw; reflexivity].
      + intros Hwf.
        destruct (Z.le_gt_cases (index.size (segment.index_ s) + 12)
                                (len (index.mmap (segment.index_ s)))).
        * rewrite index_Write_ok in Hw by assumption. discriminate.
        * rewrite index_Write_full in Hw by (assumption || lia). discriminate. }
  destruct w as [[]|e|]; inversion H; subst; cbn; try tauto.
  exfalso. eapply Hres. reflexivity.
Qed.
End Segment_properties.

(** *** C6: a failed [Append] does not take an offset *)

(** C6.  When [Append] returns an error, the error is the one of the stage
    that failed (marshalling, the store's append, or the index's write,
    which fails with [io.EOF] only), [nextOffset] is what it was, and the
    next [Append] that succeeds returns the offset the failed call would
    have returned. *)
Theorem C6_failed_Append_keeps_nextOffset :
  forall (E : Env) (s : segment.t) (r : api_Record) s' e,
    segment.Append s r = (s', Err e) ->
    segment.nextOffset s' = segment.nextOffset s
    /\ (proto_Marshal (set_Offset r (segment.nextOffset s)) = Err e
        \/ (exists p st,
              proto_Marshal (set_Offset r (segment.nextOffset s)) = Ok p
              /\ store.Append (segment.store_ s) p = (st, Err e))
        \/ (exists p st n pos ix,
              proto_Marshal (set_Offset r (segment.nextOffset s)) = Ok p
              /\ store.Append (segment.store_ s) p = (st, Ok (n, pos))
              /\ index.Write (segment.index_ s)
                   (uint32 (uint64 (segment.nextOffset s - segment.baseOffset s))) pos
                 = (ix, Err e)
              /\ e = io_EOF))
    /\ (forall r2 s'' off,
          segment.Append s' r2 = (s'', Ok off) -> off = segment.nextOffset s).
Proof.
  intros E s r s' e H.
  assert (Hnext : segment.nextOffset s' = segment.nextOffset s).
  { apply (segment_Append_failed s r s' (Err e) H). intros off; discriminate. }
  split; [assumption|]. split.
  - unfold segment.Append in H.
    destruct (proto_Marshal (set_Offset r (segment.nextOffset s))) as [p|e0|] eqn:Hm.
    + destruct (store.Append (segment.store_ s) p) as [st [[n pos]|e1|]] eqn:Hs.
      * destruct (index.Write (segment.index_ s) _ pos) as [ix [[]|e2|]] eqn:Hw;
          try discriminate.
        right. right. exists p, st, n, pos, ix.
        assert (e2 = e) by congruence. subst e2.
        pose proof (index_Write_error _ _ _ _ _ Hw) as [_ He]. auto.
      * right. left. exists p, st. assert (e1 = e) by congruence. subst. auto.
      * discriminate.
    + left. congruence.
    + discriminate.
  - intros r2 s'' off H2. apply segment_Append_Ok in H2.
    destruct H2 as (_ & _ & _ & _ & _ & _ & _ & _ & Hoff & _). congruence.
Qed.

Lemma C6_failed_Append_keeps_nextOffset_witness :
  exists s0 s1 s2,
    segment.newSegment no_files 0 (mkConfig 1024 12) = Ok s0
    /\ segment.Append (E := test_env) s0 (mkRecord hello 0) = (s1, Ok 0)
    /\ segment.Append (E := test_env) s1 (mkRecord world 0) = (s2, Err io_EOF)
    /\ segment.nextOffset s2 = segment.nextOffset s1.
Proof.
  eexists. eexists. eexists.
  split; [vm_compute; reflexivity|].
  split; [vm_compute; reflexivity|].
  assert (H : forall s1 s2 r,
             segment.Append (E := test_env) s1 r = (s2, Err io_EOF) ->
             segment.Append (E := test_env) s1 r = (s2, Err io_EOF)
             /\ segment.nextOffset s2 = segment.nextOffset s1).
  { intros s1 s2 r H. split; [exact H|].
    exact (proj1 (C6_failed_Append_keeps_nextOffset test_env s1 r s2 io_EOF H)). }
  apply H. vm_compute. reflexivity.
Defined.

(** ** Construction *)

Lemma Uint32_range b : 0 <= Uint32 b < 2 ^ 32.
Proof.
  unfold Uint32. pose proof (be_value_range (take 4 b)) as H.
  assert (Hl : 0 <= len (take 4 b) <= 4).
  { unfold len, take. rewrite length_firstn. lia. }
  assert (Hp : 256 ^ len (take 4 b) <= 256 ^ 4) by (apply Z.pow_le_mono_r; lia).
  change (2 ^ 32) with (256 ^ 4). lia.
Qed.

(** What [newSegment] builds, when it builds a segment. *)
Lemma newSegment_Ok d B c s :
  segment.newSegment d B c = Ok s ->
  exists ix,
    index.newIndex (segment.indexFile d) c = Ok ix
    /\ segment.index_ s = ix
    /\ segment.store_ s = store.newStore (segment.storeFile d)
    /\ segment.baseOffset s = B
    /\ segment.config s = c
    /\ match index.Read ix (-1) with
       | Ok (off, _) => segment.nextOffset s = uint64 (B + off + 1)
       | Err _ => segment.nextOffset s = B
       | Panic => False
       end.
Proof.
  unfold segment.newSegment. intros H.
  destruct (index.newIndex (segment.indexFile d) c) as [ix| |]; try discriminate.
  exists ix. split; [reflexivity|].
  destruct (index.Read ix (-1)) as [[off pos]|e|]; try discriminate;
    inversion H; subst; cbn; auto 10.
Qed.

Lemma newSegment_empty d B c s :
  segment.indexFile d = [] ->
  segment.newSegment d B c = Ok s ->
  segment.nextOffset s = B
  /\ index.size (segment.index_ s) = 0
  /\ index_wf (segment.index_ s)
  /\ segment.baseOffset s = B.
Proof.
  intros Hf H. apply newSegment_Ok in H.
  destruct H as (ix & Hix & Hi & _ & HB & _ & Hnext). rewrite Hf in Hix.
  pose proof (newIndex_wf [] c ix) as Hwf.
  pose proof (newIndex_Ok _ _ _ Hix) as (HM & _ & Hs & _).
  change (uint64 (len (@nil byte))) with 0 in Hs.
  rewrite index_Read_eof in Hnext by auto.
  rewrite Hi. repeat split; try assumption; apply Hwf; try assumption;
    change (len (@nil byte)) with 0; lia.
Qed.

Lemma newSegment_dense d B c s N :
  1 <= N ->
  len (segment.indexFile d) = 12 * N ->
  fst (entry_at (segment.indexFile d) (N - 1)) = N - 1 ->
  segment.newSegment d B c = Ok s ->
  segment.nextOffset s = uint64 (B + N)
  /\ index.size (segment.index_ s) = 12 * N
  /\ index_wf (segment.index_ s)
  /\ segment.baseOffset s = B.
Proof.
  intros HN Hlen Hlast H. apply newSegment_Ok in H.
  destruct H as (ix & Hix & Hi & _ & HB & _ & Hnext).
  set (f := segment.indexFile d) in *.
  assert (HN32 : N - 1 < 2 ^ 32).
  { rewrite <- Hlast. unfold entry_at. cbn [fst]. apply Uint32_range. }
  pose proof (newIndex_Ok _ _ _ Hix) as (HM & Hmap & Hs & Hl).
  rewrite Hlen, uint64_id in Hs by lia.
  assert (Hslot : slot_of ix (-1) = N - 1).
  { unfold slot_of. change (-1 =? -1) with true. cbv iota.
    unfold index.entWidth, index.offWidth, index.posWidth.
    rewrite Hs. change (4 + 8) with 12. rewrite Z.mul_comm, Z.div_mul by lia.
    rewrite uint64_id, uint32_id; lia. }
  pose proof (index_Read_cases ix (-1)) as Hcases. rewrite Hslot in Hcases.
  pose proof (int64_range (MaxIndexBytes (Segment c))) as HMr.
  destruct (index.Read ix (-1)) as [[off pos]|e|]; [| |contradiction].
  - destruct Hcases as (_ & _ & Hin & Hx).
    assert (Htake : take (int64 (MaxIndexBytes (Segment c))) f = f)
      by (apply take_all; lia).
    rewrite Hmap, Htake, entry_at_prefix in Hx by lia.
    rewrite Hi. repeat split; try assumption.
    + rewrite Hnext. f_equal.
      assert (off = N - 1) by (rewrite <- Hlast, <- Hx; reflexivity). lia.
    + lia.
    + lia.
    + unfold maxInt. lia.
  - destruct Hcases as (_ & [H0|H0]); lia.
Qed.

Section Count_invariant.
Context {E : Env}.

Lemma count_inv_newSegment d B c s :
  dense_index_file (segment.indexFile d) ->
  segment.newSegment d B c = Ok s -> count_inv s.
Proof.
  intros [Hf|(N & HN & Hlen & Hlast)] H.
  - destruct (newSegment_empty d B c s Hf H) as (Hnext & Hs & Hwf & HB).
    split; [assumption|]. rewrite Hnext, HB, Hs, Z.sub_diag. reflexivity.
  - destruct (newSegment_dense d B c s N HN Hlen Hlast H) as (Hnext & Hs & Hwf & HB).
    split; [assumption|]. rewrite Hnext, HB, Hs, uint64_sub_l.
    replace (B + N - B) with N by lia.
    rewrite Z.mul_comm, Z.div_mul by lia.
    destruct Hwf as [Hsz Hmax]. unfold maxInt in Hmax. apply uint64_id. lia.
Qed.

Lemma count_inv_Append s r s' res :
  count_inv s -> segment.Append s r = (s', res) -> count_inv s'.
Proof.
  intros [Hwf Hcount] H.
  assert (Hcases : (exists off, res = Ok off) \/ (forall off, res <> Ok off)).
  { destruct res; [left; eauto|right; discriminate..]. }
  destruct Hcases as [[off ->]|Hfail].
  - apply segment_Append_Ok in H.
    destruct H as (p & st & n & pos & ix & _ & _ & Hw & _ & ->).
    pose proof (index_Write_wf _ _ _ _ _ Hwf Hw) as Hwf'.
    pose proof Hwf as [Hsz Hmax]. unfold maxInt in Hmax.
    destruct (Z.le_gt_cases (index.size (segment.index_ s) + 12)
                            (len (index.mmap (segment.index_ s)))) as [Hfit|Hfull];
      [|rewrite index_Write_full in Hw by (assumption || lia); discriminate].
    rewrite index_Write_ok in Hw by assumption. split_pair Hw. subst ix.
    split; [exact Hwf'|]. cbn [segment.nextOffset segment.baseOffset segment.index_ index.size].
    rewrite uint64_sub_l.
    replace (segment.nextOffset s + 1 - segment.baseOffset s)
      with (1 + (segment.nextOffset s - segment.baseOffset s)) by lia.
    rewrite <- uint64_add_r, Hcount.
    replace (index.size (segment.index_ s) + 12)
      with (index.size (segment.index_ s) + 1 * 12) by lia.
    rewrite Z.div_add by lia.
    assert (0 <= index.size (segment.index_ s) / 12 <= index.size (segment.index_ s)).
    { split; [apply Z.div_pos; lia|]. apply Z.div_le_upper_bound; lia. }
    rewrite uint64_id; lia.
  - destruct (segment_Append_failed s r s' res H Hfail) as (Hn & Hb & _ & _ & Hix).
    unfold count_inv. rewrite Hn, Hb, (Hix Hwf). auto.
Qed.

End Count_invariant.

(** *** C7: the record count *)

Section Count_invariant_runs.
Context {E : Env}.

Lemma run_count_inv s rs s' : run s rs s' -> count_inv s -> count_inv s'.
Proof.
  induction 1 as [s|s r s1 off rs0 s2 Ha _ IH|s r s1 res rs0 s2 Ha _ _ IH]; intros Hinv.
  - exact Hinv.
  - apply IH. eapply count_inv_Append; eassumption.
  - apply IH. eapply count_inv_Append; eassumption.
Qed.
End Count_invariant_runs.

(** C7, for a segment built over an index file as a [Close] leaves it:
    empty, or [N] entries the last of which stores the relative offset
    [N - 1] (so [N <= 2^32]).  In the state [newSegment] builds and in
    every state a run of [Append] calls reaches from it, successful or
    not, [nextOffset - baseOffset] ([uint64] arithmetic) is the logical
    size of the index divided by 12; and one [Append], whatever it
    returns, keeps the equation in any state with a well-formed index. *)
Theorem C7_record_count :
  forall (E : Env),
    (forall d B c s0 rs s,
        dense_index_file (segment.indexFile d) ->
        segment.newSegment d B c = Ok s0 ->
        run s0 rs s ->
        uint64 (segment.nextOffset s0 - segment.baseOffset s0)
        = index.size (segment.index_ s0) / 12
        /\ uint64 (segment.nextOffset s - segment.baseOffset s)
           = index.size (segment.index_ s) / 12)
    /\ (forall s r s' res,
          index_wf (segment.index_ s) ->
          uint64 (segment.nextOffset s - segment.baseOffset s)
          = index.size (segment.index_ s) / 12 ->
          segment.Append s r = (s', res) ->
          uint64 (segment.nextOffset s' - segment.baseOffset s')
          = index.size (segment.index_ s') / 12).
Proof.
  intros E. split.
  - intros d B c s0 rs s Hd Hnew Hrun.
    pose proof (count_inv_newSegment d B c s0 Hd Hnew) as Hinv0.
    pose proof (run_count_inv s0 rs s Hrun Hinv0) as Hinv.
    split; [apply Hinv0|apply Hinv].
  - intros s r s' res Hwf Hcount Ha.
    apply (count_inv_Append s r s' res (conj Hwf Hcount) Ha).
Qed.

Lemma C7_record_count_witness :
  uint64 (segment.nextOffset demo_s4 - segment.baseOffset demo_s4)
  = index.size (segment.index_ demo_s4) / 12.
Proof.
  refine (proj2 (proj1 (C7_record_count test_env) demo_files 5 demo_config demo_s2
                   [mkRecord foo 0] demo_s4 _ _ _)).
  - right. exists 2. vm_compute. repeat split; discriminate.
  - vm_compute. reflexivity.
  - apply (run_Ok demo_s2 (mkRecord foo 0) demo_s3 7 [] demo_s4).
    + vm_compute. reflexivity.
    + apply (run_failed demo_s3 (mkRecord hello 0) demo_s4 (Err io_EOF) [] demo_s4).
      * vm_compute. reflexivity.
      * discriminate.
      * apply run_done.
Defined.

(** C7, as stated, fails over the index file a stop without [Close]
    leaves, still at its mapped length of 36 bytes with zeros after its
    one entry: [newSegment] takes the three slots for entries and recovers
    [nextOffset] from the zeros of the last one, so the count is 1 against
    a logical size of 36, in the state [newSegment] builds and after an
    [Append]. *)
Lemma C7_counterexample :
  segment.newSegment unclean_files 0 (mkConfig 1024 36) = Ok unclean_s0
  /\ segment.Append (E := test_env) unclean_s0 (mkRecord world 0) = (unclean_s1, Err io_EOF)
  /\ run (E := test_env) unclean_s0 [] unclean_s1
  /\ uint64 (segment.nextOffset unclean_s0 - segment.baseOffset unclean_s0) = 1
  /\ index.size (segment.index_ unclean_s0) / 12 = 3
  /\ uint64 (segment.nextOffset unclean_s1 - segment.baseOffset unclean_s1) = 1
  /\ index.size (segment.index_ unclean_s1) / 12 = 3.
Proof.
  split; [vm_compute; reflexivity|].
  split; [vm_compute; reflexivity|].
  split.
  { apply (run_failed unclean_s0 (mkRecord world 0) unclean_s1 (Err io_EOF) [] unclean_s1).
    - vm_compute. reflexivity.
    - discriminate.
    - apply run_done. }
  repeat split; vm_compute; reflexivity.
Qed.

(** ** Runs of [Append] *)

Section Run_properties.
Context {E : Env}.

Lemma seg_rep_fresh B c s :
  is_uint64 B ->
  segment.newSegment no_files B c = Ok s ->
  seg_rep s [] /\ segment.baseOffset s = B /\ segment.config s = c.
Proof.
  intros HB H.
  destruct (newSegment_empty no_files B c s eq_refl H) as (Hnext & Hs & Hwf & Hb).
  apply newSegment_Ok in H. destruct H as (ix & Hix & Hi & Hst & _ & Hc & _).
  apply newIndex_Ok in Hix. destruct Hix as (HM & _ & _ & Hl).
  split; [|auto]. split.
  - rewrite Hnext, Hb. change (len (@nil api_Record)) with 0.
    rewrite Z.add_0_r. symmetry. apply uint64_id. exact HB.
  - split; [assumption|]. split; [rewrite Hs; reflexivity|].
    split; [rewrite Hi, Hc; split; [exact HM|exact Hl]|].
    rewrite Hst. split; [unfold store_wf; cbn; unfold len, bufio.defaultBufSize; simpl; lia|].
    split; [reflexivity|]. split; [reflexivity|].
    intros k Hk. change (len (@nil api_Record)) with 0 in Hk. lia.
Qed.

Lemma stamped_app_old s s' rs r k :
  segment.baseOffset s' = segment.baseOffset s ->
  0 <= k < len rs -> stamped s' (rs ++ [r]) k = stamped s rs k.
Proof.
  intros Hb Hk. unfold stamped. rewrite Hb, app_nth1; [reflexivity|].
  unfold len in Hk. lia.
Qed.

Lemma stamped_app_new s s' rs r :
  segment.baseOffset s' = segment.baseOffset s ->
  stamped s' (rs ++ [r]) (len rs) = set_Offset r (uint64 (segment.baseOffset s + len rs)).
Proof.
  intros Hb. unfold stamped. rewrite Hb. unfold len. rewrite Nat2Z.id.
  rewrite app_nth2, Nat.sub_diag by lia. reflexivity.
Qed.

(** One successful [Append] adds its record to what the segment holds. *)
Lemma seg_rep_Append s rs r s' off :
  seg_rep s rs ->
  segment.Append s r = (s', Ok off) ->
  off = uint64 (segment.baseOffset s + len rs)
  /\ seg_rep s' (rs ++ [r])
  /\ segment.baseOffset s' = segment.baseOffset s
  /\ segment.config s' = segment.config s.
Proof.
  intros (Hnext & Hwf & Hsz & [Hcap0 Hcap] & Hswf & _ & Hssz & Hentries) H.
  apply segment_Append_Ok in H.
  destruct H as (p & st & n & pos & ix & Hm & Hs & Hw & Hoff & ->).
  pose proof (len_nonneg rs) as HN. set (N := len rs) in *.
  pose proof Hwf as [Hrange Hmax]. unfold maxInt in Hmax.
  destruct (store_Append_Ok _ _ _ _ _ Hswf Hs) as (Hc & Hpos & _ & Hsize & Hwerr' & Hswf').
  destruct (Z.le_gt_cases (index.size (segment.index_ s) + 12)
                          (len (index.mmap (segment.index_ s)))) as [Hfit|Hfull];
    [|rewrite index_Write_full in Hw by (assumption || lia); discriminate].
  pose proof (index_Write_wf _ _ _ _ _ Hwf Hw) as Hwf'.
  rewrite index_Write_ok in Hw by assumption. split_pair Hw. subst ix.
  rewrite Hnext, uint64_sub_l in *.
  replace (segment.baseOffset s + N - segment.baseOffset s) with N in * by lia.
  rewrite (uint64_id N) in * by lia.
  split; [assumption|]. split; [|split; reflexivity].
  split; [|split; [|split; [|split; [|split; [|split; [|split]]]]]];
    cbn [segment.nextOffset segment.baseOffset segment.index_ segment.store_ index.size
         index.mmap segment.config].
  - rewrite uint64_add_l, len_app. change (len [r]) with 1. f_equal. fold N. lia.
  - exact Hwf'.
  - rewrite Hsz, len_app. change (len [r]) with 1. fold N. lia.
  - split; [exact Hcap0|].
    rewrite <- Hcap, !len_app, len_take, len_entry, len_drop by lia. lia.
  - exact Hswf'.
  - exact Hwerr'.
  - rewrite Hsize, Hssz, uint64_add_l, Hc, len_app, len_frame. f_equal. lia.
  - intros k Hk. rewrite len_app in Hk. change (len [r]) with 1 in Hk. fold N in Hk.
    destruct (Z.eq_dec k N) as [->|Hne].
    + unfold N at 1. rewrite (stamped_app_new s) by reflexivity. fold N.
      exists p, (len (store.contents (segment.store_ s))).
      cbn [segment.index_ segment.store_ index.mmap].
      split; [exact Hm|].
      split.
      * rewrite Hsz, entry_at_Write_new by lia. cbn [fst snd].
        rewrite uint32_uint32, Hpos, Hssz, uint64_uint64. reflexivity.
      * rewrite Hc. apply frame_at_end.
    + rewrite (stamped_app_old s) by (reflexivity || lia).
      destruct (Hentries k) as (p0 & q0 & Hm0 & He0 & Hf0); [lia|].
      exists p0, q0. cbn [segment.index_ segment.store_ index.mmap].
      split; [exact Hm0|]. split.
      * rewrite entry_at_Write_other by lia. exact He0.
      * rewrite Hc. apply frame_at_app. exact Hf0.
Qed.

(** A run of successful [Append]s: what the segment holds at the end and
    the offsets returned on the way. *)
Lemma AppendAll_rep rs : forall s rs0 s' outs,
  seg_rep s rs0 ->
  segment.AppendAll s rs = (s', outs) ->
  all_ok outs ->
  seg_rep s' (rs0 ++ rs)
  /\ segment.baseOffset s' = segment.baseOffset s
  /\ segment.config s' = segment.config s
  /\ len outs = len rs
  /\ forall k, 0 <= k < len rs ->
       nth (Z.to_nat k) outs Panic = Ok (uint64 (segment.baseOffset s + len rs0 + k)).
Proof.
  induction rs as [|r rs IH]; intros s rs0 s' outs Hrep H Hok.
  - cbn [segment.AppendAll] in H. inversion H; subst. rewrite app_nil_r.
    split; [assumption|]. do 3 (split; [reflexivity|]).
    intros k Hk. change (len (@nil api_Record)) with 0 in Hk. lia.
  - cbn [segment.AppendAll] in H.
    destruct (segment.Append s r) as [s1 o] eqn:Ha.
    destruct (segment.AppendAll s1 rs) as [s2 os] eqn:Hrun.
    inversion H; subst. inversion Hok as [|? ? [off ->] Hok']; subst.
    destruct (seg_rep_Append _ _ _ _ _ Hrep Ha) as (Hoff & Hrep1 & Hb1 & Hc1).
    destruct (IH _ _ _ _ Hrep1 Hrun Hok') as (Hrep2 & Hb2 & Hc2 & Hlen & Hnth).
    rewrite <- app_assoc in Hrep2. cbn [app] in Hrep2.
    split; [assumption|]. split; [congruence|]. split; [congruence|].
    split; [rewrite !len_cons; lia|].
    intros k Hk. rewrite len_cons in Hk.
    destruct (Z.eq_dec k 0) as [->|Hk0].
    + cbn. rewrite Hoff. f_equal. f_equal. lia.
    + replace (Z.to_nat k) with (S (Z.to_nat (k - 1))) by lia. cbn [nth].
      rewrite Hnth by lia. rewrite Hb1, len_app. change (len [r]) with 1.
      f_equal. f_equal. lia.
Qed.
End Run_properties.

(** ** Reading what a segment holds *)

Section Read_properties.
Context {E : Env}.

Lemma segment_Read_held s rs k :
  codec_sound E ->
  seg_data s rs ->
  0 <= k < len rs -> k < 2 ^ 32 ->
  snd (bufio.Flush (store.File (segment.store_ s)) (store.buf (segment.store_ s))) = None ->
  len (store.contents (segment.store_ s)) <= maxInt ->
  exists s',
    segment.Read s (uint64 (segment.baseOffset s + k)) = (s', Ok (stamped s rs k))
    /\ segment.index_ s' = segment.index_ s
    /\ store.contents (segment.store_ s') = store.contents (segment.store_ s).
Proof.
  intros Hcodec (Hwf & Hsz & _ & _ & _ & _ & Hentries) Hk Hk32 Hfl Hmax.
  destruct (Hentries k Hk) as (p & q & Hm & He & Hf).
  destruct (store_Read_frame _ q p Hfl Hmax Hf) as (st & Hrd & Hc & _ & _).
  unfold segment.Read.
  rewrite uint64_sub_l.
  replace (segment.baseOffset s + k - segment.baseOffset s) with k by lia.
  rewrite (uint64_id k), (int64_id k) by lia.
  destruct Hwf as [Hrange Hcap].
  rewrite index_Read_ok; rewrite ?slot_of_entry; try lia.
  rewrite He, Hrd.
  exists (segment.with_store s st). split; [|split; [reflexivity|exact Hc]].
  f_equal. apply Hcodec; [|exact Hm].
  unfold stamped, set_Offset, is_uint64. cbn [Offset]. apply uint64_range.
Qed.

(** Outside what the segment holds, as long as the relative offset fits
    32 bits, [Read] returns [io.EOF]. *)
Lemma segment_Read_beyond s rs off :
  seg_data s rs ->
  len rs <= uint64 (off - segment.baseOffset s) < 2 ^ 32 ->
  segment.Read s off = (s, Err io_EOF).
Proof.
  intros (Hwf & Hsz & _) Hd. unfold segment.Read.
  set (d := uint64 (off - segment.baseOffset s)) in *.
  pose proof (len_nonneg rs).
  rewrite (int64_id d) by lia.
  rewrite index_Read_eof; [reflexivity|].
  right. rewrite slot_of_entry by lia. lia.
Qed.
End Read_properties.

(** ** Close and reconstruction *)

Lemma zeros_nonpos n : n <= 0 -> zeros n = [].
Proof. intros. unfold zeros. replace (Z.to_nat n) with O by lia. reflexivity. Qed.

Section Reopen_properties.
Context {E : Env}.

(** What [Close] leaves in the directory, when it succeeds. *)
Lemma segment_Close_Ok s rs d :
  seg_data s rs ->
  segment.Close s = (d, Ok tt) ->
  segment.indexFile d = take (12 * len rs) (index.mmap (segment.index_ s))
  /\ segment.storeFile d = store.contents (segment.store_ s).
Proof.
  intros (Hwf & Hsz & _) H. destruct Hwf as [Hrange Hcap]. unfold maxInt in Hcap.
  unfold segment.Close, index.Close in H.
  rewrite int64_id, os_Truncate_ok in H by lia.
  unfold store.Close in H.
  destruct (bufio.Flush (store.File (segment.store_ s)) (store.buf (segment.store_ s)))
    as [[fs b1] err] eqn:Hfl.
  apply Flush_spec in Hfl. destruct Hfl as (Hbytes & _ & _ & Hnone).
  destruct err as [e|]; [inversion H|].
  destruct (Hnone eq_refl) as [Hb1 _]. rewrite Hb1, app_nil_r in Hbytes.
  inversion H; subst. cbn [segment.indexFile segment.storeFile].
  rewrite zeros_nonpos, app_nil_r by lia. rewrite Hsz. auto.
Qed.

(** Closing a segment and building it again over the files left behind:
    the new segment holds the same records; its next offset comes from the
    slot that [index.Read (-1)] looks at. *)
Lemma segment_reopen s rs d :
  seg_data s rs ->
  segment.Close s = (d, Ok tt) ->
  exists s2,
    segment.newSegment d (segment.baseOffset s) (segment.config s) = Ok s2
    /\ seg_data s2 rs
    /\ segment.baseOffset s2 = segment.baseOffset s
    /\ segment.config s2 = segment.config s
    /\ segment.nextOffset s2
       = (if len rs =? 0 then segment.baseOffset s
          else uint64 (segment.baseOffset s + uint32 (len rs - 1) + 1))
    /\ store.buf (segment.store_ s2) = bufio.NewWriter
    /\ store.contents (segment.store_ s2) = store.contents (segment.store_ s).
Proof.
  intros Hdata Hclose.
  destruct (segment_Close_Ok s rs d Hdata Hclose) as (Hfi & Hfs).
  destruct Hdata as (Hwf & Hsz & [HM Hcap] & Hswf & Hwerr & Hssz & Hentries).
  pose proof Hwf as [Hrange Hmax]. unfold maxInt in Hmax.
  pose proof (len_nonneg rs) as HN. set (N := len rs) in *.
  set (B := segment.baseOffset s) in *. set (c := segment.config s) in *.
  set (m := index.mmap (segment.index_ s)) in *.
  set (M := int64 (MaxIndexBytes (Segment c))) in *.
  set (fi := segment.indexFile d) in *.
  assert (Hlenfi : len fi = 12 * N) by (rewrite Hfi; apply len_take; lia).
  set (ix := {| index.mmap := fi ++ zeros (M - 12 * N); index.size := 12 * N |}).
  assert (Hnew : index.newIndex fi c = Ok ix).
  { unfold index.newIndex. fold M. rewrite os_Truncate_ok by lia.
    rewrite len_Truncate by lia.
    destruct (Z.eqb_spec M 0); [lia|].
    rewrite take_all, Hlenfi, uint64_id by lia. reflexivity. }
  assert (Hlenix : len (index.mmap ix) = M).
  { unfold ix. cbn [index.mmap]. rewrite len_app, len_zeros by lia. lia. }
  assert (Hwfix : index_wf ix).
  { unfold index_wf, maxInt. rewrite Hlenix. unfold ix. cbn [index.size]. lia. }
  assert (Hslots : forall k, 0 <= k < N -> entry_at (index.mmap ix) k = entry_at m k).
  { intros k Hk. unfold ix. cbn [index.mmap].
    rewrite entry_at_prefix by lia. rewrite Hfi. apply entry_at_take; lia. }
  set (st := store.newStore (segment.storeFile d)).
  assert (Hcontents : store.contents st = store.contents (segment.store_ s)).
  { unfold st, store.contents, store.newStore. cbn [store.File store.buf bufio.wbuf bufio.NewWriter].
    rewrite app_nil_r. exact Hfs. }
  assert (Hrest : forall next,
            seg_data {| segment.store_ := st; segment.index_ := ix;
                        segment.baseOffset := B; segment.nextOffset := next;
                        segment.config := c |} rs).
  { intros next. unfold seg_data.
    cbn [segment.store_ segment.index_ segment.baseOffset segment.config].
    split; [exact Hwfix|]. split; [reflexivity|]. split; [split; [exact HM|exact Hlenix]|].
    split; [unfold store_wf, st; cbn; unfold len, bufio.defaultBufSize; simpl; lia|].
    split; [reflexivity|].
    split; [rewrite Hcontents, <- Hfs; reflexivity|].
    intros k Hk. destruct (Hentries k Hk) as (p & q & Hm & He & Hf).
    exists p, q. cbn [segment.store_ segment.index_].
    split; [exact Hm|]. split; [rewrite Hslots by lia; exact He|].
    rewrite Hcontents. exact Hf. }
  unfold segment.newSegment. fold fi. rewrite Hnew. fold st.
  destruct (Z.eqb_spec N 0) as [HN0|HN0].
  - rewrite index_Read_eof by (left; unfold ix; cbn [index.size]; lia).
    eexists. split; [reflexivity|]. split; [apply Hrest|]. cbn. auto 10.
  - assert (Hslot : slot_of ix (-1) = uint32 (N - 1)).
    { unfold slot_of. change (-1 =? -1) with true. cbv iota.
      unfold index.entWidth, index.offWidth, index.posWidth, ix. cbn [index.size].
      change (4 + 8) with 12. rewrite Z.mul_comm, Z.div_mul by lia.
      rewrite uint64_id by lia. reflexivity. }
    pose proof (uint32_range (N - 1)) as Hj.
    assert (Hj' : uint32 (N - 1) <= N - 1).
    { unfold uint32. apply Z.mod_le; lia. }
    assert (Hsix : index.size ix = 12 * N) by reflexivity.
    rewrite index_Read_ok by (rewrite ?Hslot, ?Hsix, ?Hlenix; lia).
    rewrite Hslot, Hslots by lia.
    destruct (Hentries (uint32 (N - 1))) as (p & q & _ & He & _); [lia|].
    fold m in He. rewrite He, uint32_uint32.
    eexists. split; [reflexivity|]. split; [apply Hrest|]. cbn. auto 10.
Qed.
End Reopen_properties.

(** ** When nothing fails

    In a [reliable] environment an [Append] can only fail for want of room
    in the index. *)

Section Reliable_environment.
Context {E : Env}.
Hypothesis Hrel : reliable E.

Lemma reliable_os_Write f p : os.Write f p = (f ++ p, length p, None).
Proof.
  unfold os.Write. destruct Hrel as [_ Hacc]. specialize (Hacc f p).
  rewrite Nat.min_r by lia. rewrite firstn_all, Nat.ltb_irrefl. reflexivity.
Qed.

Lemma reliable_Flush f b :
  bufio.werr b = None -> snd (bufio.Flush f b) = None.
Proof.
  intros He. unfold bufio.Flush. rewrite He.
  destruct (bufio.wbuf b); [reflexivity|]. rewrite reliable_os_Write. reflexivity.
Qed.

Lemma reliable_Write_loop fuel : forall f b p nn f' b' p' nn',
  bufio.werr b = None ->
  bufio.Write_loop fuel f b p nn = (f', b', p', nn') -> bufio.werr b' = None.
Proof.
  induction fuel as [|fuel IH]; intros f b p nn f' b' p' nn' He H.
  - cbn [bufio.Write_loop] in H. destruct (_ && _); inversion H; subst; assumption.
  - rewrite Write_loop_S in H.
    destruct ((bufio.Available b <? len p) && is_none (bufio.werr b));
      [|inversion H; subst; assumption].
    destruct (bufio.wbuf b) as [|x l].
    + rewrite reliable_os_Write in H. eapply IH; [|exact H]. reflexivity.
    + cbv zeta in H.
      match type of H with context [bufio.Flush ?f0 ?b0] =>
        pose proof (reliable_Flush f0 b0 He) as Hfl;
        destruct (bufio.Flush f0 b0) as [[f1 b1] err1] eqn:Hf end.
      cbn [snd] in Hfl. subst err1. apply Flush_spec in Hf.
      destruct Hf as (_ & Hb1 & _). eapply IH; [exact Hb1|exact H].
Qed.

Lemma reliable_Write f b p :
  bufio.werr b = None ->
  exists f' b' n, bufio.Write f b p = (f', b', n, None).
Proof.
  intros He. unfold bufio.Write.
  destruct (bufio.Write_loop 2 f b p 0) as [[[f1 b1] p1] nn1] eqn:Hl.
  rewrite (reliable_Write_loop _ _ _ _ _ _ _ _ _ He Hl). eauto.
Qed.

Lemma reliable_store_Append s p :
  store_wf s -> bufio.werr (store.buf s) = None ->
  exists s' n pos, store.Append s p = (s', Ok (n, pos)).
Proof.
  intros Hwf He. unfold store.Append.
  destruct (reliable_Write (store.File s) (store.buf s) (PutUint64 (uint64 (len p))) He)
    as (f1 & b1 & n1 & Hw1).
  rewrite Hw1. pose proof (Write_spec _ _ _ _ _ _ _ Hwf Hw1) as (He1 & _).
  destruct (reliable_Write f1 b1 p He1) as (f2 & b2 & n2 & Hw2).
  rewrite Hw2. eauto.
Qed.

Lemma reliable_segment_Append s rs r :
  seg_data s rs ->
  12 * (len rs + 1) <= int64 (MaxIndexBytes (Segment (segment.config s))) ->
  exists s', segment.Append s r = (s', Ok (segment.nextOffset s)).
Proof.
  intros (Hwf & Hsz & [_ Hcap] & Hswf & Hwerr & _) Hroom.
  unfold segment.Append.
  destruct Hrel as [Hm _].
  destruct (Hm (set_Offset r (segment.nextOffset s))) as [p Hp]. rewrite Hp.
  destruct (reliable_store_Append (segment.store_ s) p Hswf Hwerr) as (st & n & pos & Hs).
  rewrite Hs. rewrite index_Write_ok by (assumption || lia). eauto.
Qed.

Lemma reliable_AppendAll rs : forall s rs0,
  seg_rep s rs0 ->
  12 * (len rs0 + len rs) <= int64 (MaxIndexBytes (Segment (segment.config s))) ->
  exists s' outs, segment.AppendAll s rs = (s', outs) /\ all_ok outs.
Proof.
  induction rs as [|r rs IH]; intros s rs0 Hrep Hroom.
  - exists s, []. split; [reflexivity|constructor].
  - rewrite len_cons in Hroom. pose proof (len_nonneg rs).
    destruct (reliable_segment_Append s rs0 r (proj2 Hrep)) as [s1 Ha]; [lia|].
    destruct (seg_rep_Append _ _ _ _ _ Hrep Ha) as (_ & Hrep1 & _ & Hc1).
    destruct (IH s1 (rs0 ++ [r]) Hrep1) as (s2 & outs & Hrun & Hok).
    { rewrite Hc1, len_app. change (len [r]) with 1. lia. }
    cbn [segment.AppendAll]. rewrite Ha, Hrun.
    eexists. eexists. split; [reflexivity|]. constructor; [eauto|assumption].
Qed.

Lemma reliable_Close s rs :
  seg_data s rs -> exists d, segment.Close s = (d, Ok tt).
Proof.
  intros (Hwf & Hsz & _ & _ & Hwerr & _). destruct Hwf as [Hrange Hmax].
  unfold maxInt in Hmax. unfold segment.Close, index.Close.
  rewrite int64_id, os_Truncate_ok by lia. unfold store.Close.
  pose proof (reliable_Flush (store.File (segment.store_ s)) _ Hwerr) as Hfl.
  destruct (bufio.Flush _ _) as [[fs b1] err]. cbn [snd] in Hfl. subst err. eauto.
Qed.
End Reliable_environment.

Lemma test_env_reliable : reliable test_env.
Proof.
  split.
  - intros r. eexists. reflexivity.
  - intros f p. cbn. lia.
Qed.

Lemma test_env_codec_sound : codec_sound test_env.
Proof.
  intros r p Hr Hm. change (fixed_Marshal r = Ok p) in Hm.
  change (fixed_Unmarshal p = Ok r).
  unfold fixed_Marshal in Hm. assert (Hp : p = PutUint64 (Offset r) ++ Value r) by congruence.
  clear Hm. subst p. unfold fixed_Unmarshal.
  rewrite len_app, len_PutUint64. pose proof (len_nonneg (Value r)).
  destruct (Z.ltb_spec (8 + len (Value r)) 8); [lia|].
  rewrite Uint64_PutUint64_app, uint64_id by exact Hr.
  rewrite <- (len_PutUint64 (Offset r)) at 1. rewrite drop_app_exact.
  destruct r; reflexivity.
Qed.

Lemma newSegment_fresh_Ok B c :
  0 < MaxIndexBytes (Segment c) <= maxInt ->
  exists s, segment.newSegment no_files B c = Ok s.
Proof.
  intros HM. unfold segment.newSegment. cbn [no_files segment.indexFile].
  rewrite newIndex_fresh by assumption.
  rewrite index_Read_eof by (left; reflexivity). eauto.
Qed.

(** *** C1: what was appended to a fresh segment is read back *)

(** C1.  A record appended to a fresh segment is read back at the offset
    [Append] returned (the base offset): the record read has the value of
    the record appended and that offset.  The codec decodes what it
    encoded, the flush that [store.Read] starts with goes through, and the
    store stays below the largest file offset. *)
Theorem C1_round_trip :
  forall (E : Env) c B r s0 s1 off,
    codec_sound E ->
    is_uint64 B ->
    segment.newSegment no_files B c = Ok s0 ->
    segment.Append s0 r = (s1, Ok off) ->
    snd (bufio.Flush (store.File (segment.store_ s1)) (store.buf (segment.store_ s1))) = None ->
    len (store.contents (segment.store_ s1)) <= maxInt ->
    off = B
    /\ exists s2 r',
         segment.Read s1 off = (s2, Ok r') /\ Value r' = Value r /\ Offset r' = off.
Proof.
  intros E c B r s0 s1 off Hcodec HB Hnew Happ Hfl Hmax.
  destruct (seg_rep_fresh B c s0 HB Hnew) as (Hrep0 & Hb0 & _).
  destruct (seg_rep_Append _ _ _ _ _ Hrep0 Happ) as (Hoff & [_ Hdata] & Hb1 & _).
  change (len (@nil api_Record)) with 0 in Hoff.
  rewrite Hb0, Z.add_0_r, uint64_id in Hoff by exact HB.
  split; [exact Hoff|].
  destruct (segment_Read_held s1 ([] ++ [r]) 0 Hcodec Hdata) as (s2 & Hrd & _);
    try assumption; try (cbn; lia).
  rewrite Hb1, Hb0, Z.add_0_r, uint64_id in Hrd by exact HB.
  exists s2, (stamped s1 ([] ++ [r]) 0). subst off.
  split; [exact Hrd|]. unfold stamped. cbn [app nth Z.to_nat set_Offset Value Offset].
  rewrite Hb1, Hb0, Z.add_0_r, uint64_id by exact HB. auto.
Qed.

Lemma C1_round_trip_witness :
  exists s0 s1,
    segment.newSegment no_files 0 (mkConfig 1024 36) = Ok s0
    /\ segment.Append (E := test_env) s0 (mkRecord hello 7) = (s1, Ok 0)
    /\ (0 = 0
        /\ exists s2 r',
             segment.Read (E := test_env) s1 0 = (s2, Ok r')
             /\ Value r' = hello /\ Offset r' = 0).
Proof.
  eexists. eexists.
  split; [vm_compute; reflexivity|].
  split; [vm_compute; reflexivity|].
  refine (C1_round_trip test_env (mkConfig 1024 36) 0 (mkRecord hello 7) _ _ 0
            test_env_codec_sound _ _ _ _ _).
  - unfold is_uint64. lia.
  - vm_compute. reflexivity.
  - vm_compute. reflexivity.
  - vm_compute. reflexivity.
  - vm_compute. discriminate.
Defined.

(** *** C3: the offsets of a run of appends *)

(** C3 (as amended).  On a segment created with base offset [B], [N]
    appends in a row that all succeed return [B], [B + 1], ...,
    [B + N - 1] in that order ([uint64] arithmetic); when [N <= 2^32],
    closing the segment and building it again over the same files gives a
    segment whose next successful append returns [B + N]. *)
Theorem C3_consecutive_offsets :
  forall (E : Env) c B rs s0 s1 outs,
    is_uint64 B ->
    segment.newSegment no_files B c = Ok s0 ->
    segment.AppendAll s0 rs = (s1, outs) ->
    all_ok outs ->
    len outs = len rs
    /\ (forall k, 0 <= k < len rs -> nth (Z.to_nat k) outs Panic = Ok (uint64 (B + k)))
    /\ (len rs <= 2 ^ 32 ->
        forall d, segment.Close s1 = (d, Ok tt) ->
        exists s2,
          segment.newSegment d B c = Ok s2
          /\ segment.nextOffset s2 = uint64 (B + len rs)
          /\ forall r s3 off,
               segment.Append s2 r = (s3, Ok off) -> off = uint64 (B + len rs)).
Proof.
  intros E c B rs s0 s1 outs HB Hnew Hrun Hok.
  destruct (seg_rep_fresh B c s0 HB Hnew) as (Hrep0 & Hb0 & Hc0).
  destruct (AppendAll_rep rs s0 [] s1 outs Hrep0 Hrun Hok)
    as ([_ Hdata] & Hb1 & Hc1 & Hlen & Hnth).
  cbn [app] in Hdata. change (len (@nil api_Record)) with 0 in Hnth.
  split; [exact Hlen|]. split.
  - intros k Hk. rewrite Hnth by exact Hk. rewrite Hb0. do 2 f_equal. lia.
  - intros HN d Hclose.
    destruct (segment_reopen s1 rs d Hdata Hclose) as (s2 & Hnew2 & _ & _ & _ & Hnext2 & _).
    rewrite Hb1, Hb0, Hc1, Hc0 in Hnew2. rewrite Hb1, Hb0 in Hnext2.
    assert (Hnext : segment.nextOffset s2 = uint64 (B + len rs)).
    { rewrite Hnext2. pose proof (len_nonneg rs).
      destruct (Z.eqb_spec (len rs) 0) as [H0|H0].
      - rewrite H0, Z.add_0_r. symmetry. apply uint64_id. exact HB.
      - rewrite uint32_id by lia. f_equal. lia. }
    exists s2. split; [exact Hnew2|]. split; [exact Hnext|].
    intros r s3 off Ha. apply segment_Append_Ok in Ha.
    destruct Ha as (_ & _ & _ & _ & _ & _ & _ & _ & Hoff & _). congruence.
Qed.

Lemma C3_consecutive_offsets_witness :
  exists s0 s1,
    segment.newSegment no_files 5 (mkConfig 1024 36) = Ok s0
    /\ segment.AppendAll (E := test_env) s0 [mkRecord hello 0; mkRecord world 0]
       = (s1, [Ok 5; Ok 6])
    /\ nth 1 [Ok 5; Ok 6] Panic = Ok (uint64 (5 + 1)).
Proof.
  eexists. eexists.
  split; [vm_compute; reflexivity|].
  split; [vm_compute; reflexivity|].
  refine (proj1 (proj2 (C3_consecutive_offsets test_env (mkConfig 1024 36) 5
                          [mkRecord hello 0; mkRecord world 0] _ _ [Ok 5; Ok 6] _ _ _ _))
                1 _).
  - unfold is_uint64. lia.
  - vm_compute. reflexivity.
  - vm_compute. reflexivity.
  - repeat constructor; eexists; reflexivity.
  - vm_compute. split; [discriminate|reflexivity].
Defined.

(** In a reliable environment the whole history goes through: a fresh
    segment, a run of appends that fits the index, [Close], [newSegment]
    over the files left behind, one more append.  The offset of that
    append comes from the low 32 bits of the last entry's number. *)
Lemma reliable_history (E : Env) c B rs r :
  reliable E ->
  is_uint64 B ->
  0 < MaxIndexBytes (Segment c) <= maxInt ->
  1 <= len rs ->
  12 * (len rs + 1) <= MaxIndexBytes (Segment c) ->
  exists s0 s1 outs d s2 s3,
    segment.newSegment no_files B c = Ok s0
    /\ segment.AppendAll s0 rs = (s1, outs)
    /\ all_ok outs
    /\ segment.Close s1 = (d, Ok tt)
    /\ segment.newSegment d B c = Ok s2
    /\ segment.Append s2 r = (s3, Ok (uint64 (B + uint32 (len rs - 1) + 1))).
Proof.
  intros Hrel HB HM Hlen Hroom.
  assert (HMi : int64 (MaxIndexBytes (Segment c)) = MaxIndexBytes (Segment c))
    by (apply int64_id; unfold maxInt in HM; lia).
  destruct (newSegment_fresh_Ok B c HM) as [s0 Hnew].
  destruct (seg_rep_fresh B c s0 HB Hnew) as (Hrep0 & Hb0 & Hc0).
  destruct (reliable_AppendAll Hrel rs s0 [] Hrep0) as (s1 & outs & Hrun & Hok).
  { rewrite Hc0, HMi. change (len (@nil api_Record)) with 0. lia. }
  destruct (AppendAll_rep rs s0 [] s1 outs Hrep0 Hrun Hok)
    as ([_ Hdata] & Hb1 & Hc1 & _ & _).
  cbn [app] in Hdata.
  destruct (reliable_Close Hrel s1 rs Hdata) as [d Hclose].
  destruct (segment_reopen s1 rs d Hdata Hclose)
    as (s2 & Hnew2 & Hdata2 & Hb2 & Hc2 & Hnext2 & _).
  rewrite Hb1, Hb0, Hc1, Hc0 in Hnew2. rewrite Hb1, Hb0 in Hnext2.
  destruct (Z.eqb_spec (len rs) 0) as [H0|_]; [lia|].
  destruct (reliable_segment_Append Hrel s2 rs r Hdata2) as [s3 Ha].
  { rewrite Hc2, Hc1, Hc0, HMi. lia. }
  rewrite Hnext2 in Ha.
  exists s0, s1, outs, d, s2, s3. auto 10.
Qed.

(** C3, as stated, fails for [N = 2^32 + 1]: with room for [2^32 + 2]
    entries in the index, the appends succeed, [Close] and [newSegment]
    succeed, and the next append returns 1, not [0 + N]. *)
Lemma C3_counterexample :
  let c := mkConfig 1024 51539607576 in
  let rs := repeat empty_Record (Z.to_nat 4294967297) in
  exists s0 s1 outs d s2 s3,
    segment.newSegment no_files 0 c = Ok s0
    /\ segment.AppendAll (E := test_env) s0 rs = (s1, outs)
    /\ all_ok outs
    /\ segment.Close (E := test_env) s1 = (d, Ok tt)
    /\ segment.newSegment d 0 c = Ok s2
    /\ segment.Append (E := test_env) s2 empty_Record = (s3, Ok 1)
    /\ len rs = 4294967297.
Proof.
  intros c rs.
  assert (Hlen : len rs = 4294967297).
  { unfold rs, len. rewrite repeat_length. apply Z2Nat.id. lia. }
  assert (HM : MaxIndexBytes (Segment c) = 51539607576) by reflexivity.
  destruct (reliable_history test_env c 0 rs empty_Record test_env_reliable)
    as (s0 & s1 & outs & d & s2 & s3 & H0 & H1 & H2 & H3 & H4 & H5).
  - unfold is_uint64. lia.
  - rewrite HM. unfold maxInt. lia.
  - rewrite Hlen. lia.
  - rewrite Hlen, HM. lia.
  - rewrite Hlen in H5. change (uint64 (0 + uint32 (4294967297 - 1) + 1)) with 1 in H5.
    exists s0, s1, outs, d, s2, s3. auto 10.
Qed.

(** ** Sessions: what survives a close and a new construction *)

(** On an index whose lengths are lengths of files [Write] returns [nil]
    or [io.EOF] and keeps the lengths so. *)
Lemma index_Write_sane i o p :
  index_sane i ->
  snd (index.Write i o p) <> Panic /\ index_sane (fst (index.Write i o p)).
Proof.
  intros [Hs Hm]. unfold maxInt in *.
  destruct (Z.le_gt_cases (index.size i + 12) (len (index.mmap i))) as [Hfit|Hfull].
  - assert (Hwf : index_wf i) by (unfold index_wf, maxInt; lia).
    pose proof (index_Write_ok i o p Hwf Hfit) as Hw.
    pose proof (index_Write_wf i o p _ _ Hwf Hw) as [Hr' Hm'].
    rewrite Hw. cbn [fst snd] in *. split; [discriminate|].
    unfold index_sane, maxInt in *. lia.
  - unfold index.Write.
    assert (Hmaxed : index.isMaxed i = true).
    { unfold index.isMaxed. unfold_widths. change (4 + 8) with 12.
      pose proof (len_nonneg (index.mmap i)).
      rewrite !uint64_id by lia. apply Z.ltb_lt. lia. }
    rewrite Hmaxed. cbn [fst snd]. split; [discriminate|].
    unfold index_sane, maxInt. lia.
Qed.

Section Sessions.
Context {E : Env}.











End Sessions.

(** *** C4: recovery of the next offset and of the records *)




(** ** Capacity *)

Section Capacity.
Context {E : Env}.

(** What [IsMaxed] answers on a segment that holds [rs]. *)
Lemma IsMaxed_seg_data s rs :
  seg_data s rs ->
  0 <= MaxIndexBytes (Segment (segment.config s)) <= maxInt ->
  12 * len rs <= MaxIndexBytes (Segment (segment.config s))
  /\ (12 * len rs = MaxIndexBytes (Segment (segment.config s)) ->
      segment.IsMaxed s = true
      /\ forall o p,
           index.Write (segment.index_ s) o p = (segment.index_ s, Err io_EOF))
  /\ (12 * (len rs + 1) <= MaxIndexBytes (Segment (segment.config s)) ->
      segment.IsMaxed s
      = (MaxStoreBytes (Segment (segment.config s)) <=? store.size (segment.store_ s))).
Proof.
  intros (Hwf & Hsz & [_ Hcap] & _) HM. unfold maxInt in HM.
  rewrite int64_id in Hcap by lia.
  pose proof Hwf as [Hrange Hmax].
  split; [lia|]. split.
  - intros Hfull. split.
    + unfold segment.IsMaxed. rewrite Hsz, Hfull, Z.leb_refl.
      rewrite orb_true_r. reflexivity.
    + intros o p. apply index_Write_full; [exact Hwf|lia].
  - intros Hroom. unfold segment.IsMaxed.
    destruct (Z.leb_spec (MaxIndexBytes (Segment (segment.config s)))
                         (index.size (segment.index_ s))); [lia|].
    destruct (index.isMaxed (segment.index_ s)) eqn:Hmx.
    + apply (index_isMaxed_iff _ Hwf) in Hmx. lia.
    + rewrite !orb_false_r. reflexivity.
Qed.

(** On a full index no [Append] succeeds. *)
Lemma segment_Append_full s r s' res :
  (forall o p, index.Write (segment.index_ s) o p = (segment.index_ s, Err io_EOF)) ->
  segment.Append s r = (s', res) ->
  forall off, res <> Ok off.
Proof.
  intros Hfull H off Hres. subst res. apply segment_Append_Ok in H.
  destruct H as (_ & _ & _ & pos & ix & _ & _ & Hw & _). rewrite Hfull in Hw. discriminate.
Qed.
End Capacity.

(** *** C5: a full index *)

(** C5.  With [MaxIndexBytes = 12 * K]: on the fresh index [K] writes
    succeed and one more fails with [io.EOF]; a segment takes at most [K]
    appends; after [K] successful appends [IsMaxed] is true, a write to
    its index fails with [io.EOF] and no further [Append] succeeds; before
    that [IsMaxed] only tells whether the store has reached
    [MaxStoreBytes].  In the scenario of the spec (1024 and 36 bytes, base
    offset 0, the values hello, world and foo) the offsets are 0, 1, 2 and
    [IsMaxed] turns true with the third append, the store staying below
    1024 bytes. *)
Theorem C5_capacity :
  forall (E : Env),
    (forall K c,
        1 <= K ->
        MaxIndexBytes (Segment c) = 12 * K ->
        12 * K <= maxInt ->
        (forall ws, len ws = K ->
           exists i,
             WriteAll {| index.mmap := zeros (12 * K); index.size := 0 |} ws
             = (i, repeat (Ok tt) (length ws))
             /\ forall o p, index.Write i o p = (i, Err io_EOF))
        /\ (forall B rs s0 s1 outs,
              is_uint64 B ->
              segment.newSegment no_files B c = Ok s0 ->
              segment.AppendAll s0 rs = (s1, outs) ->
              all_ok outs ->
              len rs <= K
              /\ (len rs = K ->
                  segment.IsMaxed s1 = true
                  /\ (forall o p,
                        index.Write (segment.index_ s1) o p
                        = (segment.index_ s1, Err io_EOF))
                  /\ (forall r s2 res,
                        segment.Append s1 r = (s2, res) -> forall off, res <> Ok off))
              /\ (len rs < K ->
                  segment.IsMaxed s1
                  = (MaxStoreBytes (Segment c) <=? store.size (segment.store_ s1)))))
    /\ (forall s0 s1 s2 s3 a b c o1 o2 o3,
          segment.newSegment no_files 0 (mkConfig 1024 36) = Ok s0 ->
          segment.Append s0 (mkRecord hello a) = (s1, Ok o1) ->
          segment.Append s1 (mkRecord world b) = (s2, Ok o2) ->
          segment.Append s2 (mkRecord foo c) = (s3, Ok o3) ->
          store.size (segment.store_ s1) < 1024 ->
          store.size (segment.store_ s2) < 1024 ->
          (o1, o2, o3) = (0, 1, 2)
          /\ segment.IsMaxed s0 = false
          /\ segment.IsMaxed s1 = false
          /\ segment.IsMaxed s2 = false
          /\ segment.IsMaxed s3 = true
          /\ (forall o p,
                index.Write (segment.index_ s3) o p = (segment.index_ s3, Err io_EOF))
          /\ (forall r s4 res,
                segment.Append s3 r = (s4, res) -> forall off, res <> Ok off)).
Proof.
  intros E. split.
  - intros K c HK HM Hmax. split.
    + intros ws Hws.
      destruct (index_run_from_fresh c ws) as (i & Hrun & Hm & Hs & Hwf);
        [rewrite HM; lia|rewrite HM; lia|].
      rewrite HM in Hrun. exists i. split; [exact Hrun|].
      intros o p. apply index_Write_full; [exact Hwf|].
      rewrite Hm, len_app, len_entries, len_drop, len_zeros; rewrite ?len_zeros; lia.
    + intros B rs s0 s1 outs HB Hnew Hrun Hok.
      destruct (seg_rep_fresh B c s0 HB Hnew) as (Hrep0 & Hb0 & Hc0).
      destruct (AppendAll_rep rs s0 [] s1 outs Hrep0 Hrun Hok)
        as ([_ Hdata] & _ & Hc1 & _ & _).
      cbn [app] in Hdata.
      destruct (IsMaxed_seg_data s1 rs Hdata) as (Hle & Hfull & Hroom);
        [rewrite Hc1, Hc0, HM; lia|].
      rewrite Hc1, Hc0, HM in *.
      split; [lia|]. split.
      * intros HN. destruct Hfull as [Hmaxed Hw]; [lia|].
        split; [exact Hmaxed|]. split; [exact Hw|].
        intros r s2 res Ha. eapply segment_Append_full; eassumption.
      * intros HN. apply Hroom. lia.
  - intros s0 s1 s2 s3 a b c o1 o2 o3 Hnew H1 H2 H3 Hsz1 Hsz2.
    assert (HB : is_uint64 0) by (unfold is_uint64; lia).
    destruct (seg_rep_fresh 0 _ s0 HB Hnew) as (Hrep0 & Hb0 & Hc0).
    destruct (seg_rep_Append _ _ _ _ _ Hrep0 H1) as (Ho1 & Hrep1 & Hb1 & Hc1).
    destruct (seg_rep_Append _ _ _ _ _ Hrep1 H2) as (Ho2 & Hrep2 & Hb2 & Hc2).
    destruct (seg_rep_Append _ _ _ _ _ Hrep2 H3) as (Ho3 & Hrep3 & Hb3 & Hc3).
    rewrite Hb0 in Ho1. rewrite Hb1, Hb0 in Ho2. rewrite Hb2, Hb1, Hb0 in Ho3.
    assert (Hc : forall s, segment.config s = mkConfig 1024 36 ->
                 MaxIndexBytes (Segment (segment.config s)) = 36
                 /\ MaxStoreBytes (Segment (segment.config s)) = 1024)
      by (intros s ->; split; reflexivity).
    destruct (Hc s0 Hc0) as [Hi0 Hs0].
    destruct (Hc s1 (eq_trans Hc1 Hc0)) as [Hi1 Hs1].
    destruct (Hc s2 (eq_trans Hc2 (eq_trans Hc1 Hc0))) as [Hi2 Hs2].
    destruct (Hc s3 (eq_trans Hc3 (eq_trans Hc2 (eq_trans Hc1 Hc0)))) as [Hi3 Hs3].
    destruct (IsMaxed_seg_data s0 _ (proj2 Hrep0)) as (_ & _ & Hm0);
      [rewrite Hi0; unfold maxInt; lia|].
    destruct (IsMaxed_seg_data s1 _ (proj2 Hrep1)) as (_ & _ & Hm1);
      [rewrite Hi1; unfold maxInt; lia|].
    destruct (IsMaxed_seg_data s2 _ (proj2 Hrep2)) as (_ & _ & Hm2);
      [rewrite Hi2; unfold maxInt; lia|].
    destruct (IsMaxed_seg_data s3 _ (proj2 Hrep3)) as (_ & Hm3 & _);
      [rewrite Hi3; unfold maxInt; lia|].
    rewrite Hi0, Hs0 in Hm0. rewrite Hi1, Hs1 in Hm1. rewrite Hi2, Hs2 in Hm2.
    rewrite Hi3 in Hm3.
    destruct Hm3 as [Hmaxed Hw]; [reflexivity|].
    assert (Hst0 : store.size (segment.store_ s0) = 0).
    { apply newSegment_Ok in Hnew. destruct Hnew as (_ & _ & _ & -> & _). reflexivity. }
    split; [subst o1 o2 o3; reflexivity|].
    split; [rewrite Hm0 by (cbn; lia); rewrite Hst0; reflexivity|].
    split; [rewrite Hm1 by (cbn; lia); apply Z.leb_gt; exact Hsz1|].
    split; [rewrite Hm2 by (cbn; lia); apply Z.leb_gt; exact Hsz2|].
    split; [exact Hmaxed|]. split; [exact Hw|].
    intros r s4 res Ha. eapply segment_Append_full; eassumption.
Qed.

Lemma C5_capacity_witness :
  (0, 1, 2) = (0, 1, 2)
  /\ segment.IsMaxed scenario_s0 = false
  /\ segment.IsMaxed scenario_s1 = false
  /\ segment.IsMaxed scenario_s2 = false
  /\ segment.IsMaxed scenario_s3 = true.
Proof.
  destruct (proj2 (C5_capacity test_env) scenario_s0 scenario_s1 scenario_s2 scenario_s3
              0 0 0 0 1 2) as (H & H0 & H1 & H2 & H3 & _).
  - vm_compute. reflexivity.
  - vm_compute. reflexivity.
  - vm_compute. reflexivity.
  - vm_compute. reflexivity.
  - vm_compute. reflexivity.
  - vm_compute. reflexivity.
  - repeat split; assumption.
Defined.

(** ** Reads outside the offsets a segment holds *)

Section Read_by_slot.
Context {E : Env}.

(** [segment.Read] returns the record of the slot [index.Read] looks at,
    whatever offset led there. *)
Lemma segment_Read_slot s rs off k :
  codec_sound E ->
  seg_data s rs ->
  0 <= k < len rs ->
  slot_of (segment.index_ s) (int64 (uint64 (off - segment.baseOffset s))) = k ->
  snd (bufio.Flush (store.File (segment.store_ s)) (store.buf (segment.store_ s))) = None ->
  len (store.contents (segment.store_ s)) <= maxInt ->
  exists s', segment.Read s off = (s', Ok (stamped s rs k)).
Proof.
  intros Hcodec (Hwf & Hsz & _ & _ & _ & _ & Hentries) Hk Hslot Hfl Hmax.
  destruct (Hentries k Hk) as (p & q & Hm & He & Hf).
  destruct (store_Read_frame _ q p Hfl Hmax Hf) as (st & Hrd & _).
  destruct Hwf as [Hrange Hcap].
  unfold segment.Read.
  rewrite index_Read_ok by (rewrite ?Hslot; lia).
  rewrite Hslot, He, Hrd.
  exists (segment.with_store s st). f_equal. apply Hcodec; [|exact Hm].
  unfold stamped, set_Offset, is_uint64. cbn [Offset]. apply uint64_range.
Qed.
End Read_by_slot.

(** *** C2: offsets outside the range of a segment *)

(** C2 (what the code does).  On a segment that holds [N] records,
    [1 <= N <= 2^32], appended from base offset [B]: [Read (B - 1)], an
    offset below the base, returns the last record, because the relative
    offset [-1] is what [index.Read] takes for "the last entry"; [Read] of
    an offset [2^32] above a held one returns the held record, because the
    relative offset is cut to 32 bits; for the other offsets outside the
    range whose relative offset fits 32 bits, [Read] fails with [io.EOF]
    as C2 says. *)
Theorem C2_Read_outside_the_range :
  forall (E : Env) c B rs s0 s1 outs,
    codec_sound E ->
    is_uint64 B ->
    segment.newSegment no_files B c = Ok s0 ->
    segment.AppendAll s0 rs = (s1, outs) ->
    all_ok outs ->
    1 <= len rs <= 2 ^ 32 ->
    snd (bufio.Flush (store.File (segment.store_ s1)) (store.buf (segment.store_ s1))) = None ->
    len (store.contents (segment.store_ s1)) <= maxInt ->
    segment.baseOffset s1 = B
    /\ segment.nextOffset s1 = uint64 (B + len rs)
    /\ (1 <= B ->
        exists s2,
          segment.Read s1 (B - 1)
          = (s2, Ok (set_Offset (nth (Z.to_nat (len rs - 1)) rs empty_Record)
                                (uint64 (B + (len rs - 1))))))
    /\ (forall k, 0 <= k < len rs -> B + 2 ^ 32 + k < 2 ^ 64 ->
        exists s2,
          segment.Read s1 (B + 2 ^ 32 + k)
          = (s2, Ok (set_Offset (nth (Z.to_nat k) rs empty_Record) (uint64 (B + k)))))
    /\ (forall off,
          len rs <= uint64 (off - B) < 2 ^ 32 ->
          segment.Read s1 off = (s1, Err io_EOF)).
Proof.
  intros E c B rs s0 s1 outs Hcodec HB Hnew Hrun Hok HN Hfl Hmax.
  destruct (seg_rep_fresh B c s0 HB Hnew) as (Hrep0 & Hb0 & Hc0).
  destruct (AppendAll_rep rs s0 [] s1 outs Hrep0 Hrun Hok)
    as ([Hnext Hdata] & Hb1 & Hc1 & _ & _).
  cbn [app] in Hdata, Hnext. rewrite Hb0 in Hb1. rewrite Hb1 in Hnext.
  pose proof Hdata as (Hwf & Hsz & _).
  split; [exact Hb1|]. split; [exact Hnext|]. split; [|split].
  - intros HB1.
    destruct (segment_Read_slot s1 rs (B - 1) (len rs - 1) Hcodec Hdata) as [s2 Hrd];
      try assumption; try lia.
    + rewrite Hb1. replace (B - 1 - B) with (-1) by lia.
      change (int64 (uint64 (-1))) with (-1).
      unfold slot_of. change (-1 =? -1) with true. cbv iota.
      unfold index.entWidth, index.offWidth, index.posWidth. rewrite Hsz.
      change (4 + 8) with 12. rewrite Z.mul_comm, Z.div_mul by lia.
      rewrite uint64_id, uint32_id; lia.
    + exists s2. rewrite Hrd. unfold stamped. rewrite Hb1. reflexivity.
  - intros k Hk Hfit. unfold is_uint64 in HB.
    destruct (segment_Read_slot s1 rs (B + 2 ^ 32 + k) k Hcodec Hdata) as [s2 Hrd];
      try assumption.
    + rewrite Hb1. replace (B + 2 ^ 32 + k - B) with (2 ^ 32 + k) by lia.
      rewrite uint64_id, int64_id by lia.
      unfold slot_of. destruct (Z.eqb_spec (2 ^ 32 + k) (-1)); [lia|].
      unfold uint32. rewrite Z.add_comm.
      replace (k + 2 ^ 32) with (k + 1 * 2 ^ 32) by lia.
      rewrite Z.mod_add by lia. apply Z.mod_small. lia.
    + exists s2. rewrite Hrd. unfold stamped. rewrite Hb1. reflexivity.
  - intros off Hoff. apply (segment_Read_beyond s1 rs off Hdata). rewrite Hb1. exact Hoff.
Qed.

Lemma C2_Read_outside_the_range_witness :
  segment.baseOffset based_s1 = 1
  /\ segment.nextOffset based_s1 = 2
  /\ (exists s2, segment.Read (E := test_env) based_s1 0 = (s2, Ok (mkRecord hello 1)))
  /\ (exists s2,
        segment.Read (E := test_env) based_s1 4294967297 = (s2, Ok (mkRecord hello 1))).
Proof.
  destruct (C2_Read_outside_the_range test_env demo_config 1 [mkRecord hello 0]
              based_s0 based_s1 [Ok 1] test_env_codec_sound)
    as (Hb & Hn & Hbelow & Halias & _).
  - unfold is_uint64. lia.
  - vm_compute. reflexivity.
  - vm_compute. reflexivity.
  - repeat constructor; eexists; reflexivity.
  - vm_compute. split; discriminate.
  - vm_compute. reflexivity.
  - vm_compute. discriminate.
  - split; [exact Hb|]. split; [exact Hn|]. split.
    + apply Hbelow. lia.
    + apply (Halias 0); vm_compute; [split; [discriminate|reflexivity]|reflexivity].
Defined.

(** * Further properties of the code *)

(** ** The store: reading what was appended *)

Lemma int64_high z : 2 ^ 63 <= z < 2 ^ 64 -> int64 z = z - 2 ^ 64.
Proof.
  intros H. unfold int64.
  replace (z + 2 ^ 63) with (z - 2 ^ 63 + 1 * 2 ^ 64) by lia.
  rewrite Z.mod_add by lia. rewrite Z.mod_small by lia. lia.
Qed.

Lemma len_frames_app ps qs : len (frames (ps ++ qs)) = len (frames ps) + len (frames qs).
Proof. unfold frames. rewrite flat_map_app, len_app. reflexivity. Qed.

Lemma len_frames_cons p ps : len (frames (p :: ps)) = 8 + len p + len (frames ps).
Proof. unfold frames. cbn [flat_map]. rewrite len_app, len_frame. reflexivity. Qed.

Section Store_runs.
Context {E : Env}.

Lemma store_ok_newStore f : len f <= maxInt -> store_ok (store.newStore f).
Proof.
  intros Hf. pose proof (len_nonneg f). unfold maxInt in Hf.
  unfold store_ok, store_wf, store.newStore, store.contents.
  cbn [store.File store.buf store.size bufio.NewWriter bufio.wbuf bufio.werr].
  rewrite app_nil_r, uint64_id by lia.
  split; [unfold len, bufio.defaultBufSize; simpl; lia|]. split; reflexivity.
Qed.

(** One successful [Append] on a store whose size counts its bytes. *)
Lemma store_ok_Append s p s' n pos :
  store_ok s ->
  len (store.contents s) + (8 + len p) <= maxInt ->
  store.Append s p = (s', Ok (n, pos)) ->
  store_ok s'
  /\ store.contents s' = store.contents s ++ frame p
  /\ pos = len (store.contents s)
  /\ n = 8 + len p.
Proof.
  intros (Hwf & Herr & Hsz) Hmax H. unfold maxInt in Hmax.
  pose proof (len_nonneg p). pose proof (len_nonneg (store.contents s)).
  destruct (store_Append_Ok s p s' n pos Hwf H) as (Hc & Hpos & Hn & Hs & He & Hwf').
  split; [|split; [exact Hc|split]].
  - split; [exact Hwf'|]. split; [exact He|].
    rewrite Hs, Hc, len_app, len_frame, Hsz, uint64_id; lia.
  - rewrite Hpos. exact Hsz.
  - rewrite Hn, uint64_id; lia.
Qed.

(** A flush that goes through leaves the bytes in the file. *)
Lemma Flush_None f b :
  snd (bufio.Flush f b) = None ->
  bufio.Flush f b = (f ++ bufio.wbuf b, {| bufio.wbuf := []; bufio.werr := None |}, None).
Proof.
  intros H. destruct (bufio.Flush f b) as [[f1 b1] err] eqn:Hf. cbn [snd] in H. subst err.
  apply Flush_spec in Hf. destruct Hf as (Hc & He & _ & Hnone).
  destruct (Hnone eq_refl) as [Hb1 _]. rewrite Hb1, app_nil_r in Hc. subst f1.
  destruct b1 as [w e]. cbn [bufio.wbuf bufio.werr] in *. subst. reflexivity.
Qed.

(** The state of a store after a run of appends that all succeeded. *)
Lemma store_AppendAll_spec ps : forall s s' outs,
  store_ok s ->
  len (store.contents s) + len (frames ps) <= maxInt ->
  store_AppendAll s ps = (s', outs) ->
  all_ok outs ->
  store_ok s'
  /\ store.contents s' = store.contents s ++ frames ps
  /\ len outs = len ps
  /\ forall k, 0 <= k < len ps ->
       nth (Z.to_nat k) outs Panic
       = Ok (8 + len (nth (Z.to_nat k) ps []),
             len (store.contents s) + len (frames (firstn (Z.to_nat k) ps))).
Proof.
  induction ps as [|p ps IH]; intros s s' outs Hok Hmax H Hall.
  - cbn [store_AppendAll] in H. inversion H; subst.
    split; [exact Hok|]. split; [unfold frames; cbn [flat_map]; rewrite app_nil_r; reflexivity|].
    split; [reflexivity|]. intros k Hk. unfold len in Hk. simpl in Hk. lia.
  - cbn [store_AppendAll] in H.
    destruct (store.Append s p) as [s1 o] eqn:Ha.
    destruct (store_AppendAll s1 ps) as [s2 os] eqn:Hr.
    inversion H; subst s2 outs. clear H.
    inversion Hall as [|x l [[n pos] Ho] Hall' Heq]; subst.
    rewrite len_frames_cons in Hmax.
    pose proof (len_nonneg (frames ps)) as Hfr. pose proof (len_nonneg p) as Hp.
    destruct (store_ok_Append s p s1 n pos Hok) as (Hok1 & Hc1 & Hpos & Hn);
      [lia|exact Ha|].
    destruct (IH s1 s' os Hok1) as (Hok' & Hc' & Hlen & Hnth);
      [rewrite Hc1, len_app, len_frame; lia|exact Hr|exact Hall'|].
    split; [exact Hok'|]. split.
    { rewrite Hc', Hc1, <- app_assoc. reflexivity. }
    split; [rewrite !len_cons, Hlen; reflexivity|].
    intros k Hk. rewrite len_cons in Hk.
    destruct (Z.eq_dec k 0) as [->|Hk0].
    + cbn [Z.to_nat nth firstn]. unfold frames at 1. cbn [flat_map].
      change (len (@nil byte)) with 0. rewrite Hn, Hpos. f_equal. f_equal. lia.
    + replace (Z.to_nat k) with (S (Z.to_nat (k - 1))) by lia.
      cbn [nth firstn]. rewrite Hnth by lia.
      rewrite Hc1, len_app, len_frame, len_frames_cons. f_equal. f_equal. lia.
Qed.
End Store_runs.

(** [store.Read] gives back what [store.Append] took: the payload just
    appended at the position [Append] returned, and every payload framed
    earlier at its own position, whether the bytes have reached the file
    or still wait in the buffer (the read flushes them). *)
Theorem store_Read_after_Append :
  forall (E : Env) s p s1 n pos,
    store_ok s ->
    len (store.contents s) + (8 + len p) <= maxInt ->
    store.Append s p = (s1, Ok (n, pos)) ->
    snd (bufio.Flush (store.File s1) (store.buf s1)) = None ->
    (exists s2, store.Read s1 pos = (s2, Ok p) /\ store.size s2 = store.size s1)
    /\ forall q x,
         frame_at (store.contents s) q x ->
         exists s2, store.Read s1 q = (s2, Ok x) /\ store.size s2 = store.size s1.
Proof.
  intros E s p s1 n pos Hok Hmax H Hfl.
  pose proof (len_nonneg p). pose proof (len_nonneg (store.contents s)).
  destruct (store_ok_Append s p s1 n pos Hok Hmax H) as (Hok1 & Hc1 & Hpos & Hn).
  assert (Hlen1 : len (store.contents s1) <= maxInt)
    by (rewrite Hc1, len_app, len_frame; lia).
  unfold maxInt in *.
  split.
  - destruct (store_Read_frame s1 (len (store.contents s)) p Hfl Hlen1) as (s2 & Hrd & _ & Hs & _).
    { rewrite Hc1. apply frame_at_end. }
    rewrite uint64_id in Hrd by lia. exists s2. rewrite Hpos. split; assumption.
  - intros q x Hq.
    destruct (store_Read_frame s1 q x Hfl Hlen1) as (s2 & Hrd & _ & Hs & _).
    { rewrite Hc1. apply frame_at_app. exact Hq. }
    destruct Hq as (Hq0 & Hq1 & _). pose proof (len_nonneg x).
    rewrite uint64_id in Hrd by lia. exists s2. split; assumption.
Qed.

Lemma store_Read_after_Append_witness :
  exists s2,
    store.Read (E := test_env) (fst (store.Append (E := test_env) (store.newStore []) hello)) 0
    = (s2, Ok hello).
Proof.
  destruct (store_Read_after_Append test_env (store.newStore []) hello
              (fst (store.Append (E := test_env) (store.newStore []) hello)) 13 0)
    as [(s2 & Hrd & _) _].
  - apply store_ok_newStore. vm_compute. discriminate.
  - vm_compute. discriminate.
  - vm_compute. reflexivity.
  - vm_compute. reflexivity.
  - exists s2. exact Hrd.
Defined.

(** [store.Read] at a position where no 8 bytes are left fails with
    [io.EOF] (so does every read of an empty store, and the read at the
    position just past the last entry); a position from [2^63] on is a
    negative file offset and is refused.  The store keeps its bytes. *)
Theorem store_Read_past_the_end :
  forall (E : Env) s pos,
    snd (bufio.Flush (store.File s) (store.buf s)) = None ->
    is_uint64 pos ->
    (pos < 2 ^ 63 -> len (store.contents s) < pos + 8 ->
     exists s', store.Read s pos = (s', Err io_EOF)
                /\ store.contents s' = store.contents s)
    /\ (2 ^ 63 <= pos ->
        exists s', store.Read s pos = (s', Err ErrNegativeOffset)
                   /\ store.contents s' = store.contents s).
Proof.
  intros E s pos Hfl Hpos. unfold is_uint64 in Hpos.
  apply Flush_None in Hfl. fold (store.contents s) in Hfl.
  split.
  - intros Hlow Hend. unfold store.Read. rewrite Hfl. eexists. split.
    + rewrite int64_id by lia. unfold os.ReadAt, store.lenWidth.
      destruct (Z.ltb_spec pos 0); [lia|]. cbn [Z.eqb].
      destruct (Z.ltb_spec (len (store.contents s)) (pos + 8)); [reflexivity|lia].
    + unfold store.contents. cbn [store.File store.buf bufio.wbuf]. apply app_nil_r.
  - intros Hhigh. unfold store.Read. rewrite Hfl. eexists. split.
    + rewrite int64_high by lia. unfold os.ReadAt.
      destruct (Z.ltb_spec (pos - 2 ^ 64) 0); [reflexivity|lia].
    + unfold store.contents. cbn [store.File store.buf bufio.wbuf]. apply app_nil_r.
Qed.

Lemma store_Read_past_the_end_witness :
  exists s', store.Read (E := test_env) (store.newStore []) 0 = (s', Err io_EOF).
Proof.
  destruct (store_Read_past_the_end test_env (store.newStore []) 0) as [H _].
  - vm_compute. reflexivity.
  - unfold is_uint64. lia.
  - destruct H as (s' & Hrd & _).
    + lia.
    + vm_compute. reflexivity.
    + exists s'. exact Hrd.
Defined.

(** [store.ReadAt] with the two numbers a successful [Append] returned
    reads the entry as it lies in the file: the length of the payload on 8
    bytes, big-endian, then the payload; one byte further there is nothing
    to read ([io.EOF]), and a negative offset is refused. *)
Theorem store_ReadAt_after_Append :
  forall (E : Env) s p s1 n pos,
    store_ok s ->
    len (store.contents s) + (8 + len p) <= maxInt ->
    store.Append s p = (s1, Ok (n, pos)) ->
    snd (bufio.Flush (store.File s1) (store.buf s1)) = None ->
    (exists s2, store.ReadAt s1 n pos = (s2, Ok (PutUint64 (len p) ++ p)))
    /\ (forall m, 0 < m -> exists s2, store.ReadAt s1 m (pos + n) = (s2, Err io_EOF))
    /\ (forall m off, off < 0 ->
          exists s2, store.ReadAt s1 m off = (s2, Err ErrNegativeOffset)).
Proof.
  intros E s p s1 n pos Hok Hmax H Hfl.
  pose proof (len_nonneg p). pose proof (len_nonneg (store.contents s)).
  destruct (store_ok_Append s p s1 n pos Hok Hmax H) as (Hok1 & Hc1 & Hpos & Hn).
  apply Flush_None in Hfl. fold (store.contents s1) in Hfl.
  unfold maxInt in *. unfold store.ReadAt. rewrite Hfl.
  assert (Hl1 : len (store.contents s1) = pos + n)
    by (rewrite Hc1, len_app, len_frame; lia).
  split; [|split].
  - eexists. f_equal. unfold os.ReadAt.
    destruct (Z.ltb_spec pos 0); [lia|].
    destruct (Z.eqb_spec n 0); [lia|].
    destruct (Z.ltb_spec (len (store.contents s1)) (pos + n)); [lia|].
    f_equal. rewrite Hc1, Hpos, drop_app_exact, Hn, <- len_frame, take_all by lia.
    unfold frame. rewrite uint64_id by lia. reflexivity.
  - intros m Hm. eexists. f_equal. unfold os.ReadAt.
    destruct (Z.ltb_spec (pos + n) 0); [lia|].
    destruct (Z.eqb_spec m 0); [lia|].
    destruct (Z.ltb_spec (len (store.contents s1)) (pos + n + m)); [reflexivity|lia].
  - intros m off Hoff. eexists. f_equal. unfold os.ReadAt.
    destruct (Z.ltb_spec off 0); [reflexivity|lia].
Qed.

Lemma store_ReadAt_after_Append_witness :
  exists s2,
    store.ReadAt (E := test_env)
      (fst (store.Append (E := test_env) (store.newStore []) hello)) 13 0
    = (s2, Ok (PutUint64 5 ++ hello)).
Proof.
  destruct (store_ReadAt_after_Append test_env (store.newStore []) hello
              (fst (store.Append (E := test_env) (store.newStore []) hello)) 13 0)
    as [(s2 & Hrd) _].
  - apply store_ok_newStore. vm_compute. discriminate.
  - vm_compute. discriminate.
  - vm_compute. reflexivity.
  - vm_compute. reflexivity.
  - exists s2. exact Hrd.
Defined.

(** The file a store leaves behind.  Opened on a file [f], after a run of
    appends that all succeeded and a [Close] that returned [nil], the file
    holds [f] followed by the entries of the payloads in the order of the
    appends, with nothing between them; the [k]-th append returned the
    length of its entry and the position where it starts. *)
Theorem store_Close_leaves_the_entries :
  forall (E : Env) f ps s outs,
    len f + len (frames ps) <= maxInt ->
    store_AppendAll (store.newStore f) ps = (s, outs) ->
    all_ok outs ->
    snd (store.Close s) = None ->
    fst (store.Close s) = f ++ frames ps
    /\ len outs = len ps
    /\ forall k, 0 <= k < len ps ->
         nth (Z.to_nat k) outs Panic
         = Ok (8 + len (nth (Z.to_nat k) ps []),
               len f + len (frames (firstn (Z.to_nat k) ps))).
Proof.
  intros E f ps s outs Hmax Hrun Hall Hclose.
  pose proof (len_nonneg (frames ps)).
  assert (Hc0 : store.contents (store.newStore f) = f)
    by (unfold store.contents; cbn; apply app_nil_r).
  destruct (store_AppendAll_spec ps (store.newStore f) s outs) as (_ & Hc & Hlen & Hnth);
    [apply store_ok_newStore; lia|rewrite Hc0; exact Hmax|exact Hrun|exact Hall|].
  rewrite Hc0 in Hc, Hnth.
  split; [|split; assumption].
  unfold store.Close in *.
  destruct (bufio.Flush (store.File s) (store.buf s)) as [[f1 b1] err] eqn:Hf.
  cbn [fst snd] in *. subst err.
  apply Flush_spec in Hf. destruct Hf as (Hbytes & _ & _ & Hnone).
  destruct (Hnone eq_refl) as [Hb1 _]. rewrite Hb1, app_nil_r in Hbytes.
  rewrite Hbytes. exact Hc.
Qed.

Lemma store_Close_leaves_the_entries_witness :
  fst (store.Close (E := test_env)
         (fst (store_AppendAll (E := test_env) (store.newStore []) [hello; foo])))
  = [] ++ frames [hello; foo].
Proof.
  refine (proj1 (store_Close_leaves_the_entries test_env [] [hello; foo]
                   (fst (store_AppendAll (E := test_env) (store.newStore []) [hello; foo]))
                   [Ok (13, 0); Ok (11, 13)] _ _ _ _)).
  - vm_compute. discriminate.
  - vm_compute. reflexivity.
  - repeat constructor; eexists; reflexivity.
  - vm_compute. reflexivity.
Defined.

(** A write error stays in the store.  Once an [Append] has returned an
    error, every later [Append], [Read], [ReadAt] and [Close] returns the
    same error and changes nothing: the size never moves again. *)
Theorem store_error_is_sticky :
  forall (E : Env) s p s1 e,
    store_wf s ->
    store.Append s p = (s1, Err e) ->
    store.size s1 = store.size s
    /\ (forall q, store.Append s1 q = (s1, Err e))
    /\ (forall pos, store.Read s1 pos = (s1, Err e))
    /\ (forall m off, store.ReadAt s1 m off = (s1, Err e))
    /\ store.Close s1 = (store.File s1, Some e).
Proof.
  intros E s p s1 e Hwf H.
  assert (Hs1 : store.size s1 = store.size s /\ bufio.werr (store.buf s1) = Some e).
  { unfold store_wf in Hwf. unfold store.Append in H.
    destruct (bufio.Write (store.File s) (store.buf s) (PutUint64 (uint64 (len p))))
      as [[[f1 b1] n1] err1] eqn:Hw1.
    apply Write_spec in Hw1; [|assumption]. destruct Hw1 as (He1 & Hok1).
    destruct err1 as [e1|].
    - inversion H; subst. cbn [store.size store.buf]. auto.
    - destruct (Hok1 eq_refl) as (_ & _ & _ & Hcap1).
      destruct (bufio.Write f1 b1 p) as [[[f2 b2] n2] err2] eqn:Hw2.
      apply Write_spec in Hw2; [|assumption]. destruct Hw2 as (He2 & _).
      destruct err2 as [e2|]; [|discriminate].
      inversion H; subst. cbn [store.size store.buf]. auto. }
  destruct Hs1 as [Hsz He]. destruct s1 as [f1 b1 z1]. cbn [store.size store.buf] in *.
  assert (Hfl : bufio.Flush f1 b1 = (f1, b1, Some e))
    by (unfold bufio.Flush; rewrite He; reflexivity).
  split; [exact Hsz|]. split; [|split; [|split]].
  - intros q. unfold store.Append. cbn [store.File store.buf store.size].
    rewrite (Write_sticky f1 b1 _ e He). reflexivity.
  - intros pos. unfold store.Read. cbn [store.File store.buf store.size].
    rewrite Hfl. reflexivity.
  - intros m off. unfold store.ReadAt. cbn [store.File store.buf store.size].
    rewrite Hfl. reflexivity.
  - unfold store.Close. cbn [store.File store.buf]. rewrite Hfl. reflexivity.
Qed.

Lemma store_error_is_sticky_witness :
  store.Append (E := full_disk)
    (fst (store.Append (E := full_disk) (store.newStore []) (zeros 4097))) hello
  = (fst (store.Append (E := full_disk) (store.newStore []) (zeros 4097)), Err ErrWrite).
Proof.
  refine (proj1 (proj2 (store_error_is_sticky full_disk (store.newStore []) (zeros 4097)
                          _ ErrWrite _ _)) hello).
  - unfold store_wf. vm_compute. discriminate.
  - vm_compute. reflexivity.
Defined.

(** ** The index: opening and closing *)

Lemma slot_of_size i i' n : index.size i' = index.size i -> slot_of i' n = slot_of i n.
Proof. intros H. unfold slot_of. rewrite H. reflexivity. Qed.

(** [index.Close] cuts the file to the logical size, and [newIndex] over
    that file, with the same [MaxIndexBytes], gives an index of the same
    logical size and the same mapped length on which every [Read] answers
    as it did before the close. *)
Theorem index_Close_then_newIndex :
  forall i c,
    index_wf i ->
    0 < len (index.mmap i) ->
    len (index.mmap i) = int64 (MaxIndexBytes (Segment c)) ->
    index.Close i = Ok (take (index.size i) (index.mmap i))
    /\ len (take (index.size i) (index.mmap i)) = index.size i
    /\ exists i',
         index.newIndex (take (index.size i) (index.mmap i)) c = Ok i'
         /\ index.size i' = index.size i
         /\ len (index.mmap i') = len (index.mmap i)
         /\ forall n, index.Read i' n = index.Read i n.
Proof.
  intros i c Hwf Hpos Hcap. pose proof Hwf as [Hs Hm]. unfold maxInt in Hm.
  set (f := take (index.size i) (index.mmap i)).
  assert (Hf : len f = index.size i) by (subst f; apply len_take; lia).
  split.
  { unfold index.Close. rewrite int64_id by lia. rewrite os_Truncate_ok by lia.
    rewrite zeros_nonpos by lia. apply f_equal, app_nil_r. }
  split; [exact Hf|].
  rewrite newIndex_positive by lia. rewrite <- Hcap.
  eexists. split; [reflexivity|]. cbn [index.size index.mmap].
  split; [rewrite Hf; apply uint64_id; lia|]. split; [apply len_Truncate; lia|].
  intros n.
  set (i' := {| index.mmap := take (len (index.mmap i)) f
                              ++ zeros (len (index.mmap i) - len f);
                index.size := uint64 (len f) |}).
  assert (Hsz : index.size i' = index.size i)
    by (subst i'; cbn [index.size]; rewrite Hf; apply uint64_id; lia).
  assert (Hlen : len (index.mmap i') = len (index.mmap i))
    by (subst i'; cbn [index.mmap]; apply len_Truncate; lia).
  assert (Hslot : slot_of i' n = slot_of i n) by (apply slot_of_size; exact Hsz).
  pose proof (slot_of_range i n) as Hk.
  destruct (Z.eq_dec (index.size i) 0) as [H0|H0].
  { rewrite !index_Read_eof; auto. left. rewrite Hsz. exact H0. }
  destruct (Z.lt_ge_cases (index.size i) (12 * (slot_of i n + 1))) as [Hout|Hin].
  { rewrite !index_Read_eof; auto. right. rewrite Hsz, Hslot. exact Hout. }
  rewrite (index_Read_ok i n) by lia.
  rewrite (index_Read_ok i' n) by (rewrite ?Hsz, ?Hslot, ?Hlen; lia).
  rewrite Hslot. subst i'. cbn [index.mmap]. f_equal.
  rewrite take_all by lia.
  rewrite entry_at_prefix by lia.
  subst f. apply entry_at_take; lia.
Qed.

Lemma index_Close_then_newIndex_witness :
  exists i',
    index.newIndex (take 12 (index.mmap (segment.index_ scenario_s1))) (mkConfig 1024 36)
    = Ok i'
    /\ forall n, index.Read i' n = index.Read (segment.index_ scenario_s1) n.
Proof.
  destruct (index_Close_then_newIndex (segment.index_ scenario_s1) (mkConfig 1024 36))
    as (_ & _ & i' & Hnew & _ & _ & Hrd).
  - unfold index_wf. vm_compute. repeat split; discriminate.
  - vm_compute. reflexivity.
  - vm_compute. reflexivity.
  - exists i'. split; [exact Hnew|exact Hrd].
Defined.

(** [newSegment] over an index file that is longer than [MaxIndexBytes]
    (a segment reopened with a smaller limit) does not return an error:
    [newIndex] keeps the size the file had, maps the shortened file, and
    the read of the last entry slices the mapped bytes out of range. *)
Theorem newSegment_over_a_longer_index_panics :
  forall d B c N,
    1 <= N <= 2 ^ 32 ->
    len (segment.indexFile d) = 12 * N ->
    0 < int64 (MaxIndexBytes (Segment c)) < 12 * N ->
    segment.newSegment d B c = Panic.
Proof.
  intros d B c N HN Hlen HM. unfold segment.newSegment.
  rewrite newIndex_positive by lia.
  set (ix := {| index.mmap := _; index.size := _ |}).
  assert (Hsz : index.size ix = 12 * N)
    by (subst ix; cbn [index.size]; rewrite Hlen; apply uint64_id; lia).
  assert (Hm : len (index.mmap ix) = int64 (MaxIndexBytes (Segment c)))
    by (subst ix; cbn [index.mmap]; apply len_Truncate; lia).
  assert (Hslot : slot_of ix (-1) = N - 1).
  { unfold slot_of. change (-1 =? -1) with true. cbv iota.
    unfold index.entWidth, index.offWidth, index.posWidth. rewrite Hsz.
    change (4 + 8) with 12. rewrite Z.mul_comm, Z.div_mul by lia.
    rewrite uint64_id, uint32_id; lia. }
  pose proof (index_Read_cases ix (-1)) as Hcases.
  rewrite Hslot, Hsz, Hm in Hcases.
  destruct (index.Read ix (-1)) as [[o q]|e|].
  - destruct Hcases as (_ & _ & H & _). lia.
  - destruct Hcases as (_ & [H|H]); lia.
  - reflexivity.
Qed.

Lemma newSegment_over_a_longer_index_panics_witness :
  segment.newSegment
    {| segment.storeFile := []; segment.indexFile := entries [(0, 0); (1, 21)] |}
    0 (mkConfig 1024 12)
  = Panic.
Proof.
  apply (newSegment_over_a_longer_index_panics _ 0 (mkConfig 1024 12) 2).
  - lia.
  - vm_compute. reflexivity.
  - vm_compute. split; reflexivity.
Defined.

(** ** The segment: reads *)

Section Segment_reads.
Context {E : Env}.

(** A successful [store.Read] has flushed the buffer: the same read again
    returns the same bytes and changes nothing. *)
Lemma store_Read_again s pos st p :
  store.Read s pos = (st, Ok p) ->
  store.Read st pos = (st, Ok p)
  /\ store.contents st = store.contents s
  /\ store.size st = store.size s.
Proof.
  intros H. unfold store.Read in H.
  destruct (bufio.Flush (store.File s) (store.buf s)) as [[f1 b1] err] eqn:Hf.
  destruct err as [e|]; [discriminate|].
  assert (Hfl : snd (bufio.Flush (store.File s) (store.buf s)) = None)
    by (rewrite Hf; reflexivity).
  apply Flush_None in Hfl. rewrite Hfl in Hf. inversion Hf; subst f1 b1. clear Hf.
  assert (Hst : st = {| store.File := store.File s ++ bufio.wbuf (store.buf s);
                        store.buf := {| bufio.wbuf := []; bufio.werr := None |};
                        store.size := store.size s |}).
  { destruct (os.ReadAt _ store.lenWidth _) as [sz|e|]; try discriminate.
    destruct (maxInt <? Uint64 sz); [discriminate|]. congruence. }
  split; [|split].
  - subst st. unfold store.Read.
    cbn [store.File store.buf store.size bufio.Flush bufio.werr bufio.wbuf].
    exact H.
  - rewrite Hst. unfold store.contents. cbn [store.File store.buf bufio.wbuf].
    apply app_nil_r.
  - rewrite Hst. reflexivity.
Qed.

(** When the flush fails, so does [store.Read]. *)
Lemma store_Read_flush_error s pos e :
  snd (bufio.Flush (store.File s) (store.buf s)) = Some e ->
  snd (store.Read s pos) = Err e.
Proof.
  intros H. unfold store.Read.
  destruct (bufio.Flush (store.File s) (store.buf s)) as [[f1 b1] err].
  cbn [snd] in H. subst err. reflexivity.
Qed.
End Segment_reads.

(** A [segment.Read] that returned a record changes nothing a later call
    can see: the same [Read] again returns the same record and leaves the
    segment as it is; the index, the offsets and the bytes of the store
    are those before the first read. *)
Theorem segment_Read_again :
  forall (E : Env) s off s1 r,
    segment.Read s off = (s1, Ok r) ->
    segment.Read s1 off = (s1, Ok r)
    /\ segment.index_ s1 = segment.index_ s
    /\ segment.baseOffset s1 = segment.baseOffset s
    /\ segment.nextOffset s1 = segment.nextOffset s
    /\ store.contents (segment.store_ s1) = store.contents (segment.store_ s)
    /\ store.size (segment.store_ s1) = store.size (segment.store_ s).
Proof.
  intros E s off s1 r H. unfold segment.Read in H.
  destruct (index.Read (segment.index_ s) (int64 (uint64 (off - segment.baseOffset s))))
    as [[o pos]|e|] eqn:Hix; try discriminate.
  destruct (store.Read (segment.store_ s) pos) as [st rr] eqn:Hst.
  destruct rr as [p|e|]; try discriminate.
  assert (Hs1 : s1 = segment.with_store s st) by congruence.
  assert (Hun : proto_Unmarshal p = Ok r) by congruence.
  destruct (store_Read_again _ _ _ _ Hst) as (Hagain & Hc & Hsz).
  subst s1. unfold segment.Read.
  cbn [segment.with_store segment.index_ segment.baseOffset segment.store_
       segment.nextOffset].
  rewrite Hix, Hagain, Hun.
  split; [reflexivity|]. split; [reflexivity|]. split; [reflexivity|].
  split; [reflexivity|]. split; assumption.
Qed.

Lemma segment_Read_again_witness :
  segment.Read (E := test_env) (fst (segment.Read (E := test_env) based_s1 1)) 1
  = (fst (segment.Read (E := test_env) based_s1 1), Ok (mkRecord hello 1)).
Proof.
  refine (proj1 (segment_Read_again test_env based_s1 1 _ (mkRecord hello 1) _)).
  vm_compute. reflexivity.
Defined.

(** Whatever the offset, [segment.Read] on a segment that holds the
    records of a run of successful appends returns one of these records,
    stamped with the offset it was appended at, or an error: never bytes
    that are not a record of the segment, and never a panic. *)
Theorem segment_Read_returns_a_record_or_an_error :
  forall (E : Env) c B rs s0 s outs off,
    codec_sound E ->
    is_uint64 B ->
    segment.newSegment no_files B c = Ok s0 ->
    segment.AppendAll s0 rs = (s, outs) ->
    all_ok outs ->
    len (store.contents (segment.store_ s)) <= maxInt ->
    (exists k,
        0 <= k < len rs
        /\ snd (segment.Read s off)
           = Ok (set_Offset (nth (Z.to_nat k) rs empty_Record) (uint64 (B + k))))
    \/ (exists e, snd (segment.Read s off) = Err e).
Proof.
  intros E c B rs s0 s outs off Hcodec HB Hnew Hrun Hok Hmax.
  destruct (seg_rep_fresh B c s0 HB Hnew) as (Hrep0 & Hb0 & _).
  destruct (AppendAll_rep rs s0 [] s outs Hrep0 Hrun Hok) as ([_ Hdata] & Hb1 & _).
  cbn [app] in Hdata. rewrite Hb0 in Hb1.
  pose proof Hdata as (Hwf & Hsz & _ & _ & _ & _ & Hentries).
  destruct Hwf as [Hrange Hcap].
  set (n := int64 (uint64 (off - segment.baseOffset s))).
  pose proof (slot_of_range (segment.index_ s) n) as Hk.
  destruct (Z.lt_ge_cases (slot_of (segment.index_ s) n) (len rs)) as [Hin|Hout].
  - destruct (snd (bufio.Flush (store.File (segment.store_ s))
                               (store.buf (segment.store_ s)))) as [e|] eqn:Hfl.
    + right. exists e. unfold segment.Read. fold n.
      rewrite index_Read_ok by lia.
      destruct (entry_at _ _) as [o pos].
      pose proof (store_Read_flush_error (segment.store_ s) pos e Hfl) as Hrd.
      destruct (store.Read (segment.store_ s) pos) as [st rr].
      cbn [snd] in Hrd. subst rr. reflexivity.
    + left. exists (slot_of (segment.index_ s) n). split; [lia|].
      destruct (segment_Read_slot s rs off (slot_of (segment.index_ s) n) Hcodec Hdata)
        as [s' Hrd]; try assumption; try lia; try reflexivity.
      rewrite Hrd. unfold stamped. rewrite Hb1. reflexivity.
  - right. exists io_EOF. unfold segment.Read. fold n.
    rewrite index_Read_eof by (right; lia). reflexivity.
Qed.

Lemma segment_Read_returns_a_record_or_an_error_witness :
  (exists k,
      0 <= k < 1
      /\ snd (segment.Read (E := test_env) based_s1 0)
         = Ok (set_Offset (nth (Z.to_nat k) [mkRecord hello 0] empty_Record) (uint64 (1 + k))))
  \/ (exists e, snd (segment.Read (E := test_env) based_s1 0) = Err e).
Proof.
  apply (segment_Read_returns_a_record_or_an_error test_env demo_config 1
           [mkRecord hello 0] based_s0 based_s1 [Ok 1] 0 test_env_codec_sound).
  - unfold is_uint64. lia.
  - vm_compute. reflexivity.
  - vm_compute. reflexivity.
  - repeat constructor; eexists; reflexivity.
  - vm_compute. discriminate.
Defined.

(** ** Panics of [Append] *)

Section Append_panics.
Context {E : Env}.

(** [Append] keeps the lengths of the index lengths of files, and panics
    only when [proto.Marshal] does. *)
Lemma segment_Append_sane s r s' res :
  index_sane (segment.index_ s) ->
  segment.Append s r = (s', res) ->
  index_sane (segment.index_ s')
  /\ (proto_Marshal (set_Offset r (segment.nextOffset s)) <> Panic -> res <> Panic).
Proof.
  intros Hsane H. unfold segment.Append in H.
  destruct (proto_Marshal (set_Offset r (segment.nextOffset s))) as [p|e|];
    [|inversion H; subst; split; [assumption|discriminate]
     |inversion H; subst; split; [assumption|intros Hm; contradiction]].
  destruct (store.Append (segment.store_ s) p) as [st r0] eqn:Hst.
  destruct r0 as [[n pos]|e|].
  - destruct (index_Write_sane (segment.index_ s)
                (uint32 (uint64 (segment.nextOffset s - segment.baseOffset s))) pos Hsane)
      as [Hnp Hsane'].
    destruct (index.Write (segment.index_ s) _ pos) as [ix w]. cbn [fst snd] in *.
    destruct w as [u|e|]; inversion H; subst; cbn [segment.index_ segment.with_index];
      (split; [exact Hsane'|intros _; try discriminate]).
    exfalso. apply Hnp. reflexivity.
  - inversion H; subst. split; [exact Hsane|discriminate].
  - destruct (store_Append_failed _ _ _ _ Hst) as (_ & e & He); discriminate.
Qed.

Lemma run_sane s rs s' :
  run s rs s' -> index_sane (segment.index_ s) -> index_sane (segment.index_ s').
Proof.
  induction 1 as [s|s r s1 off rs0 s2 Ha _ IH|s r s1 res rs0 s2 Ha _ _ IH]; intros Hsane.
  - exact Hsane.
  - apply IH. apply (segment_Append_sane _ _ _ _ Hsane Ha).
  - apply IH. apply (segment_Append_sane _ _ _ _ Hsane Ha).
Qed.
End Append_panics.

Lemma newSegment_sane d B c s :
  len (segment.indexFile d) <= maxInt ->
  segment.newSegment d B c = Ok s ->
  index_sane (segment.index_ s).
Proof.
  intros Hlen Hnew.
  destruct (newSegment_Ok d B c s Hnew) as (ix & Hix & Hi & _).
  destruct (newIndex_Ok _ _ _ Hix) as (HM & _ & Hsz & Hml).
  pose proof (int64_range (MaxIndexBytes (Segment c))) as HR.
  pose proof (len_nonneg (segment.indexFile d)) as H0.
  unfold maxInt in Hlen.
  rewrite Hi. unfold index_sane, maxInt. rewrite Hsz, Hml, uint64_id by lia. lia.
Qed.

(** [segment.Append] panics on a nil record: the offset is assigned through
    the pointer before anything else.  On a record that is there it does
    not panic in any state reached from [newSegment], over whatever index
    file of at most [2^63 - 1] bytes, by [Append] calls, successful or not,
    unless [proto.Marshal] itself panics: the two slice expressions of
    [index.Write] stay inside the mapped bytes. *)
Theorem segment_Append_does_not_panic :
  forall (E : Env) d B c s0 rs s,
    len (segment.indexFile d) <= maxInt ->
    segment.newSegment d B c = Ok s0 ->
    run s0 rs s ->
    segment.Append_ptr s None = (s, Panic)
    /\ forall r,
         proto_Marshal (set_Offset r (segment.nextOffset s)) <> Panic ->
         snd (segment.Append_ptr s (Some r)) <> Panic.
Proof.
  intros E d B c s0 rs s Hlen Hnew Hrun.
  split; [reflexivity|].
  intros r Hm. cbn [segment.Append_ptr].
  pose proof (run_sane s0 rs s Hrun (newSegment_sane d B c s0 Hlen Hnew)) as Hsane.
  destruct (segment.Append s r) as [s' res] eqn:Ha.
  cbn [snd]. apply (segment_Append_sane s r s' res Hsane Ha). exact Hm.
Qed.

Lemma segment_Append_does_not_panic_witness :
  segment.Append_ptr (E := test_env) unclean_s1 None = (unclean_s1, Panic)
  /\ snd (segment.Append_ptr (E := test_env) unclean_s1 (Some (mkRecord hello 0))) <> Panic.
Proof.
  destruct (segment_Append_does_not_panic test_env unclean_files 0 (mkConfig 1024 36)
              unclean_s0 [] unclean_s1) as [Hnil Hsome].
  - vm_compute. discriminate.
  - vm_compute. reflexivity.
  - apply (run_failed unclean_s0 (mkRecord world 0) unclean_s1 (Err io_EOF) [] unclean_s1).
    + vm_compute. reflexivity.
    + discriminate.
    + apply run_done.
  - split; [exact Hnil|]. apply Hsome. vm_compute. discriminate.
Defined.

(** ** The segment: appends that fail, and the files left behind *)

(** An [Append] that fails at the index leaves its bytes in the store.
    On a segment whose index is full, when the record marshals and the
    store takes it, [Append] returns [io.EOF]; the store has grown by the
    entry of the record (8 bytes and the payload) although no index entry
    points to it, the index and [nextOffset] are as before, and the
    segment still holds the records appended earlier. *)
Theorem segment_Append_on_a_full_index :
  forall (E : Env) c B rs s0 s outs r p st n pos,
    is_uint64 B ->
    segment.newSegment no_files B c = Ok s0 ->
    segment.AppendAll s0 rs = (s, outs) ->
    all_ok outs ->
    index.isMaxed (segment.index_ s) = true ->
    proto_Marshal (set_Offset r (segment.nextOffset s)) = Ok p ->
    store.Append (segment.store_ s) p = (st, Ok (n, pos)) ->
    exists s',
      segment.Append s r = (s', Err io_EOF)
      /\ segment.store_ s' = st
      /\ store.contents st = store.contents (segment.store_ s) ++ frame p
      /\ store.size st = uint64 (store.size (segment.store_ s) + (len p + 8))
      /\ segment.index_ s' = segment.index_ s
      /\ segment.nextOffset s' = segment.nextOffset s
      /\ seg_rep s' rs.
Proof.
  intros E c B rs s0 s outs r p st n pos HB Hnew Hrun Hok Hmaxed Hm Hst.
  destruct (seg_rep_fresh B c s0 HB Hnew) as (Hrep0 & _ & _).
  destruct (AppendAll_rep rs s0 [] s outs Hrep0 Hrun Hok) as ([Hnext Hdata] & _).
  cbn [app] in Hdata, Hnext.
  destruct Hdata as (Hwf & Hsz & Hcapc & Hswf & Herr & Hssz & Hentries).
  destruct (store_Append_Ok _ _ _ _ _ Hswf Hst) as (Hc & Hpos & Hn & Hs & He & Hwf').
  assert (Hw : forall o q,
             index.Write (segment.index_ s) o q = (segment.index_ s, Err io_EOF))
    by (intros; unfold index.Write; rewrite Hmaxed; reflexivity).
  exists (segment.with_index (segment.with_store s st) (segment.index_ s)).
  split.
  { unfold segment.Append. rewrite Hm, Hst, Hw. reflexivity. }
  cbn [segment.with_index segment.with_store segment.store_ segment.index_
       segment.nextOffset segment.baseOffset segment.config].
  split; [reflexivity|]. split; [exact Hc|]. split; [exact Hs|].
  split; [reflexivity|]. split; [reflexivity|].
  unfold seg_rep, seg_data.
  cbn [segment.with_index segment.with_store segment.store_ segment.index_
       segment.nextOffset segment.baseOffset segment.config].
  split; [exact Hnext|]. split; [exact Hwf|]. split; [exact Hsz|].
  split; [exact Hcapc|]. split; [exact Hwf'|]. split; [exact He|].
  split.
  - rewrite Hs, Hc, len_app, len_frame, Hssz, uint64_add_l. f_equal. lia.
  - intros k Hk. destruct (Hentries k Hk) as (p0 & q & Hm0 & He0 & Hf0).
    exists p0, q. split; [exact Hm0|]. split; [exact He0|].
    cbn [segment.with_index segment.with_store segment.store_].
    rewrite Hc. apply frame_at_app. exact Hf0.
Qed.

Lemma segment_Append_on_a_full_index_witness :
  exists s',
    segment.Append (E := test_env) scenario_s3 (mkRecord hello 0) = (s', Err io_EOF)
    /\ segment.nextOffset s' = 3
    /\ store.size (segment.store_ s') = 82.
Proof.
  destruct (segment_Append_on_a_full_index test_env (mkConfig 1024 36) 0
              [mkRecord hello 0; mkRecord world 0; mkRecord foo 0]
              scenario_s0 scenario_s3 [Ok 0; Ok 1; Ok 2] (mkRecord hello 0)
              (PutUint64 3 ++ hello)
              (fst (store.Append (E := test_env) (segment.store_ scenario_s3)
                      (PutUint64 3 ++ hello)))
              21 61)
    as (s' & Ha & Hst & _ & _ & _ & Hn & _).
  - unfold is_uint64. lia.
  - vm_compute. reflexivity.
  - vm_compute. reflexivity.
  - repeat constructor; eexists; reflexivity.
  - vm_compute. reflexivity.
  - vm_compute. reflexivity.
  - vm_compute. reflexivity.
  - exists s'. split; [exact Ha|]. split.
    + rewrite Hn. vm_compute. reflexivity.
    + rewrite Hst. vm_compute. reflexivity.
Defined.

(** The two files a segment leaves behind.  After a run of successful
    appends on a new segment and a [Close] that returned [nil], the index
    file holds one 12-byte entry for each record and nothing more (the
    mapped zeros are cut off), and the [k]-th entry holds the relative
    offset [k] and the position in the store file where the marshalled
    [k]-th record lies behind its 8-byte length. *)
Theorem segment_Close_leaves_the_records :
  forall (E : Env) c B rs s0 s outs d,
    is_uint64 B ->
    segment.newSegment no_files B c = Ok s0 ->
    segment.AppendAll s0 rs = (s, outs) ->
    all_ok outs ->
    segment.Close s = (d, Ok tt) ->
    len (segment.indexFile d) = 12 * len rs
    /\ segment.storeFile d = store.contents (segment.store_ s)
    /\ forall k, 0 <= k < len rs ->
         exists p q,
           proto_Marshal (set_Offset (nth (Z.to_nat k) rs empty_Record) (uint64 (B + k)))
           = Ok p
           /\ entry_at (segment.indexFile d) k = (uint32 k, uint64 q)
           /\ frame_at (segment.storeFile d) q p.
Proof.
  intros E c B rs s0 s outs d HB Hnew Hrun Hok Hclose.
  destruct (seg_rep_fresh B c s0 HB Hnew) as (Hrep0 & Hb0 & _).
  destruct (AppendAll_rep rs s0 [] s outs Hrep0 Hrun Hok) as ([_ Hdata] & Hb1 & _).
  cbn [app] in Hdata. rewrite Hb0 in Hb1.
  destruct (segment_Close_Ok s rs d Hdata Hclose) as [Hi Hs].
  destruct Hdata as ([Hrange Hcap] & Hsz & _ & _ & _ & _ & Hentries).
  pose proof (len_nonneg rs) as HN.
  split; [rewrite Hi; apply len_take; lia|]. split; [exact Hs|].
  intros k Hk. destruct (Hentries k Hk) as (p & q & Hm & He & Hf).
  exists p, q. unfold stamped in Hm. rewrite Hb1 in Hm.
  split; [exact Hm|]. split.
  - rewrite Hi, entry_at_take by lia. exact He.
  - rewrite Hs. exact Hf.
Qed.

Lemma segment_Close_leaves_the_records_witness :
  len (segment.indexFile demo_files) = 12 * 2
  /\ entry_at (segment.indexFile demo_files) 1 = (1, 21).
Proof.
  destruct (segment_Close_leaves_the_records test_env demo_config 5 demo_records
              demo_s0 demo_s1 [Ok 5; Ok 6] demo_files)
    as (Hlen & _ & _).
  - unfold is_uint64. lia.
  - vm_compute. reflexivity.
  - vm_compute. reflexivity.
  - repeat constructor; eexists; reflexivity.
  - vm_compute. reflexivity.
  - split; [exact Hlen|]. vm_compute. reflexivity.
Defined.

(** ** Removing a segment *)

(** [Remove] returns [nil] exactly when both files are gone; it never
    unlinks the store file while the index file stays; and when [Close]
    fails it unlinks nothing and returns what [Close] returned. *)
Theorem segment_Remove_unlinks_in_order :
  forall (E : Env) s rmIndex rmStore,
    (snd (segment.Remove s rmIndex rmStore) = Ok tt
     <-> segment.storeEntry (fst (segment.Remove s rmIndex rmStore)) = None)
    /\ (segment.storeEntry (fst (segment.Remove s rmIndex rmStore)) = None ->
        segment.indexEntry (fst (segment.Remove s rmIndex rmStore)) = None)
    /\ (snd (segment.Close s) <> Ok tt ->
        segment.Remove s rmIndex rmStore
        = (segment.present (fst (segment.Close s)), snd (segment.Close s))).
Proof.
  intros E s rmIndex rmStore. unfold segment.Remove.
  destruct (segment.Close s) as [d r]. cbn [fst snd].
  destruct r as [[]|e|]; [destruct rmIndex as [e1|]; [|destruct rmStore as [e2|]]| |];
    cbn [fst snd segment.present segment.storeEntry segment.indexEntry];
    (split; [split; intros H; (discriminate || reflexivity)|]);
    (split; [intros H; (discriminate || reflexivity)|]);
    intros H; try reflexivity; exfalso; apply H; reflexivity.
Qed.

(** After a [Remove] that returned [nil] the two names are free: a new
    segment made at the same place starts empty, at its base offset,
    and holds no record. *)
Theorem segment_Remove_then_newSegment :
  forall (E : Env) s rmIndex rmStore d B c,
    segment.Remove s rmIndex rmStore = (d, Ok tt) ->
    0 < MaxIndexBytes (Segment c) <= maxInt ->
    segment.storeEntry d = None
    /\ segment.indexEntry d = None
    /\ snd (segment.Close s) = Ok tt
    /\ exists s',
         segment.newSegment (segment.found d) B c = Ok s'
         /\ segment.nextOffset s' = B
         /\ store.size (segment.store_ s') = 0
         /\ index.size (segment.index_ s') = 0
         /\ forall off, segment.Read s' off = (s', Err io_EOF).
Proof.
  intros E s rmIndex rmStore d B c H HM. unfold segment.Remove in H.
  destruct (segment.Close s) as [fs r]. cbn [snd].
  destruct r as [[]|e|]; [|discriminate|discriminate].
  destruct rmIndex as [e1|]; [discriminate|].
  destruct rmStore as [e2|]; [discriminate|].
  assert (Hd : d = {| segment.storeEntry := None; segment.indexEntry := None |})
    by congruence.
  subst d. cbn [segment.storeEntry segment.indexEntry].
  split; [reflexivity|]. split; [reflexivity|]. split; [reflexivity|].
  change (segment.found {| segment.storeEntry := None; segment.indexEntry := None |})
    with no_files.
  destruct (newSegment_fresh_Ok B c HM) as [s' Hnew].
  exists s'. split; [exact Hnew|].
  destruct (newSegment_empty no_files B c s' eq_refl Hnew) as (Hn & Hsz & _ & _).
  destruct (newSegment_Ok _ _ _ _ Hnew) as (ix & _ & _ & Hst & _).
  split; [exact Hn|]. split; [rewrite Hst; reflexivity|]. split; [exact Hsz|].
  intros off. unfold segment.Read. rewrite index_Read_eof by (left; exact Hsz).
  reflexivity.
Qed.

Lemma segment_Remove_then_newSegment_witness :
  exists s',
    segment.newSegment
      (segment.found (fst (segment.Remove (E := test_env) scenario_s1 None None)))
      0 demo_config
    = Ok s'
    /\ segment.nextOffset s' = 0.
Proof.
  destruct (segment_Remove_then_newSegment test_env scenario_s1 None None
              (fst (segment.Remove (E := test_env) scenario_s1 None None)) 0 demo_config)
    as (_ & _ & _ & s' & Hnew & Hn & _).
  - vm_compute. reflexivity.
  - vm_compute. split; [reflexivity|discriminate].
  - exists s'. split; [exact Hnew|exact Hn].
Defined.

(** ** The log kept in memory *)

Lemma to_nat_len {A} (l : list A) : Z.to_nat (len l) = length l.
Proof. unfold len. apply Nat2Z.id. Qed.

Lemma nth_app_old {A} (l l' : list A) k d :
  0 <= k < len l -> nth (Z.to_nat k) (l ++ l') d = nth (Z.to_nat k) l d.
Proof. intros Hk. apply app_nth1. unfold len in Hk. lia. Qed.

Lemma nth_app_new {A} (l : list A) x d : nth (Z.to_nat (len l)) (l ++ [x]) d = x.
Proof. rewrite to_nat_len. apply nth_middle. Qed.

(** What a run of appends leaves in the log. *)
Lemma server_AppendAll_spec rs : forall c c' offs,
  len (server.records c) + len rs <= maxInt ->
  server.AppendAll c rs = (c', offs) ->
  len (server.records c') = len (server.records c) + len rs
  /\ len offs = len rs
  /\ (forall k d, 0 <= k < len (server.records c) ->
        nth (Z.to_nat k) (server.records c') d = nth (Z.to_nat k) (server.records c) d)
  /\ forall k d, 0 <= k < len rs ->
       nth (Z.to_nat k) offs (-1) = len (server.records c) + k
       /\ nth (Z.to_nat (len (server.records c) + k)) (server.records c') d
          = {| server.Value := server.Value (nth (Z.to_nat k) rs d);
               server.Offset := len (server.records c) + k |}.
Proof.
  induction rs as [|r rs IH]; intros c c' offs Hmax H.
  - cbn [server.AppendAll] in H. inversion H; subst.
    change (len (@nil server.Record_)) with 0. change (len (@nil Z)) with 0.
    split; [lia|]. split; [reflexivity|]. split; [reflexivity|]. intros k d Hk. lia.
  - cbn [server.AppendAll] in H. unfold server.Append in H. cbv zeta in H.
    cbn [server.Offset] in H.
    set (x := {| server.Value := server.Value r;
                 server.Offset := uint64 (len (server.records c)) |}) in *.
    set (c1 := {| server.records := server.records c ++ [x] |}) in *.
    destruct (server.AppendAll c1 rs) as [c2 offs'] eqn:Hrun.
    inversion H; subst c2 offs. clear H.
    pose proof (len_nonneg (server.records c)) as Hc. pose proof (len_nonneg rs) as Hrs.
    rewrite len_cons in Hmax. unfold maxInt in Hmax.
    assert (Hoff : uint64 (len (server.records c)) = len (server.records c))
      by (apply uint64_id; lia).
    assert (Hlen1 : len (server.records c1) = len (server.records c) + 1).
    { subst c1. cbn [server.records]. rewrite len_app. reflexivity. }
    destruct (IH c1 c' offs') as (Hlen & Hoffs & Hold & Hnew);
      [rewrite Hlen1; unfold maxInt; lia|exact Hrun|].
    split; [rewrite Hlen, Hlen1, len_cons; lia|].
    split; [rewrite !len_cons, Hoffs; reflexivity|].
    split.
    + intros k d Hk. rewrite Hold by lia. subst c1. cbn [server.records].
      apply nth_app_old. exact Hk.
    + intros k d Hk. rewrite len_cons in Hk.
      destruct (Z.eq_dec k 0) as [->|Hk0].
      * cbn [Z.to_nat nth]. rewrite Z.add_0_r. split; [exact Hoff|].
        rewrite Hold by lia. subst c1. cbn [server.records].
        rewrite nth_app_new. subst x. rewrite Hoff. reflexivity.
      * destruct (Hnew (k - 1) d) as [Ho Hr]; [lia|].
        replace (Z.to_nat k) with (S (Z.to_nat (k - 1))) by lia.
        cbn [nth]. rewrite Hlen1 in Ho, Hr.
        replace (len (server.records c) + 1 + (k - 1)) with (len (server.records c) + k)
          in Ho, Hr by lia.
        split; assumption.
Qed.

(** The offsets of the log kept in memory are the positions of its
    records.  The records appended one after the other to a new log get
    the offsets 0, 1, 2, ... in that order, and [Read] at the [k]-th of
    them returns the value of the [k]-th record with [k] in its [Offset]
    field, whatever the caller had put there. *)
Theorem server_Log_offsets_are_positions :
  forall rs c offs,
    len rs <= maxInt ->
    server.AppendAll server.NewLog rs = (c, offs) ->
    len offs = len rs
    /\ forall k, 0 <= k < len rs ->
         nth (Z.to_nat k) offs (-1) = k
         /\ server.Read c k
            = ({| server.Value :=
                    server.Value (nth (Z.to_nat k) rs (server.mkRecord_ [] 0));
                  server.Offset := k |}, None).
Proof.
  intros rs c offs Hmax H.
  destruct (server_AppendAll_spec rs server.NewLog c offs) as (Hlen & Hoffs & _ & Hnew);
    [exact Hmax|exact H|].
  change (len (server.records server.NewLog)) with 0 in Hlen, Hnew.
  split; [exact Hoffs|]. intros k Hk.
  destruct (Hnew k (server.mkRecord_ [] 0) Hk) as [Ho Hr].
  rewrite Z.add_0_l in Ho, Hr. split; [exact Ho|].
  unfold server.Read. rewrite Hlen. unfold maxInt in Hmax.
  rewrite uint64_id by lia.
  destruct (Z.leb_spec (0 + len rs) k); [lia|].
  rewrite Hr. reflexivity.
Qed.

Lemma server_Log_offsets_are_positions_witness :
  server.Read
    (fst (server.AppendAll server.NewLog [server.mkRecord_ hello 9; server.mkRecord_ foo 9])) 1
  = (server.mkRecord_ foo 1, None).
Proof.
  refine (proj2 (proj2 (server_Log_offsets_are_positions
                          [server.mkRecord_ hello 9; server.mkRecord_ foo 9]
                          _ [0; 1] _ _) 1 _)).
  - vm_compute. discriminate.
  - vm_compute. reflexivity.
  - vm_compute. split; [discriminate|reflexivity].
Defined.

(** [Append] on any log returns the number of records it held, with no
    error; [Read] at that offset returns the record just appended, stamped
    with the offset; the records held before are read as before. *)
Theorem server_Log_Append_then_Read :
  forall c r c' off err,
    len (server.records c) < maxInt ->
    server.Append c r = (c', off, err) ->
    err = None
    /\ off = len (server.records c)
    /\ server.Read c' off = ({| server.Value := server.Value r; server.Offset := off |}, None)
    /\ forall k, 0 <= k < off -> server.Read c' k = server.Read c k.
Proof.
  intros c r c' off err Hmax H. unfold maxInt in Hmax.
  pose proof (len_nonneg (server.records c)) as Hc.
  unfold server.Append in H. cbv zeta in H. cbn [server.Offset] in H.
  rewrite uint64_id in H by lia.
  inversion H; subst c' off err. clear H.
  split; [reflexivity|]. split; [reflexivity|].
  unfold server.Read. cbn [server.records]. rewrite len_app.
  change (len [_]) with 1. rewrite !uint64_id by lia.
  split.
  - destruct (Z.leb_spec (len (server.records c) + 1) (len (server.records c))); [lia|].
    rewrite nth_app_new. reflexivity.
  - intros k Hk.
    destruct (Z.leb_spec (len (server.records c) + 1) k); [lia|].
    destruct (Z.leb_spec (len (server.records c)) k); [lia|].
    rewrite nth_app_old by lia. reflexivity.
Qed.

Lemma server_Log_Append_then_Read_witness :
  server.Read (fst (fst (server.Append server.NewLog (server.mkRecord_ hello 9)))) 0
  = (server.mkRecord_ hello 0, None).
Proof.
  refine (proj1 (proj2 (proj2 (server_Log_Append_then_Read server.NewLog
                                 (server.mkRecord_ hello 9) _ 0 None _ _)))).
  - vm_compute. reflexivity.
  - vm_compute. reflexivity.
Defined.

(** [Read] fails with [ErrOffsetNotFound], and returns the zero record,
    exactly for the offsets from the number of records on (every offset,
    on a new log); below it [Read] returns the record at that position
    and no error. *)
Theorem server_Log_Read_not_found :
  forall c offset,
    len (server.records c) <= maxInt ->
    is_uint64 offset ->
    (len (server.records c) <= offset ->
     server.Read c offset = (server.mkRecord_ [] 0, Some server.ErrOffsetNotFound))
    /\ (offset < len (server.records c) ->
        snd (server.Read c offset) = None
        /\ In (fst (server.Read c offset)) (server.records c))
    /\ server.Read server.NewLog offset
       = (server.mkRecord_ [] 0, Some server.ErrOffsetNotFound).
Proof.
  intros c offset Hmax Hoff. unfold maxInt in Hmax. unfold is_uint64 in Hoff.
  pose proof (len_nonneg (server.records c)) as Hc.
  unfold server.Read. rewrite (uint64_id (len (server.records c))) by lia.
  split; [|split].
  - intros H. destruct (Z.leb_spec (len (server.records c)) offset); [reflexivity|lia].
  - intros H. destruct (Z.leb_spec (len (server.records c)) offset); [lia|].
    cbn [fst snd]. split; [reflexivity|]. apply nth_In. unfold len in H. lia.
  - change (len (server.records server.NewLog)) with 0. change (uint64 0) with 0.
    destruct (Z.leb_spec 0 offset); [reflexivity|lia].
Qed.

Lemma server_Log_Read_not_found_witness :
  server.Read (fst (fst (server.Append server.NewLog (server.mkRecord_ hello 9)))) 1
  = (server.mkRecord_ [] 0, Some server.ErrOffsetNotFound).
Proof.
  refine (proj1 (server_Log_Read_not_found
                   (fst (fst (server.Append server.NewLog (server.mkRecord_ hello 9)))) 1
                   _ _) _).
  - vm_compute. discriminate.
  - unfold is_uint64. lia.
  - vm_compute. discriminate.
Defined.

(** ** What reaches the file, and when *)

Section Buffered_appends.
Context {E : Env}.

(** A write that fits the buffer goes to the buffer and nowhere else. *)
Lemma Write_fits f b p :
  bufio.werr b = None ->
  len p <= bufio.Available b ->
  bufio.Write f b p
  = (f, {| bufio.wbuf := bufio.wbuf b ++ p; bufio.werr := None |}, len p, None).
Proof.
  intros He Hfit. unfold bufio.Write.
  rewrite Write_loop_settled.
  - rewrite He.
    replace (Nat.min (Z.to_nat (bufio.Available b)) (length p)) with (length p)
      by (unfold len in Hfit; lia).
    rewrite firstn_all. reflexivity.
  - unfold settled. destruct (Z.ltb_spec (bufio.Available b) (len p)); [lia|reflexivity].
Qed.
End Buffered_appends.

(** An [Append] whose entry fits the room left in the buffer makes no
    write to the file: the file is as it was, the entry waits in the
    buffer, and [Append] returns [nil] whatever the state of the disk; the
    bytes reach the file with the next [Read], [ReadAt] or [Close], or with
    an [Append] that overflows the buffer. *)
Theorem store_Append_stays_in_the_buffer :
  forall (E : Env) s p,
    bufio.werr (store.buf s) = None ->
    len (bufio.wbuf (store.buf s)) + (8 + len p) <= bufio.defaultBufSize ->
    store.Append s p
    = ({| store.File := store.File s;
          store.buf := {| bufio.wbuf := bufio.wbuf (store.buf s) ++ frame p;
                          bufio.werr := None |};
          store.size := uint64 (store.size s + (len p + 8)) |},
       Ok (len p + 8, store.size s)).
Proof.
  intros E s p He Hfit. unfold bufio.defaultBufSize in Hfit.
  pose proof (len_nonneg p) as Hp.
  pose proof (len_nonneg (bufio.wbuf (store.buf s))) as Hb.
  unfold store.Append.
  rewrite Write_fits;
    [|exact He|unfold bufio.Available, bufio.defaultBufSize; rewrite len_PutUint64; lia].
  rewrite Write_fits;
    [|reflexivity
     |unfold bufio.Available, bufio.defaultBufSize; cbn [bufio.wbuf];
      rewrite len_app, len_PutUint64; lia].
  cbn [bufio.wbuf]. unfold store.lenWidth, frame.
  rewrite int64_id by lia. rewrite uint64_add_r, (uint64_id (len p + 8)) by lia.
  rewrite <- app_assoc. reflexivity.
Qed.

Lemma store_Append_stays_in_the_buffer_witness :
  store.File (fst (store.Append (E := full_disk) (store.newStore []) hello)) = []
  /\ snd (store.Append (E := full_disk) (store.newStore []) hello) = Ok (13, 0).
Proof.
  rewrite (store_Append_stays_in_the_buffer full_disk (store.newStore []) hello).
  - split; reflexivity.
  - reflexivity.
  - vm_compute. discriminate.
Defined.

(** ** Creating a segment *)



(** ** The limit on the store *)

(** [Append] does not look at [MaxStoreBytes]: the limit only shows in
    [IsMaxed], which the caller has to ask.  Where nothing fails, a new
    segment takes every record its index has room for, also when
    [MaxStoreBytes] is 0 and [IsMaxed] answers true from the start. *)
Theorem segment_Append_does_not_enforce_MaxStoreBytes :
  forall (E : Env) c B rs s0,
    reliable E ->
    is_uint64 B ->
    segment.newSegment no_files B c = Ok s0 ->
    12 * len rs <= int64 (MaxIndexBytes (Segment c)) ->
    exists s outs,
      segment.AppendAll s0 rs = (s, outs)
      /\ all_ok outs
      /\ (MaxStoreBytes (Segment c) <= 0 ->
          segment.IsMaxed s0 = true /\ segment.IsMaxed s = true).
Proof.
  intros E c B rs s0 Hrel HB Hnew Hroom.
  destruct (seg_rep_fresh B c s0 HB Hnew) as (Hrep0 & _ & Hc0).
  destruct (reliable_AppendAll Hrel rs s0 [] Hrep0) as (s & outs & Hrun & Hok).
  { rewrite Hc0. change (len (@nil api_Record)) with 0. lia. }
  exists s, outs. split; [exact Hrun|]. split; [exact Hok|].
  intros Hzero.
  destruct (AppendAll_rep rs s0 [] s outs Hrep0 Hrun Hok) as ([_ Hdata] & _ & Hc1 & _).
  destruct Hrep0 as [_ Hdata0].
  assert (Hmaxed : forall x rs', seg_data x rs' -> segment.config x = c ->
                                 segment.IsMaxed x = true).
  { intros x rs' (_ & _ & _ & _ & _ & Hsz & _) Hcx. unfold segment.IsMaxed.
    rewrite Hcx. pose proof (uint64_range (len (store.contents (segment.store_ x)))).
    destruct (Z.leb_spec (MaxStoreBytes (Segment c)) (store.size (segment.store_ x)));
      [reflexivity|lia]. }
  split.
  - apply (Hmaxed s0 [] Hdata0 Hc0).
  - apply (Hmaxed s ([] ++ rs) Hdata). rewrite Hc1. exact Hc0.
Qed.

Lemma segment_Append_does_not_enforce_MaxStoreBytes_witness :
  exists s0 s outs,
    segment.newSegment no_files 0 (mkConfig 0 36) = Ok s0
    /\ segment.AppendAll (E := test_env) s0 [mkRecord hello 0; mkRecord world 0] = (s, outs)
    /\ all_ok outs
    /\ segment.IsMaxed s0 = true.
Proof.
  destruct (newSegment_fresh_Ok 0 (mkConfig 0 36)) as [s0 Hnew].
  { vm_compute. split; [reflexivity|discriminate]. }
  destruct (segment_Append_does_not_enforce_MaxStoreBytes test_env (mkConfig 0 36) 0
              [mkRecord hello 0; mkRecord world 0] s0 test_env_reliable)
    as (s & outs & Hrun & Hok & Hmaxed).
  - unfold is_uint64. lia.
  - exact Hnew.
  - vm_compute. discriminate.
  - exists s0, s, outs. split; [exact Hnew|]. split; [exact Hrun|]. split; [exact Hok|].
    apply Hmaxed. vm_compute. discriminate.
Defined.
